(** * nGPT-pytorch: the normalized transformer, embedded in Rocq

    A shallow embedding of [nGPT_pytorch/nGPT.py].  Tensors are nested
    lists indexed by their rank; floating-point numbers are idealised
    as real numbers, so every statement below is about the exact
    arithmetic the code approximates.  Library calls of PyTorch and
    einops ([chunk], [stack], [cat], [F.normalize], [F.linear],
    [Rearrange], [masked_fill]) are given their documented meaning; the
    attention kernel and the rotary embedding stay abstract. *)

From Stdlib Require Import Reals Lra Lia List ZArith Bool Psatz.
Import ListNotations.
Open Scope R_scope.

(** ** Python exceptions and fallible computations *)

Inductive error : Type :=
| AssertionError
| RuntimeError
| IndexError
| ZeroDivisionError
| TypeError.

Inductive result (A : Type) : Type :=
| Ok (a : A)
| Err (e : error).

Arguments Ok {A} a.
Arguments Err {A} e.

Definition bind {A B : Type} (r : result A) (k : A -> result B) : result B :=
  match r with
  | Ok a => k a
  | Err e => Err e
  end.

Notation "x <- r ;; k" := (bind r (fun x => k))
  (at level 61, r at next level, right associativity).

Definition is_ok {A : Type} (r : result A) : bool :=
  match r with Ok _ => true | Err _ => false end.

(** ** Module-level helper functions *)

Definition exists_ {A : Type} (v : option A) : bool :=
  match v with Some _ => true | None => false end.

Definition default {A : Type} (v : option A) (d : A) : A :=
  match v with Some x => x | None => d end.

(** ** Tensors *)

Fixpoint tensor (A : Type) (n : nat) : Type :=
  match n with
  | O => A
  | S k => list (tensor A k)
  end.

Inductive dtype : Type := float16 | bfloat16 | float32 | float64.

Definition dtype_eqb (a b : dtype) : bool :=
  match a, b with
  | float16, float16 | bfloat16, bfloat16
  | float32, float32 | float64, float64 => true
  | _, _ => false
  end.

Fixpoint map2 {A B C : Type} (f : A -> B -> C) (a : list A) (b : list B) : list C :=
  match a, b with
  | x :: a', y :: b' => f x y :: map2 f a' b'
  | _, _ => []
  end.

Fixpoint tmap {A B : Type} (f : A -> B) (n : nat) : tensor A n -> tensor B n :=
  match n with
  | O => f
  | S k => map (tmap f k)
  end.

Fixpoint tzip {A B C : Type} (f : A -> B -> C) (n : nat)
  : tensor A n -> tensor B n -> tensor C n :=
  match n with
  | O => f
  | S k => map2 (tzip f k)
  end.

(** Two tensors of one rank have the same shape. *)
Fixpoint same_shape {A B : Type} (n : nat) : tensor A n -> tensor B n -> bool :=
  match n with
  | O => fun _ _ => true
  | S k => fun a b =>
      (length a =? length b)%nat && forallb (fun b => b) (map2 (same_shape k) a b)
  end.

(** [dim] as PyTorch reads it: negative values count from the end. *)
Definition resolve_dim (rank : nat) (dim : Z) : result nat :=
  if ((0 <=? dim) && (dim <? Z.of_nat rank))%Z then Ok (Z.to_nat dim)
  else if ((- Z.of_nat rank <=? dim) && (dim <? 0))%Z
       then Ok (Z.to_nat (Z.of_nat rank + dim))
       else Err IndexError.

(** *** [torch.chunk], [torch.stack], [torch.cat] *)

Fixpoint split_list {A : Type} (fuel split_size : nat) (l : list A) : list (list A) :=
  match fuel with
  | O => []
  | S fuel' =>
      match l with
      | [] => []
      | _ :: _ => firstn split_size l :: split_list fuel' split_size (skipn split_size l)
      end
  end.

Definition chunk_list {A : Type} (chunks : nat) (l : list A) : list (list A) :=
  let dim_size := length l in
  let split_size := ((dim_size + chunks - 1) / chunks)%nat in
  if (dim_size =? 0)%nat then repeat [] chunks
  else split_list dim_size split_size l.

Definition chunk_size (chunks dim_size : nat) : nat :=
  ((dim_size + chunks - 1) / chunks)%nat.

(** The chunks [torch.chunk] cuts all have one size. *)
Definition even_chunks (chunks dim_size : nat) : Prop :=
  exists k, dim_size = (k * chunk_size chunks dim_size)%nat.

Definition transpose {A : Type} (rows : list (list A)) : list (list A) :=
  match rows with
  | [] => []
  | r :: _ => fold_right (map2 cons) (repeat [] (length r)) rows
  end.

Definition transpose_from {A : Type} (m : nat) (rows : list (list A)) : list (list A) :=
  fold_right (map2 cons) (repeat [] m) rows.

Fixpoint chunk {A : Type} (n d chunks : nat) {struct d}
  : tensor A (S n) -> list (tensor A (S n)) :=
  match d with
  | O => chunk_list chunks
  | S d' =>
      match n return tensor A (S n) -> list (tensor A (S n)) with
      | O => chunk_list chunks
      | S n' => fun t => transpose (map (chunk n' d' chunks) t)
      end
  end.

Definition stack {A : Type} (n : nat) (ts : list (tensor A n)) : result (tensor A (S n)) :=
  match ts with
  | [] => Err RuntimeError
  | t0 :: rest =>
      if forallb (same_shape n t0) rest then Ok ts else Err RuntimeError
  end.

Fixpoint cat {A : Type} (n d : nat) {struct d}
  : list (tensor A (S n)) -> tensor A (S n) :=
  match d with
  | O => @concat (tensor A n)
  | S d' =>
      match n return list (tensor A (S n)) -> tensor A (S n) with
      | O => @concat A
      | S n' => fun ts => map (cat n' d') (transpose ts)
      end
  end.

(** *** Norms along an axis *)

Definition sq (x : R) : R := x * x.

Definition tzeros (n : nat) : tensor R n :=
  match n with
  | O => 0
  | S _ => []
  end.

(** Sum of squares over axis 0 of a rank [S n] tensor. *)
Fixpoint sumsq0 (n : nat) (t : list (tensor R n)) : tensor R n :=
  match t with
  | [] => tzeros n
  | x :: rest =>
      match rest with
      | [] => tmap sq n x
      | _ :: _ => tzip Rplus n (tmap sq n x) (sumsq0 n rest)
      end
  end.

(** [t.norm(dim = 0, keepdim = True)], the kept axis left implicit. *)
Definition norm0 (n : nat) (t : list (tensor R n)) : tensor R n :=
  tmap sqrt n (sumsq0 n t).

(** [x.clamp(min = lo, max = hi)] *)
Definition clamp (lo hi x : R) : R := Rmin (Rmax x lo) hi.

(** [F.normalize(t, dim = 0, p = 2)]: [t / t.norm(...).clamp_min(eps)]
    with PyTorch's default [eps = 1e-12]. *)
Definition normalize_eps : R := 1e-12.

Definition normalize0 (n : nat) (t : list (tensor R n)) : list (tensor R n) :=
  let denom := tmap (Rmax normalize_eps) n (norm0 n t) in
  map (fun x => tzip Rdiv n x denom) t.

(** The [else] branch of [l2norm], along axis 0. *)
Definition soft_normalize0 (norm_eps eps : R) (n : nat) (t : list (tensor R n))
  : list (tensor R n) :=
  let norm := norm0 n t in
  let target_norm := tmap (clamp (1 - norm_eps) (1 + norm_eps)) n norm in
  let divisor := tzip Rdiv n norm target_norm in
  map (fun x => tzip Rdiv n x (tmap (Rmax eps) n divisor)) t.

(** Run an axis-0 operation along axis [d] of a rank [S n] tensor. *)
Fixpoint along (F : forall k, list (tensor R k) -> list (tensor R k)) (n d : nat)
  {struct d} : tensor R (S n) -> tensor R (S n) :=
  match d with
  | O => F n
  | S d' =>
      match n return tensor R (S n) -> tensor R (S n) with
      | O => fun t => t
      | S n' => map (along F n' d')
      end
  end.

(** ** [l2norm] *)

Definition default_eps (dt : dtype) : R :=
  if dtype_eqb dt float16 then 1e-5 else 1e-10.

Definition l2norm_core (norm_eps : R) (eps : option R) (dt : dtype) (n d : nat)
  : tensor R (S n) -> tensor R (S n) :=
  if Req_dec_T norm_eps 0 then along normalize0 n d
  else
    let eps := default eps (default_eps dt) in
    along (soft_normalize0 norm_eps eps) n d.

Definition l2norm (n : nat) (t : tensor R (S n)) (dim : Z) (norm_eps : R)
  (eps : option R) (groups : nat) (dt : dtype) : result (tensor R (S n)) :=
  if (1 <? groups)%nat then
    d <- resolve_dim (S n) dim ;;
    t' <- stack (S n) (chunk n d groups t) ;;
    d' <- resolve_dim (S (S n)) dim ;;
    let out := l2norm_core norm_eps eps dt (S n) d' t' in
    Ok (cat n d out)
  else
    d <- resolve_dim (S n) dim ;;
    Ok (l2norm_core norm_eps eps dt n d t).

(** The Euclidean norm of a vector. *)
Definition vnorm (v : list R) : R :=
  sqrt (fold_right Rplus 0 (map sq v)).


(** What the two branches of [l2norm] do to one vector. *)
Definition hard_vec (v : list R) : list R :=
  map (fun x => x / Rmax normalize_eps (vnorm v)) v.

Definition soft_vec (norm_eps eps : R) (v : list R) : list R :=
  let norm := vnorm v in
  let target_norm := clamp (1 - norm_eps) (1 + norm_eps) norm in
  map (fun x => x / Rmax eps (norm / target_norm)) v.

Definition l2norm_vec (norm_eps : R) (eps : option R) (dt : dtype) (v : list R) : list R :=
  if Req_dec_T norm_eps 0 then hard_vec v
  else soft_vec norm_eps (default eps (default_eps dt)) v.


(** The groups of one vector that [l2norm] normalises separately. *)
Definition groups_of {A : Type} (groups : nat) (v : list A) : list (list A) :=
  if (1 <? groups)%nat then chunk_list groups v else [v].

(** [l2norm] along the last axis, seen from one vector. *)
Definition grouped_vec (norm_eps : R) (eps : option R) (dt : dtype) (groups : nat)
  (v : list R) : list R :=
  concat (map (l2norm_vec norm_eps eps dt) (groups_of groups v)).

(** The claimed reading of a grouped Normalizer: cut the tensor into
    [groups] contiguous slices along [dim], send each slice through the
    Normalizer with one group, and join the results along [dim]. *)
Fixpoint sequence {A : Type} (rs : list (result A)) : result (list A) :=
  match rs with
  | [] => Ok []
  | r :: rs' => a <- r ;; l <- sequence rs' ;; Ok (a :: l)
  end.

Definition normalize_slices_spec (n : nat) (t : tensor R (S n)) (dim : Z) (norm_eps : R)
  (eps : option R) (groups : nat) (dt : dtype) : result (tensor R (S n)) :=
  d <- resolve_dim (S n) dim ;;
  outs <- sequence (map (fun s => l2norm n s dim norm_eps eps 1 dt) (chunk n d groups t)) ;;
  Ok (cat n d outs).

(** ** [L2Norm] *)

Record L2Norm : Type := mkL2Norm {
  l2_dim : Z;
  l2_norm_eps : R;
  l2_groups : nat
}.

Definition L2Norm_forward (m : L2Norm) (dt : dtype) (n : nat) (t : tensor R (S n))
  : result (tensor R (S n)) :=
  l2norm n t (l2_dim m) (l2_norm_eps m) None (l2_groups m) dt.

(** ** Scalars a tensor may hold: reals, and reals with [nan] *)

Class Scalar (F : Type) : Type := {
  s_zero : F;
  s_add : F -> F -> F;
  s_mul : F -> R -> F
}.

#[export] Instance Scalar_R : Scalar R :=
  {| s_zero := 0; s_add := Rplus; s_mul := Rmult |}.

Inductive xreal : Type :=
| Finite (r : R)
| NaN.

Definition xadd (a b : xreal) : xreal :=
  match a, b with
  | Finite x, Finite y => Finite (x + y)
  | _, _ => NaN
  end.

Definition xmul (a : xreal) (w : R) : xreal :=
  match a with
  | Finite x => Finite (x * w)
  | NaN => NaN
  end.

#[export] Instance Scalar_xreal : Scalar xreal :=
  {| s_zero := Finite 0; s_add := xadd; s_mul := xmul |}.

(** Apply a vector function along the last axis. *)
Fixpoint on_last {A B : Type} (f : list A -> list B) (n : nat)
  : tensor A (S n) -> tensor B (S n) :=
  match n with
  | O => f
  | S k => map (on_last f k)
  end.

Definition dot {F : Type} `{Scalar F} (x : list F) (w : list R) : F :=
  fold_right s_add s_zero (map2 s_mul x w).

(** [F.linear(x, weight)] without bias: [weight] is [dim_out] rows of
    [dim] entries. *)
Definition linear {F : Type} `{Scalar F} (weight : tensor R 2) (n : nat)
  (x : tensor F (S n)) : tensor F (S n) :=
  on_last (fun v => map (dot v) weight) n x.

(** ** [NormLinear] *)

Record NormLinear : Type := mkNormLinear {
  nl_dim : nat;
  nl_dim_out : nat;
  (** the stored parameter: [linear.weight], or under [parametrize]
      [linear.parametrizations.weight.original] *)
  nl_linear : tensor R 2;
  nl_dtype : dtype;
  nl_scale : R;
  nl_parametrize : bool;
  nl_l2norm : L2Norm
}.

Definition set_linear (m : NormLinear) (w : tensor R 2) : NormLinear :=
  {| nl_dim := nl_dim m; nl_dim_out := nl_dim_out m; nl_linear := w;
     nl_dtype := nl_dtype m; nl_scale := nl_scale m;
     nl_parametrize := nl_parametrize m; nl_l2norm := nl_l2norm m |}.

(** The [weight] property: reading [linear.weight] runs the registered
    parametrization. *)
Definition NormLinear_weight (m : NormLinear) : result (tensor R 2) :=
  if nl_parametrize m
  then L2Norm_forward (nl_l2norm m) (nl_dtype m) 1 (nl_linear m)
  else Ok (nl_linear m).

Definition NormLinear_norm_weights_ (m : NormLinear) : result NormLinear :=
  if nl_parametrize m then
    normed <- NormLinear_weight m ;;
    Ok (set_linear m normed)
  else
    w <- NormLinear_weight m ;;
    normed <- L2Norm_forward (nl_l2norm m) (nl_dtype m) 1 w ;;
    Ok (set_linear m normed).

Definition NormLinear_forward {F : Type} `{Scalar F} (m : NormLinear) (n : nat)
  (x : tensor F (S n)) : result (tensor F (S n)) :=
  w <- NormLinear_weight m ;;
  Ok (tmap (fun y => s_mul y (nl_scale m)) (S n) (linear w n x)).

(** [NormLinear.__init__]; [init_weight] stands for the random
    initialisation [nn.Linear] draws. *)
Definition NormLinear_init (dim dim_out : nat) (norm_dim_in parametrize : bool)
  (norm_eps : R) (groups : nat) (dt : dtype) (init_weight : tensor R 2)
  : result NormLinear :=
  if (groups =? 0)%nat then Err ZeroDivisionError
  else
    NormLinear_norm_weights_
      {| nl_dim := dim; nl_dim_out := dim_out; nl_linear := init_weight;
         nl_dtype := dt; nl_scale := / INR groups;
         nl_parametrize := parametrize;
         nl_l2norm := {| l2_dim := if norm_dim_in then (-1)%Z else 0%Z;
                         l2_norm_eps := norm_eps; l2_groups := groups |} |}.

(** The unit-norm invariant of a weight matrix as the specification
    words it: along the normalised axis, every one of the [groups]
    contiguous groups has norm 1, up to [norm_eps]. *)
Definition in_band (norm_eps x : R) : Prop :=
  1 - norm_eps <= x <= 1 + norm_eps.

Definition groups_in_band (norm_eps : R) (groups : nat) (v : list R) : Prop :=
  Forall (fun c => in_band norm_eps (vnorm c)) (groups_of groups v).

Definition unit_norm_invariant (l : L2Norm) (w : tensor R 2) : Prop :=
  if (l2_dim l =? 0)%Z
  then Forall (groups_in_band (l2_norm_eps l) (l2_groups l)) (transpose w)
  else Forall (groups_in_band (l2_norm_eps l) (l2_groups l)) w.

(** A projection normalised along the output axis in two groups, its
    stored weight one column whose two groups each have norm 1. *)
Definition out_axis_projection (parametrize : bool) : NormLinear :=
  {| nl_dim := 1; nl_dim_out := 2; nl_linear := [[1]; [1]];
     nl_dtype := float32; nl_scale := / 2; nl_parametrize := parametrize;
     nl_l2norm := {| l2_dim := 0; l2_norm_eps := 0; l2_groups := 2 |} |}.

(** ** [Scale] *)

Record Scale : Type := mkScale {
  sc_dim : nat;
  sc_scale : list R;
  sc_forward_scale : R
}.

(** [init / scale] on Python floats raises on a zero divisor. *)
Definition Scale_init (dim : nat) (init scale : R) : result Scale :=
  if Req_dec_T scale 0 then Err ZeroDivisionError
  else Ok {| sc_dim := dim;
             sc_scale := repeat (1 * scale) dim;
             sc_forward_scale := init / scale |}.

Definition Scale_forward (s : Scale) : list R :=
  map (fun x => x * sc_forward_scale s) (sc_scale s).

(** [dim ** -0.5] and [dim ** -1] on a Python integer. *)
Definition pow_neg_half (dim : nat) : result R :=
  if (dim =? 0)%nat then Err ZeroDivisionError else Ok (/ sqrt (INR dim)).

Definition pow_neg_one (dim : nat) : result R :=
  if (dim =? 0)%nat then Err ZeroDivisionError else Ok (/ INR dim).

(** ** [Residual] *)

Record Residual (M : Type) : Type := mkResidual {
  res_fn : M;
  res_branch_scale : Scale;
  res_l2norm : L2Norm
}.

Arguments mkResidual {M}.
Arguments res_fn {M}.
Arguments res_branch_scale {M}.
Arguments res_l2norm {M}.

(** The caller's [default(scale, dim ** -0.5)] is folded in: Python
    evaluates the power before the call. *)
Definition Residual_init {M : Type} (fn : M) (dim : nat) (init : R) (scale : option R)
  (groups : nat) (norm_eps : R) : result (Residual M) :=
  d <- pow_neg_half dim ;;
  s <- Scale_init dim init (default scale d) ;;
  Ok {| res_fn := fn; res_branch_scale := s;
        res_l2norm := {| l2_dim := (-1)%Z; l2_norm_eps := norm_eps; l2_groups := groups |} |}.

Fixpoint zip_last {A B C : Type} (f : list A -> list B -> list C) (n : nat)
  : tensor A (S n) -> tensor B (S n) -> tensor C (S n) :=
  match n with
  | O => f
  | S k => map2 (zip_last f k)
  end.

(** [start.lerp(end, weight)] is [start + weight * (end - start)], the
    weight vector broadcast along the last axis. *)
Definition lerp_vec (weight start end_ : list R) : list R :=
  map2 (fun se w => fst se + w * (snd se - fst se)) (combine start end_) weight.

Definition lerp (n : nat) (start end_ : tensor R (S n)) (weight : list R)
  : tensor R (S n) :=
  zip_last (lerp_vec weight) n start end_.

(** The argument of the outer [l2norm]: the normalised branch output
    interpolated with the residual. *)
Definition Residual_fused {M : Type} (n : nat) (r : Residual M) (dt : dtype)
  (residual out : tensor R (S n)) : result (tensor R (S n)) :=
  out <- L2Norm_forward (res_l2norm r) dt n out ;;
  Ok (lerp n residual out (Scale_forward (res_branch_scale r))).

(** [apply] runs the wrapped module with the keyword arguments of the
    call; a tuple output is a primary tensor and the rest. *)
Definition Residual_forward {M Rest : Type} (n : nat)
  (apply : M -> tensor R (S n) -> result (tensor R (S n) * option Rest))
  (r : Residual M) (dt : dtype) (x : tensor R (S n))
  : result (tensor R (S n) * option Rest) :=
  let residual := x in
  o <- apply (res_fn r) x ;;
  let out := fst o in
  let rest := snd o in
  fused <- Residual_fused n r dt residual out ;;
  out <- L2Norm_forward (res_l2norm r) dt n fused ;;
  Ok (out, rest).

(** ** [Attention] *)

Record Attention : Type := mkAttention {
  at_dim : nat;
  at_dim_head : nat;
  at_heads : nat;
  at_causal : bool;
  at_l2norm : L2Norm;
  at_dim_sqrt : R;
  at_attn_scale : R;
  at_to_q : NormLinear;
  at_to_k : NormLinear;
  at_to_v : NormLinear;
  at_norm_qk : bool;
  at_qk_scale : Scale;
  at_to_out : NormLinear
}.

Fixpoint pieces {A : Type} (count size : nat) (l : list A) : list (list A) :=
  match count with
  | O => []
  | S c => firstn size l :: pieces c size (skipn size l)
  end.

(** [Rearrange('b n (h d) -> b h n d', h = heads)] *)
Definition split_heads {A : Type} (heads : nat) (t : tensor A 3) : tensor A 4 :=
  map (fun m => transpose (map (fun v => pieces heads (length v / heads) v) m)) t.

(** [Rearrange('b h n d -> b n (h d)')] *)
Definition merge_heads {A : Type} (t : tensor A 4) : tensor A 3 :=
  map (fun hs => map (@concat A) (transpose hs)) t.

(** [q * rearrange(qk_scale(), '(h d) -> h 1 d', h = heads)] *)
Definition scale_queries (heads : nat) (s : list R) (q : tensor R 4) : tensor R 4 :=
  let per_head := pieces heads (length s / heads) s in
  map (fun qb => map2 (fun qh sh => map (fun qn => map2 Rmult qn sh) qh) qb per_head) q.

(** [out.masked_fill(row_all_masked_out[:, None, None], 0.)] *)
Definition masked_fill_rows {F : Type} `{Scalar F} (rows : list bool) (out : tensor F 3)
  : tensor F 3 :=
  map2 (fun (o : tensor F 2) (m : bool) => if m then tmap (fun _ => s_zero) 2 o else o)
       out rows.

Definition any (l : list bool) : bool := existsb (fun b => b) l.

Section AttentionBlock.

Context {F : Type} `{Scalar F}.

(** The arithmetic of the attention kernel. *)
Variable sdpa :
  tensor R 4 -> tensor R 4 -> tensor R 4 -> option (tensor bool 4) -> bool -> R
  -> tensor F 4.

(** [F.scaled_dot_product_attention(q, k, v, attn_mask, is_causal, scale)]:
    the call raises when an explicit [attn_mask] comes together with
    [is_causal = True]. *)
Definition scaled_dot_product_attention (q k v : tensor R 4)
  (attn_mask : option (tensor bool 4)) (is_causal : bool) (scale : R)
  : result (tensor F 4) :=
  if exists_ attn_mask && is_causal then Err RuntimeError
  else Ok (sdpa q k v attn_mask is_causal scale).

Definition Attention_forward (a : Attention) (dt : dtype) (x : tensor R 3)
  (mask : option (tensor bool 2))
  (rotary_embed : option (tensor R 4 -> tensor R 4))
  (value_residual : option (tensor R 4)) (return_values : bool)
  : result (tensor F 3 * option (tensor R 4)) :=
  q <- NormLinear_forward (at_to_q a) 2 x ;;
  k <- NormLinear_forward (at_to_k a) 2 x ;;
  v <- NormLinear_forward (at_to_v a) 2 x ;;
  let q := split_heads (at_heads a) q in
  let k := split_heads (at_heads a) k in
  let v := split_heads (at_heads a) v in
  let v := match value_residual with
           | Some vr => tmap (Rmult 0.5) 4 (tzip Rplus 4 v vr)
           | None => v
           end in
  let q := match rotary_embed with Some rot => rot q | None => q end in
  let k := match rotary_embed with Some rot => rot k | None => k end in
  qk <- (if at_norm_qk a then
           q' <- L2Norm_forward (at_l2norm a) dt 3 q ;;
           k' <- L2Norm_forward (at_l2norm a) dt 3 k ;;
           Ok (q', k')
         else Ok (q, k)) ;;
  let q := scale_queries (at_heads a) (Scale_forward (at_qk_scale a)) (fst qk) in
  let k := snd qk in
  let row_all_masked_out := option_map (map (fun row => negb (any row))) mask in
  let mask' := option_map (map (fun row : list bool => [[row]])) mask in
  out <- scaled_dot_product_attention q k v mask' (at_causal a) (at_attn_scale a) ;;
  let out := merge_heads out in
  out <- NormLinear_forward (at_to_out a) 2 out ;;
  let out := match row_all_masked_out with
             | Some rows => if any rows then masked_fill_rows rows out else out
             | None => out
             end in
  Ok (out, if return_values then Some v else None).

End AttentionBlock.

(** ** [FeedForward] *)

Record FeedForward : Type := mkFeedForward {
  fw_dim : nat;
  fw_expand_factor : R;
  fw_dim_inner : nat;
  fw_to_hidden : NormLinear;
  fw_to_gate : NormLinear;
  fw_hidden_scale : Scale;
  fw_gate_scale : Scale;
  fw_to_out : NormLinear
}.

Definition silu (x : R) : R := x / (1 + exp (- x)).

Definition mul_last (n : nat) (t : tensor R (S n)) (s : list R) : tensor R (S n) :=
  on_last (fun v => map2 Rmult v s) n t.

Definition FeedForward_forward (f : FeedForward) (x : tensor R 3) : result (tensor R 3) :=
  hidden <- NormLinear_forward (fw_to_hidden f) 2 x ;;
  gate <- NormLinear_forward (fw_to_gate f) 2 x ;;
  let hidden := mul_last 2 hidden (Scale_forward (fw_hidden_scale f)) in
  let gate := tmap (fun g => g * sqrt (INR (fw_dim f))) 3
                (mul_last 2 gate (Scale_forward (fw_gate_scale f))) in
  let hidden := tzip Rmult 3 (tmap silu 3 gate) hidden in
  NormLinear_forward (fw_to_out f) 2 hidden.

(** [Attention.__init__] and [FeedForward.__init__]; [draw] stands for
    the random initial weights, one matrix per projection. *)
Definition require (v : option R) : result R :=
  match v with Some x => Ok x | None => Err TypeError end.

Definition Attention_init (dim dim_head heads : nat) (norm_qk causal manual_norm_weights : bool)
  (s_qk_init s_qk_scale : option R) (norm_eps : R) (num_hyperspheres : nat)
  (dt : dtype) (draw : nat -> tensor R 2) : result Attention :=
  let NormLinear_ := fun d d_out norm_dim_in w =>
    NormLinear_init d d_out norm_dim_in (negb manual_norm_weights) norm_eps
                    num_hyperspheres dt w in
  let dim_inner := (dim_head * heads)%nat in
  to_q <- NormLinear_ dim dim_inner true (draw 0%nat) ;;
  to_k <- NormLinear_ dim dim_inner true (draw 1%nat) ;;
  to_v <- NormLinear_ dim dim_inner true (draw 2%nat) ;;
  d <- pow_neg_one dim ;;
  init <- require s_qk_init ;;
  qk_scale <- Scale_init dim_inner init (default s_qk_scale d) ;;
  to_out <- NormLinear_ dim_inner dim false (draw 3%nat) ;;
  Ok {| at_dim := dim; at_dim_head := dim_head; at_heads := heads; at_causal := causal;
        at_l2norm := {| l2_dim := (-1)%Z; l2_norm_eps := norm_eps;
                        l2_groups := num_hyperspheres |};
        at_dim_sqrt := sqrt (INR dim);
        at_attn_scale := sqrt (INR dim_head);
        at_to_q := to_q; at_to_k := to_k; at_to_v := to_v;
        at_norm_qk := norm_qk; at_qk_scale := qk_scale; at_to_out := to_out |}.

Definition FeedForward_init (dim : nat) (expand_factor : R) (manual_norm_weights : bool)
  (s_hidden_init s_hidden_scale s_gate_init s_gate_scale : option R)
  (norm_eps : R) (num_hyperspheres : nat) (dt : dtype) (draw : nat -> tensor R 2)
  : result FeedForward :=
  let NormLinear_ := fun d d_out norm_dim_in w =>
    NormLinear_init d d_out norm_dim_in (negb manual_norm_weights) norm_eps
                    num_hyperspheres dt w in
  let dim_inner := Z.to_nat (Int_part (INR dim * expand_factor * 2 / 3)) in
  to_hidden <- NormLinear_ dim dim_inner true (draw 4%nat) ;;
  to_gate <- NormLinear_ dim dim_inner true (draw 5%nat) ;;
  h_scale <- require s_hidden_scale ;;
  h_init <- require s_hidden_init ;;
  hidden_scale <- Scale_init dim_inner h_init h_scale ;;
  g_scale <- require s_gate_scale ;;
  g_init <- require s_gate_init ;;
  gate_scale <- Scale_init dim_inner g_init g_scale ;;
  to_out <- NormLinear_ dim_inner dim false (draw 6%nat) ;;
  Ok {| fw_dim := dim; fw_expand_factor := expand_factor; fw_dim_inner := dim_inner;
        fw_to_hidden := to_hidden; fw_to_gate := to_gate;
        fw_hidden_scale := hidden_scale; fw_gate_scale := gate_scale;
        fw_to_out := to_out |}.

(** ** [nGPT] *)

(** A scale hyperparameter: [None], one float, or a tuple. *)
Inductive hparam : Type :=
| HNone
| HFloat (x : R)
| HTuple (t : list (option R)).

Definition cast_tuple (t : hparam) (length_ : nat) : result (list (option R)) :=
  let out := match t with
             | HTuple l => l
             | HNone => repeat None length_
             | HFloat x => repeat (Some x) length_
             end in
  if (length out =? length_)%nat then Ok out else Err AssertionError.

Record nGPT_config : Type := mkConfig {
  num_tokens : nat;
  dim : nat;
  depth : nat;
  dim_head : nat;
  heads : nat;
  attn_norm_qk : bool;
  ff_expand_factor : R;
  ce_ignore_index : Z;
  manual_norm_weights : bool;
  tied_embedding : bool;
  num_hyperspheres : nat;
  causal : bool;
  add_value_residual : bool;
  alpha_init : option R;
  s_logit_init : R;
  s_logit_scale : option R;
  alpha_attn_init : hparam;
  alpha_attn_scale : hparam;
  alpha_ff_init : hparam;
  alpha_ff_scale : hparam;
  s_qk_init : hparam;
  s_qk_scale : hparam;
  s_ff_hidden_init : hparam;
  s_ff_hidden_scale : hparam;
  s_ff_gate_init : hparam;
  s_ff_gate_scale : hparam;
  norm_eps : R
}.

Definition scale_hparams (c : nGPT_config) : list hparam :=
  [alpha_attn_init c; alpha_attn_scale c; alpha_ff_init c; alpha_ff_scale c;
   s_qk_init c; s_qk_scale c; s_ff_hidden_init c; s_ff_hidden_scale c;
   s_ff_gate_init c; s_ff_gate_scale c].

Definition layer : Type := (Residual Attention * Residual FeedForward)%type.

Record nGPT : Type := mkNGPT {
  g_num_tokens : nat;
  g_dim : nat;
  g_heads : nat;
  g_dim_head : nat;
  g_depth : nat;
  g_ff_expand_factor : R;
  g_causal : bool;
  g_add_value_residual : bool;
  g_l2norm : L2Norm;
  g_token_embed : NormLinear;
  g_rotary_embed : tensor R 4 -> tensor R 4;
  g_layers : list layer;
  g_to_logits : option NormLinear;
  g_logit_scale : Scale;
  g_ignore_index : Z;
  g_dtype : dtype
}.

(** One turn of the construction loop, on the [i]-th row of the zipped
    hyperparameters. *)
Definition build_layer (c : nGPT_config) (alpha_init_ : R) (dt : dtype)
  (draw : nat -> tensor R 2) (row : list (option R)) : result layer :=
  match row with
  | [alpha_attn_init_; alpha_attn_scale_; alpha_ff_init_; alpha_ff_scale_;
     s_qk_init_; s_qk_scale_; s_ff_hidden_init_; s_ff_hidden_scale_;
     s_ff_gate_init_; s_ff_gate_scale_] =>
      attn <- Attention_init (dim c) (dim_head c) (heads c) (attn_norm_qk c) (causal c)
                (manual_norm_weights c) s_qk_init_ s_qk_scale_ (norm_eps c)
                (num_hyperspheres c) dt draw ;;
      ff <- FeedForward_init (dim c) (ff_expand_factor c) (manual_norm_weights c)
              s_ff_hidden_init_ s_ff_hidden_scale_ s_ff_gate_init_ s_ff_gate_scale_
              (norm_eps c) (num_hyperspheres c) dt draw ;;
      d <- pow_neg_half (dim c) ;;
      attn_with_residual <-
        Residual_init attn (dim c) (default alpha_attn_init_ alpha_init_)
                      (Some (default alpha_attn_scale_ d)) 1 0 ;;
      d <- pow_neg_half (dim c) ;;
      ff_with_residual <-
        Residual_init ff (dim c) (default alpha_ff_init_ alpha_init_)
                      (Some (default alpha_ff_scale_ d)) 1 0 ;;
      Ok (attn_with_residual, ff_with_residual)
  | _ => Err TypeError
  end.

Fixpoint build_layers (c : nGPT_config) (alpha_init_ : R) (dt : dtype)
  (draw : nat -> nat -> tensor R 2) (i : nat) (rows : list (list (option R)))
  : result (list layer) :=
  match rows with
  | [] => Ok []
  | row :: rows' =>
      l <- build_layer c alpha_init_ dt (draw (S i)) row ;;
      ls <- build_layers c alpha_init_ dt draw (S i) rows' ;;
      Ok (l :: ls)
  end.

(** [nGPT.__init__] once [RotaryEmbedding(dim_head)] has returned
    [rotary_embed]; [draw 0] serves the embedding and the logit
    projection, [draw (S i)] the [i]-th layer. *)
Definition nGPT_init (c : nGPT_config) (dt : dtype)
  (rotary_embed : tensor R 4 -> tensor R 4) (draw : nat -> nat -> tensor R 2)
  : result nGPT :=
  let NormLinear_ := fun d d_out w =>
    NormLinear_init d d_out true (negb (manual_norm_weights c)) (norm_eps c)
                    (num_hyperspheres c) dt w in
  alpha_init_ <- (if (depth c =? 0)%nat then Err ZeroDivisionError
                  else Ok (default (alpha_init c) (1 / INR (depth c)))) ;;
  token_embed <- NormLinear_ (dim c) (num_tokens c) (draw 0%nat 0%nat) ;;
  hparams <- sequence (map (fun h => cast_tuple h (depth c)) (scale_hparams c)) ;;
  layers <- build_layers c alpha_init_ dt draw 0 (transpose hparams) ;;
  to_logits <- (if tied_embedding c then Ok None
                else m <- NormLinear_ (dim c) (num_tokens c) (draw 0%nat 1%nat) ;;
                     Ok (Some m)) ;;
  d <- pow_neg_half (dim c) ;;
  logit_scale <- Scale_init (num_tokens c) (s_logit_init c) (default (s_logit_scale c) d) ;;
  Ok {| g_num_tokens := num_tokens c; g_dim := dim c; g_heads := heads c;
        g_dim_head := dim_head c; g_depth := depth c;
        g_ff_expand_factor := ff_expand_factor c; g_causal := causal c;
        g_add_value_residual := add_value_residual c;
        g_l2norm := {| l2_dim := (-1)%Z; l2_norm_eps := norm_eps c;
                       l2_groups := num_hyperspheres c |};
        g_token_embed := token_embed; g_rotary_embed := rotary_embed;
        g_layers := layers; g_to_logits := to_logits; g_logit_scale := logit_scale;
        g_ignore_index := ce_ignore_index c; g_dtype := dt |}.

(** A configuration of depth 1 whose [s_qk_init] is a pair. *)
Definition config_bad_tuple : nGPT_config :=
  {| num_tokens := 1; dim := 1; depth := 1; dim_head := 1; heads := 1;
     attn_norm_qk := true; ff_expand_factor := 4; ce_ignore_index := (-1)%Z;
     manual_norm_weights := true; tied_embedding := false; num_hyperspheres := 1;
     causal := true; add_value_residual := true;
     alpha_init := None; s_logit_init := 1; s_logit_scale := None;
     alpha_attn_init := HNone; alpha_attn_scale := HNone;
     alpha_ff_init := HNone; alpha_ff_scale := HNone;
     s_qk_init := HTuple [Some 1; Some 1]; s_qk_scale := HNone;
     s_ff_hidden_init := HFloat 1; s_ff_hidden_scale := HFloat 1;
     s_ff_gate_init := HFloat 1; s_ff_gate_scale := HFloat 1;
     norm_eps := 0 |}.

(** [token_embed[ids]] *)
Definition embed (table : tensor R 2) (ids : list (list nat)) : result (tensor R 3) :=
  sequence
    (map (fun row =>
            sequence
              (map (fun i => match nth_error table i with
                             | Some e => Ok e
                             | None => Err IndexError
                             end) row)) ids).

(** [F.cross_entropy] with mean reduction over the targets that are
    not [ignore_index]. *)
Definition nll (logits : list R) (target : nat) : result R :=
  match nth_error logits target with
  | Some x => Ok (ln (fold_right Rplus 0 (map exp logits)) - x)
  | None => Err IndexError
  end.

Definition cross_entropy (logits : tensor R 3) (labels : list (list nat))
  (ignore_index : Z) : result R :=
  let pairs := concat (map2 (fun lb yb => combine lb yb) logits labels) in
  let kept := filter (fun p => negb (Z.of_nat (snd p) =? ignore_index)%Z) pairs in
  terms <- sequence (map (fun p => nll (fst p) (snd p)) kept) ;;
  Ok (fold_right Rplus 0 terms / INR (length terms)).

Inductive forward_output : Type :=
| Logits (logits : tensor R 3)
| LogitsHiddens (logits : tensor R 3) (hiddens : tensor R 4)
| Loss (loss : R)
| LossHiddens (loss : R) (hiddens : tensor R 4).

(** One call of an [Attention] module, as the layer loop makes it:
    the tokens and the [value_residual] it is given and the values it
    hands back. *)
Record attn_call : Type := mkCall {
  ac_module : Attention;
  ac_tokens : tensor R 3;
  ac_value_residual : option (tensor R 4);
  ac_values : tensor R 4
}.

Record loop_state : Type := mkLoop {
  ls_tokens : tensor R 3;
  ls_hiddens : list (tensor R 3);
  ls_first_values : option (tensor R 4);
  ls_calls : list attn_call
}.








(** [einsum(tokens, token_embed, 'b n d, c d -> b n c')] *)
Definition tied_logits (token_embed : tensor R 2) (tokens : tensor R 3) : tensor R 3 :=
  linear token_embed 2 tokens.

Section Network.

Variable sdpa :
  tensor R 4 -> tensor R 4 -> tensor R 4 -> option (tensor bool 4) -> bool -> R
  -> tensor R 4.

(** The body of [for attn, ff in self.layers]. *)
Definition layer_step (net : nGPT) (mask : option (tensor bool 2)) (l : layer)
  (st : loop_state) : result loop_state :=
  let attn := fst l in
  let ff := snd l in
  let value_residual :=
    if g_add_value_residual net then ls_first_values st else None in
  o <- Residual_forward 2
         (fun a x => Attention_forward sdpa a (g_dtype net) x mask
                       (Some (g_rotary_embed net)) value_residual true)
         attn (g_dtype net) (ls_tokens st) ;;
  values <- match snd o with Some v => Ok v | None => Err TypeError end ;;
  let tokens := fst o in
  let hiddens := ls_hiddens st ++ [tokens] in
  let first_values := default (ls_first_values st) values in
  o <- Residual_forward (Rest := unit) 2
         (fun f x => y <- FeedForward_forward f x ;; Ok (y, None))
         ff (g_dtype net) tokens ;;
  let tokens := fst o in
  Ok {| ls_tokens := tokens;
        ls_hiddens := hiddens ++ [tokens];
        ls_first_values := Some first_values;
        ls_calls := ls_calls st
                    ++ [{| ac_module := res_fn attn; ac_tokens := ls_tokens st;
                           ac_value_residual := value_residual;
                           ac_values := values |}] |}.

Fixpoint run_layers (net : nGPT) (mask : option (tensor bool 2)) (layers : list layer)
  (st : loop_state) : result loop_state :=
  match layers with
  | [] => Ok st
  | l :: rest =>
      st' <- layer_step net mask l st ;;
      run_layers net mask rest st'
  end.

(** [nGPT.forward], with the record of the attention calls made. *)
Definition nGPT_forward_calls (net : nGPT) (ids : list (list nat))
  (mask : option (tensor bool 2)) (return_loss return_hiddens : bool)
  : result (forward_output * list attn_call) :=
  token_embed <- NormLinear_weight (g_token_embed net) ;;
  _ <- (if return_loss
        then if g_causal net then Ok tt else Err AssertionError
        else Ok tt) ;;
  let labels := map (@tl nat) ids in
  let ids := if return_loss then map (@removelast nat) ids else ids in
  tokens <- embed token_embed ids ;;
  st <- run_layers net mask (g_layers net)
          {| ls_tokens := tokens; ls_hiddens := [tokens];
             ls_first_values := None; ls_calls := [] |} ;;
  let tokens := ls_tokens st in
  logits <- match g_to_logits net with
            | Some to_logits => NormLinear_forward to_logits 2 tokens
            | None => Ok (tied_logits token_embed tokens)
            end ;;
  let logits := mul_last 2 logits (Scale_forward (g_logit_scale net)) in
  hiddens <- (if return_hiddens then h <- stack 3 (ls_hiddens st) ;; Ok (Some h)
              else Ok None) ;;
  if return_loss then
    loss <- cross_entropy logits labels (g_ignore_index net) ;;
    match hiddens with
    | Some h => Ok (LossHiddens loss h, ls_calls st)
    | None => Ok (Loss loss, ls_calls st)
    end
  else
    match hiddens with
    | Some h => Ok (LogitsHiddens logits h, ls_calls st)
    | None => Ok (Logits logits, ls_calls st)
    end.

Definition nGPT_forward (net : nGPT) (ids : list (list nat))
  (mask : option (tensor bool 2)) (return_loss return_hiddens : bool)
  : result forward_output :=
  r <- nGPT_forward_calls net ids mask return_loss return_hiddens ;;
  Ok (fst r).

End Network.

(** A logit projection over two hyperspheres, as
    [NormLinear(2, 1, parametrize = False, groups = 2)] builds it from
    the initial weight [[1, 0]]. *)
Definition two_sphere_projection : NormLinear :=
  {| nl_dim := 2; nl_dim_out := 1; nl_linear := [[1; 0]];
     nl_dtype := float32; nl_scale := / INR 2; nl_parametrize := false;
     nl_l2norm := {| l2_dim := (-1)%Z; l2_norm_eps := 0; l2_groups := 2 |} |}.

(** ** Predicates on tensors *)

(** Every entry satisfies [P]. *)
Fixpoint tall {A : Type} (P : A -> Prop) (n : nat) : tensor A n -> Prop :=
  match n with
  | O => P
  | S k => Forall (tall P k)
  end.

(** Every vector along the last axis satisfies [P]. *)
Fixpoint all_last {A : Type} (P : list A -> Prop) (n : nat) : tensor A (S n) -> Prop :=
  match n with
  | O => P
  | S k => Forall (all_last P k)
  end.

(** No axis is empty and the last axis has length [len]. *)
Fixpoint last_len {A : Type} (len : nat) (n : nat) : tensor A (S n) -> Prop :=
  match n with
  | O => fun v => length v = len
  | S k => fun t => t <> [] /\ Forall (last_len len k) t
  end.


(** Both branches of [l2norm] divide by a function of the sum of squares. *)
Definition rescale0 (delta : R -> R) (n : nat) (t : list (tensor R n)) : list (tensor R n) :=
  map (fun x => tzip Rdiv n x (tmap delta n (sumsq0 n t))) t.

Definition hard_divisor (s : R) : R := Rmax normalize_eps (sqrt s).

Definition soft_divisor (norm_eps eps s : R) : R :=
  Rmax eps (sqrt s / clamp (1 - norm_eps) (1 + norm_eps) (sqrt s)).

(** A norm the Normalizer divides by as it is: positive and not under
    the floor of the branch taken. *)
Definition above_floor (norm_eps : R) (dt : dtype) (r : R) : Prop :=
  0 < r /\
  (norm_eps = 0 -> normalize_eps <= r) /\
  (norm_eps <> 0 -> default_eps dt * (1 - norm_eps) <= r).





(** A wrapper with one group, no tolerance and branch scale 1/2, around
    a block that negates its input. *)
Definition negating_residual : Residual unit :=
  {| res_fn := tt;
     res_branch_scale := {| sc_dim := 1; sc_scale := [1]; sc_forward_scale := 1 / 2 |};
     res_l2norm := {| l2_dim := (-1)%Z; l2_norm_eps := 0; l2_groups := 1 |} |}.

Definition negate (_ : unit) (x : tensor R 3) : result (tensor R 3 * option unit) :=
  Ok (tmap Ropp 3 x, None).

(** The same wrapper with branch scale 1/4. *)
Definition quarter_residual : Residual unit :=
  {| res_fn := tt;
     res_branch_scale := {| sc_dim := 1; sc_scale := [1]; sc_forward_scale := 1 / 4 |};
     res_l2norm := {| l2_dim := (-1)%Z; l2_norm_eps := 0; l2_groups := 1 |} |}.


Definition divisor_of (norm_eps : R) (eps : option R) (dt : dtype) : R -> R :=
  if Req_dec_T norm_eps 0 then hard_divisor
  else soft_divisor norm_eps (default eps (default_eps dt)).

(** All the tensors of a list have one shape. *)
Definition one_shape {A : Type} (n : nat) (ts : list (tensor A n)) : Prop :=
  forall a b, In a ts -> In b ts -> same_shape n a b = true.



(** ** A smallest network: every dimension 1, every weight [w] *)

Definition tiny_projection (w : tensor R 2) (norm_dim_in parametrize : bool) : NormLinear :=
  {| nl_dim := 1; nl_dim_out := 1; nl_linear := w; nl_dtype := float32;
     nl_scale := / INR 1; nl_parametrize := parametrize;
     nl_l2norm := {| l2_dim := if norm_dim_in then (-1)%Z else 0%Z;
                     l2_norm_eps := 0; l2_groups := 1 |} |}.

Definition tiny_scale : Scale :=
  {| sc_dim := 1; sc_scale := [1]; sc_forward_scale := 1 |}.

Definition tiny_l2norm : L2Norm :=
  {| l2_dim := (-1)%Z; l2_norm_eps := 0; l2_groups := 1 |}.

Definition tiny_attention (w : tensor R 2) (parametrize : bool) : Attention :=
  {| at_dim := 1; at_dim_head := 1; at_heads := 1; at_causal := false;
     at_l2norm := tiny_l2norm; at_dim_sqrt := sqrt (INR 1); at_attn_scale := sqrt (INR 1);
     at_to_q := tiny_projection w true parametrize;
     at_to_k := tiny_projection w true parametrize;
     at_to_v := tiny_projection w true parametrize;
     at_norm_qk := true; at_qk_scale := tiny_scale;
     at_to_out := tiny_projection w false parametrize |}.

Definition tiny_feedforward (w : tensor R 2) (parametrize : bool) : FeedForward :=
  {| fw_dim := 1; fw_expand_factor := 3 / 2; fw_dim_inner := 1;
     fw_to_hidden := tiny_projection w true parametrize;
     fw_to_gate := tiny_projection w true parametrize;
     fw_hidden_scale := tiny_scale; fw_gate_scale := tiny_scale;
     fw_to_out := tiny_projection w false parametrize |}.

Definition tiny_layer (w : tensor R 2) (parametrize : bool) : layer :=
  ({| res_fn := tiny_attention w parametrize; res_branch_scale := tiny_scale;
      res_l2norm := tiny_l2norm |},
   {| res_fn := tiny_feedforward w parametrize; res_branch_scale := tiny_scale;
      res_l2norm := tiny_l2norm |}).

Definition tiny_net (depth_ : nat) (w : tensor R 2) (parametrize : bool) : nGPT :=
  {| g_num_tokens := 1; g_dim := 1; g_heads := 1; g_dim_head := 1; g_depth := depth_;
     g_ff_expand_factor := 3 / 2; g_causal := false; g_add_value_residual := true;
     g_l2norm := tiny_l2norm;
     g_token_embed := tiny_projection w true parametrize;
     g_rotary_embed := fun t => t;
     g_layers := repeat (tiny_layer w parametrize) depth_;
     g_to_logits := Some (tiny_projection w true parametrize);
     g_logit_scale := tiny_scale; g_ignore_index := (-1)%Z; g_dtype := float32 |}.


(** ** Single-sphere configurations, which never raise *)

Definition single_sphere (l : L2Norm) : Prop :=
  (l2_groups l <= 1)%nat /\ (l2_dim l = (-1)%Z \/ l2_dim l = 0%Z).

Definition Attention_single_sphere (a : Attention) : Prop :=
  single_sphere (at_l2norm a) /\
  single_sphere (nl_l2norm (at_to_q a)) /\ single_sphere (nl_l2norm (at_to_k a)) /\
  single_sphere (nl_l2norm (at_to_v a)) /\ single_sphere (nl_l2norm (at_to_out a)).

Definition FeedForward_single_sphere (f : FeedForward) : Prop :=
  single_sphere (nl_l2norm (fw_to_hidden f)) /\
  single_sphere (nl_l2norm (fw_to_gate f)) /\
  single_sphere (nl_l2norm (fw_to_out f)).

Definition layer_single_sphere (l : layer) : Prop :=
  single_sphere (res_l2norm (fst l)) /\ Attention_single_sphere (res_fn (fst l)) /\
  single_sphere (res_l2norm (snd l)) /\ FeedForward_single_sphere (res_fn (snd l)).

(** ** The value residual, call by call *)

(** The values of a call are the module's own value projection of the
    tokens it was given, split into heads. *)
Definition call_is_first (c : attn_call) : Prop :=
  ac_value_residual c = None /\
  exists v,
    NormLinear_forward (at_to_v (ac_module c)) 2 (ac_tokens c) = Ok v /\
    ac_values c = split_heads (at_heads (ac_module c)) v.


Definition nGPT_single_sphere (net : nGPT) : Prop :=
  single_sphere (nl_l2norm (g_token_embed net)) /\
  Forall layer_single_sphere (g_layers net) /\
  match g_to_logits net with
  | Some m => single_sphere (nl_l2norm m)
  | None => True
  end.

(** A kernel that hands the values back. *)
Definition values_kernel (q k v : tensor R 4) (mask : option (tensor bool 4))
  (is_causal : bool) (scale : R) : tensor R 4 := v.

(** ** [Attention.forward] in two halves, around the kernel call *)

(** Up to the kernel: the scaled queries, the keys and the values. *)
Definition attention_qkv (a : Attention) (dt : dtype) (x : tensor R 3)
  (rotary_embed : option (tensor R 4 -> tensor R 4))
  (value_residual : option (tensor R 4))
  : result (tensor R 4 * tensor R 4 * tensor R 4) :=
  q <- NormLinear_forward (at_to_q a) 2 x ;;
  k <- NormLinear_forward (at_to_k a) 2 x ;;
  v <- NormLinear_forward (at_to_v a) 2 x ;;
  let q := split_heads (at_heads a) q in
  let k := split_heads (at_heads a) k in
  let v := split_heads (at_heads a) v in
  let v := match value_residual with
           | Some vr => tmap (Rmult 0.5) 4 (tzip Rplus 4 v vr)
           | None => v
           end in
  let q := match rotary_embed with Some rot => rot q | None => q end in
  let k := match rotary_embed with Some rot => rot k | None => k end in
  qk <- (if at_norm_qk a then
           q' <- L2Norm_forward (at_l2norm a) dt 3 q ;;
           k' <- L2Norm_forward (at_l2norm a) dt 3 k ;;
           Ok (q', k')
         else Ok (q, k)) ;;
  Ok (scale_queries (at_heads a) (Scale_forward (at_qk_scale a)) (fst qk), snd qk, v).




(** ** What the core asks of the attention kernel *)

Definition finite (x : xreal) : Prop := x <> NaN.










(** One projection under either enforcement policy. *)
Definition with_policy (m : NormLinear) (parametrize : bool) : NormLinear :=
  {| nl_dim := nl_dim m; nl_dim_out := nl_dim_out m; nl_linear := nl_linear m;
     nl_dtype := nl_dtype m; nl_scale := nl_scale m;
     nl_parametrize := parametrize; nl_l2norm := nl_l2norm m |}.

(** ** Weights the Normalizer can bring onto the sphere *)

(** Along the normalised axis of a weight matrix, every group of every
    vector has a norm above the floor. *)
Definition weight_above_floor (l : L2Norm) (dt : dtype) (w : tensor R 2) : Prop :=
  let ok := fun v => Forall (fun c => above_floor (l2_norm_eps l) dt (vnorm c))
                            (groups_of (l2_groups l) v) in
  if (l2_dim l =? 0)%Z then Forall ok (transpose w) else Forall ok w.

(** ** Configurations [nGPT.__init__] accepts *)

(** Every per-layer value of a hyperparameter satisfies [P], and a
    tuple has one value per layer. *)
Definition hparam_all (P : option R -> Prop) (n : nat) (h : hparam) : Prop :=
  match h with
  | HNone => P None
  | HFloat x => P (Some x)
  | HTuple l => length l = n /\ Forall P l
  end.

Definition any_value (o : option R) : Prop := True.

(** A float was given. *)
Definition given (o : option R) : Prop := o <> None.

(** A divisor: a float other than zero. *)
Definition given_nonzero (o : option R) : Prop := exists x, o = Some x /\ x <> 0.

(** A divisor, or [None] for the default. *)
Definition nonzero_or_default (o : option R) : Prop := o <> Some 0.

(** What the ten per-layer hyperparameters have to satisfy, in the
    order of [scale_hparams]. *)
Definition hparam_conditions : list (option R -> Prop) :=
  [any_value; nonzero_or_default; any_value; nonzero_or_default;
   given; nonzero_or_default; given; given_nonzero; given; given_nonzero].

(** A configuration on one hypersphere, its sizes positive and none of
    its divisors zero. *)
Definition constructible (c : nGPT_config) : Prop :=
  depth c <> 0%nat /\ dim c <> 0%nat /\ num_hyperspheres c = 1%nat /\
  s_logit_scale c <> Some 0 /\
  Forall2 (fun P h => hparam_all P (depth c) h) hparam_conditions (scale_hparams c) /\
  num_tokens c <> 0%nat /\ dim_head c <> 0%nat /\ heads c <> 0%nat /\
  0 <= ff_expand_factor c.

(** [nGPT.__init__] from its first line.  [RotaryEmbedding] is the
    constructor of the rotary embedding library, which may raise; the
    code calls it on [dim_head] once the embedding table is built.
    What comes before that call is pure, so that [nGPT_init] runs it
    again to the same effect. *)
Definition nGPT_new (RotaryEmbedding : nat -> result (tensor R 4 -> tensor R 4))
  (c : nGPT_config) (dt : dtype) (draw : nat -> nat -> tensor R 2) : result nGPT :=
  _ <- (if (depth c =? 0)%nat then Err ZeroDivisionError else Ok tt) ;;
  _ <- NormLinear_init (dim c) (num_tokens c) true (negb (manual_norm_weights c))
         (norm_eps c) (num_hyperspheres c) dt (draw 0%nat 0%nat) ;;
  rotary_embed <- RotaryEmbedding (dim_head c) ;;
  nGPT_init c dt rotary_embed draw.

(** A stand-in for the library's constructor: it raises on [dim = 2],
    where the library divides by [dim - 2]. *)
Definition rotary_stand_in (dim : nat) : result (tensor R 4 -> tensor R 4) :=
  if (dim =? 2)%nat then Err ZeroDivisionError else Ok (fun t => t).

(** The normaliser every [Residual] of the network is built with. *)
Definition residual_l2norm : L2Norm :=
  {| l2_dim := (-1)%Z; l2_norm_eps := 0; l2_groups := 1 |}.

(** The configuration [nGPT(num_tokens = 1, dim = 1, depth = 2,
    dim_head = 1, heads = 1)] with [norm_eps = 0.1]. *)
Definition small_config : nGPT_config :=
  {| num_tokens := 1; dim := 1; depth := 2; dim_head := 1; heads := 1;
     attn_norm_qk := true; ff_expand_factor := 4; ce_ignore_index := (-1)%Z;
     manual_norm_weights := false; tied_embedding := false; num_hyperspheres := 1;
     causal := true; add_value_residual := true;
     alpha_init := None; s_logit_init := 1; s_logit_scale := None;
     alpha_attn_init := HNone; alpha_attn_scale := HNone;
     alpha_ff_init := HTuple [Some (1 / 4); None]; alpha_ff_scale := HNone;
     s_qk_init := HFloat 1; s_qk_scale := HNone;
     s_ff_hidden_init := HFloat 1; s_ff_hidden_scale := HFloat 1;
     s_ff_gate_init := HFloat 1; s_ff_gate_scale := HFloat 1;
     norm_eps := 1 / 10 |}.

(** ** What [nGPT.forward] hands back *)

Definition hiddens_of (o : forward_output) : option (tensor R 4) :=
  match o with
  | LogitsHiddens _ h | LossHiddens _ h => Some h
  | Logits _ | Loss _ => None
  end.

(** The smallest network without the value residual. *)
Definition plain_net (depth_ : nat) : nGPT :=
  {| g_num_tokens := 1; g_dim := 1; g_heads := 1; g_dim_head := 1; g_depth := depth_;
     g_ff_expand_factor := 3 / 2; g_causal := false; g_add_value_residual := false;
     g_l2norm := tiny_l2norm;
     g_token_embed := tiny_projection [[1]] true false;
     g_rotary_embed := fun t => t;
     g_layers := repeat (tiny_layer [[1]] false) depth_;
     g_to_logits := Some (tiny_projection [[1]] true false);
     g_logit_scale := tiny_scale; g_ignore_index := (-1)%Z; g_dtype := float32 |}.

(** A tensor of one batch element, one position and one channel. *)
Definition unit_shaped (t : tensor R 3) : Prop := exists x, t = [[[x]]].
(** * Properties *)

(** ** Real-number facts about norms *)

Lemma sumsq_nonneg (v : list R) : 0 <= fold_right Rplus 0 (map sq v).
Proof.
  induction v as [|x v IH]; simpl; [lra|].
  unfold sq at 1. nra.
Qed.

Lemma vnorm_nonneg (v : list R) : 0 <= vnorm v.
Proof. apply sqrt_pos. Qed.

Lemma sumsq_div (c : R) (v : list R) :
  c <> 0 ->
  fold_right Rplus 0 (map sq (map (fun x => x / c) v))
  = fold_right Rplus 0 (map sq v) / (c * c).
Proof.
  intros Hc. induction v as [|x v IH]; simpl.
  - unfold Rdiv. ring.
  - rewrite IH. unfold sq. field. exact Hc.
Qed.

Lemma vnorm_div (c : R) (v : list R) :
  0 < c -> vnorm (map (fun x => x / c) v) = vnorm v / c.
Proof.
  intros Hc. unfold vnorm.
  rewrite sumsq_div by lra.
  rewrite sqrt_div_alt by nra.
  rewrite sqrt_square by lra. reflexivity.
Qed.

Lemma vnorm_singleton (x : R) : vnorm [x] = Rabs x.
Proof.
  unfold vnorm. simpl. rewrite Rplus_0_r. unfold sq.
  replace (x * x) with (Rsqr x) by reflexivity.
  apply sqrt_Rsqr_abs.
Qed.

Lemma map_div_one (v : list R) : map (fun x => x / 1) v = v.
Proof.
  induction v as [|x v IH]; simpl; [reflexivity|].
  rewrite IH. f_equal. field.
Qed.


(** ** [l2norm] on vectors (rank 1) *)

Lemma sumsq0_vec (v : list R) : sumsq0 0 v = fold_right Rplus 0 (map sq v).
Proof.
  induction v as [|x v IH]; [reflexivity|].
  destruct v as [|y v].
  - simpl. lra.
  - change (sumsq0 0 (x :: y :: v)) with (sq x + sumsq0 0 (y :: v)).
    rewrite IH. reflexivity.
Qed.

Lemma norm0_vec (v : list R) : norm0 0 v = vnorm v.
Proof. unfold norm0, vnorm. simpl. rewrite sumsq0_vec. reflexivity. Qed.

Lemma normalize0_vec (v : list R) : normalize0 0 v = hard_vec v.
Proof. unfold normalize0, hard_vec. simpl. rewrite norm0_vec. reflexivity. Qed.

Lemma soft_normalize0_vec (norm_eps eps : R) (v : list R) :
  soft_normalize0 norm_eps eps 0 v = soft_vec norm_eps eps v.
Proof. unfold soft_normalize0, soft_vec. simpl. rewrite norm0_vec. reflexivity. Qed.

Lemma l2norm_core_vec norm_eps eps dt (v : list R) :
  l2norm_core norm_eps eps dt 0 0 v = l2norm_vec norm_eps eps dt v.
Proof.
  unfold l2norm_core, l2norm_vec.
  destruct (Req_dec_T norm_eps 0); simpl.
  - apply normalize0_vec.
  - apply soft_normalize0_vec.
Qed.

Lemma l2norm_rank1_single norm_eps eps dt (v : list R) :
  l2norm 0 v (-1) norm_eps eps 1 dt = Ok (l2norm_vec norm_eps eps dt v).
Proof.
  unfold l2norm. simpl. rewrite l2norm_core_vec. reflexivity.
Qed.

Lemma normalize_eps_pos : 0 < normalize_eps < 1.
Proof. unfold normalize_eps. lra. Qed.

Lemma default_eps_pos (dt : dtype) : 0 < default_eps dt <= 1.
Proof. unfold default_eps. destruct (dtype_eqb dt float16); lra. Qed.

Lemma hard_vec_norm (v : list R) :
  normalize_eps <= vnorm v -> vnorm (hard_vec v) = 1.
Proof.
  intros H. pose proof normalize_eps_pos as He.
  unfold hard_vec. rewrite Rmax_right by exact H.
  rewrite vnorm_div by lra. field. lra.
Qed.

Lemma hard_vec_unit (v : list R) : vnorm v = 1 -> hard_vec v = v.
Proof.
  intros H. pose proof normalize_eps_pos as He.
  unfold hard_vec. rewrite H. rewrite Rmax_right by lra. apply map_div_one.
Qed.

Lemma hard_vec_idem (v : list R) :
  normalize_eps <= vnorm v -> hard_vec (hard_vec v) = hard_vec v.
Proof. intros H. apply hard_vec_unit, hard_vec_norm, H. Qed.

Lemma clamp_band (lo hi x : R) : lo <= hi -> lo <= clamp lo hi x <= hi.
Proof.
  intros H. unfold clamp, Rmin, Rmax.
  destruct (Rle_dec x lo); destruct (Rle_dec _ hi); lra.
Qed.

Lemma clamp_inside (lo hi x : R) : lo <= x <= hi -> clamp lo hi x = x.
Proof.
  intros H. unfold clamp, Rmin, Rmax.
  destruct (Rle_dec x lo); destruct (Rle_dec _ hi); lra.
Qed.

Lemma clamp_pos (lo hi x : R) : 0 < x -> 0 < hi -> 0 < clamp lo hi x.
Proof.
  intros Hx Hhi. unfold clamp, Rmin, Rmax.
  destruct (Rle_dec x lo); destruct (Rle_dec _ hi); lra.
Qed.

(** The divisor [norm / target_norm] stays above the floor [eps]
    unless the vector is tiny. *)
Lemma soft_divisor_floor (tol eps x : R) :
  0 <= tol -> 0 < eps <= 1 -> 0 < x -> eps * (1 - tol) <= x ->
  eps <= x / clamp (1 - tol) (1 + tol) x.
Proof.
  intros Htol Heps Hx Hfloor.
  assert (Ht : 0 < clamp (1 - tol) (1 + tol) x) by (apply clamp_pos; lra).
  apply Rmult_le_reg_r with (r := clamp (1 - tol) (1 + tol) x); [exact Ht|].
  unfold Rdiv. rewrite Rmult_assoc, Rinv_l by lra. rewrite Rmult_1_r.
  revert Ht. unfold clamp, Rmin, Rmax.
  destruct (Rle_dec x (1 - tol)); destruct (Rle_dec _ (1 + tol)); intros; nra.
Qed.

Lemma soft_vec_norm (tol eps : R) (v : list R) :
  0 <= tol -> 0 < eps <= 1 -> 0 < vnorm v -> eps * (1 - tol) <= vnorm v ->
  vnorm (soft_vec tol eps v) = clamp (1 - tol) (1 + tol) (vnorm v).
Proof.
  intros Htol Heps Hx Hfloor.
  pose proof (soft_divisor_floor tol eps (vnorm v) Htol Heps Hx Hfloor) as Hd.
  assert (Ht : 0 < clamp (1 - tol) (1 + tol) (vnorm v)) by (apply clamp_pos; lra).
  unfold soft_vec. cbv zeta. rewrite Rmax_right by exact Hd.
  rewrite vnorm_div by lra. field. lra.
Qed.

Lemma soft_vec_inside (tol eps : R) (v : list R) :
  0 < eps <= 1 -> 0 < vnorm v -> 1 - tol <= vnorm v <= 1 + tol ->
  soft_vec tol eps v = v.
Proof.
  intros Heps Hx Hin. unfold soft_vec. cbv zeta.
  rewrite clamp_inside by exact Hin.
  replace (vnorm v / vnorm v) with 1 by (field; lra).
  rewrite Rmax_right by lra. apply map_div_one.
Qed.

Lemma soft_vec_idem (tol eps : R) (v : list R) :
  0 <= tol -> 0 < eps <= 1 -> 0 < vnorm v -> eps * (1 - tol) <= vnorm v ->
  soft_vec tol eps (soft_vec tol eps v) = soft_vec tol eps v.
Proof.
  intros Htol Heps Hx Hfloor.
  pose proof (soft_vec_norm tol eps v Htol Heps Hx Hfloor) as Hn.
  assert (Ht : 0 < clamp (1 - tol) (1 + tol) (vnorm v)) by (apply clamp_pos; lra).
  apply soft_vec_inside; [exact Heps | rewrite Hn; exact Ht |].
  rewrite Hn. apply clamp_band. lra.
Qed.

(** ** Evaluating tensor programs *)

Lemma resolve_dim_last (n : nat) : resolve_dim (S n) (-1) = Ok n.
Proof.
  unfold resolve_dim.
  replace ((0 <=? -1)%Z) with false by reflexivity. cbn [andb].
  replace (- Z.of_nat (S n) <=? -1)%Z with true by (symmetry; apply Z.leb_le; lia).
  replace (-1 <? 0)%Z with true by reflexivity. cbn [andb].
  f_equal. lia.
Qed.

Lemma resolve_dim_first (n : nat) : resolve_dim (S n) 0 = Ok 0%nat.
Proof.
  unfold resolve_dim.
  replace ((0 <=? 0)%Z) with true by reflexivity.
  replace (0 <? Z.of_nat (S n))%Z with true by (symmetry; apply Z.ltb_lt; lia).
  reflexivity.
Qed.

Ltac teval :=
  cbv beta iota zeta delta
    [bind stack chunk chunk_list split_list firstn skipn length repeat
     Nat.add Nat.sub Nat.div Nat.divmod fst snd Nat.eqb Nat.ltb Nat.leb
     same_shape forallb map2 map andb cat concat app transpose fold_right
     along tmap tzip sumsq0 tzeros on_last sequence
     dot linear s_add s_mul s_zero Scalar_R Scalar_xreal xadd xmul
     lerp lerp_vec zip_last combine Scale_forward mul_last groups_of
     sc_dim sc_scale sc_forward_scale
     nl_dim nl_dim_out nl_linear nl_dtype nl_scale nl_parametrize nl_l2norm
     l2_dim l2_norm_eps l2_groups res_fn res_branch_scale res_l2norm].

Ltac tensor_eq tac :=
  repeat match goal with
         | |- Ok _ = Ok _ => f_equal
         | |- cons _ _ = cons _ _ => apply f_equal2
         | |- nil = nil => reflexivity
         | |- @eq _ ?a ?b => change (@eq R a b); solve [tac]
         end.

Ltac hard_branch :=
  unfold l2norm_core; destruct (Req_dec_T 0 0) as [_|?]; [|lra].

Lemma sqrt_3_4 : sqrt (sq 3 + sq 4) = 5.
Proof. apply sqrt_lem_1; unfold sq; lra. Qed.

Lemma sqrt_2_pos : 1 < sqrt (sq 1 + sq 1).
Proof.
  rewrite <- sqrt_1 at 1. apply sqrt_lt_1_alt. unfold sq. lra.
Qed.

(** ** Construction-time checks *)

Lemma cast_tuple_wrong_length (l : list (option R)) (n : nat) :
  length l <> n -> cast_tuple (HTuple l) n = Err AssertionError.
Proof.
  intros H. unfold cast_tuple.
  destruct (Nat.eqb_spec (length l) n); [contradiction|reflexivity].
Qed.

Lemma cast_tuple_error (h : hparam) (n : nat) (e : error) :
  cast_tuple h n = Err e -> e = AssertionError.
Proof.
  unfold cast_tuple. destruct (_ =? _)%nat; [discriminate|].
  intros E. injection E as <-. reflexivity.
Qed.

Lemma cast_tuple_ok_length (h : hparam) (n : nat) (out : list (option R)) :
  cast_tuple h n = Ok out -> length out = n.
Proof.
  unfold cast_tuple.
  destruct (Nat.eqb_spec (length match h with
                                 | HTuple l => l
                                 | HNone => repeat None n
                                 | HFloat x => repeat (Some x) n
                                 end) n) as [E|E]; [|discriminate].
  intros H. injection H as <-. exact E.
Qed.

Lemma sequence_cast_tuple_error (hs : list hparam) (n : nat) (l : list (option R)) :
  In (HTuple l) hs -> length l <> n ->
  sequence (map (fun h => cast_tuple h n) hs) = Err AssertionError.
Proof.
  intros Hin Hlen. induction hs as [|h hs IH]; [destruct Hin|].
  simpl. destruct (cast_tuple h n) as [out|e] eqn:E.
  - destruct Hin as [->|Hin].
    + rewrite cast_tuple_wrong_length in E by exact Hlen. discriminate.
    + simpl. rewrite (IH Hin). reflexivity.
  - simpl. f_equal. eapply cast_tuple_error, E.
Qed.

(** ** Lists: pieces, chunks and transposition *)

Lemma map2_length {A B C : Type} (f : A -> B -> C) (a : list A) (b : list B) :
  length (map2 f a b) = Nat.min (length a) (length b).
Proof.
  revert b. induction a as [|x a IH]; intros [|y b]; simpl; auto.
Qed.

Lemma map2_map {A B C A' B' : Type} (f : A' -> B' -> C) (g : A -> A') (h : B -> B')
  (a : list A) (b : list B) :
  map2 f (map g a) (map h b) = map2 (fun x y => f (g x) (h y)) a b.
Proof.
  revert b. induction a as [|x a IH]; intros [|y b]; simpl; auto.
  f_equal. apply IH.
Qed.

Lemma map_map2 {A B C D : Type} (g : C -> D) (f : A -> B -> C) (a : list A) (b : list B) :
  map g (map2 f a b) = map2 (fun x y => g (f x y)) a b.
Proof.
  revert b. induction a as [|x a IH]; intros [|y b]; simpl; auto.
  f_equal. apply IH.
Qed.

Lemma map2_ext {A B C : Type} (f g : A -> B -> C) (a : list A) (b : list B) :
  (forall x y, In x a -> In y b -> f x y = g x y) -> map2 f a b = map2 g a b.
Proof.
  revert b. induction a as [|x a IH]; intros [|y b] H; simpl; auto.
  f_equal; [apply H; simpl; auto|]. apply IH. intros; apply H; simpl; auto.
Qed.

Lemma in_map2 {A B C : Type} (f : A -> B -> C) (a : list A) (b : list B) (c : C) :
  In c (map2 f a b) -> exists x y, c = f x y /\ In x a /\ In y b.
Proof.
  revert b. induction a as [|x a IH]; intros [|y b]; simpl; try tauto.
  intros [<-|H].
  - exists x, y. auto.
  - destruct (IH b H) as (x' & y' & E & Hx & Hy). exists x', y'. auto.
Qed.

(** *** [split_list] *)

Lemma firstn_app_exact {A : Type} (c l : list A) (s : nat) :
  length c = s -> firstn s (c ++ l) = c.
Proof.
  intros <-. rewrite firstn_app, Nat.sub_diag, firstn_all. simpl. apply app_nil_r.
Qed.

Lemma skipn_app_exact {A : Type} (c l : list A) (s : nat) :
  length c = s -> skipn s (c ++ l) = l.
Proof.
  intros <-. rewrite skipn_app, Nat.sub_diag, skipn_all. reflexivity.
Qed.

Lemma split_list_concat {A : Type} (s : nat) (cs : list (list A)) (fuel : nat) :
  (0 < s)%nat -> Forall (fun c => length c = s) cs -> (length cs <= fuel)%nat ->
  split_list fuel s (concat cs) = cs.
Proof.
  intros Hs Hall. revert fuel. induction Hall as [|c cs Hc Hall IH]; intros fuel Hf.
  - destruct fuel; reflexivity.
  - destruct fuel as [|fuel]; [simpl in Hf; lia|].
    simpl. destruct (c ++ concat cs) as [|a l] eqn:E.
    + destruct c; [simpl in Hc; lia|discriminate].
    + rewrite <- E. rewrite firstn_app_exact, skipn_app_exact by exact Hc.
      f_equal. apply IH. simpl in Hf. lia.
Qed.

Lemma split_list_pieces {A : Type} (s k : nat) (l : list A) (fuel : nat) :
  (0 < s)%nat -> length l = (k * s)%nat -> (length l <= fuel)%nat ->
  Forall (fun c => length c = s) (split_list fuel s l) /\
  length (split_list fuel s l) = k /\
  concat (split_list fuel s l) = l.
Proof.
  intros Hs. revert l fuel. induction k as [|k IH]; intros l fuel Hl Hf.
  - destruct l; [|simpl in Hl; lia]. destruct fuel; simpl; auto.
  - rewrite Nat.mul_succ_l in Hl.
    destruct fuel as [|fuel]; [lia|].
    destruct l as [|a l]; [simpl in Hl; lia|].
    cbn [split_list].
    assert (Hlen : length (skipn s (a :: l)) = (k * s)%nat).
    { rewrite length_skipn. lia. }
    destruct (IH (skipn s (a :: l)) fuel Hlen) as (H1 & H2 & H3).
    { rewrite Hlen. lia. }
    repeat split.
    + constructor; [|exact H1]. rewrite length_firstn. lia.
    + cbn [length]. rewrite H2. reflexivity.
    + cbn [concat]. rewrite H3. apply firstn_skipn.
Qed.

Lemma split_list_length_only {A B : Type} (s fuel : nat) (l : list A) (l' : list B) :
  length l = length l' ->
  length (split_list fuel s l) = length (split_list fuel s l').
Proof.
  revert l l'. induction fuel as [|fuel IH]; intros l l' H; [reflexivity|].
  destruct l, l'; try discriminate; [reflexivity|].
  cbn [split_list length]. f_equal. apply IH.
  rewrite !length_skipn. rewrite H. reflexivity.
Qed.

(** *** [chunk_list] *)

Lemma chunk_size_pos (g L : nat) : (0 < g)%nat -> (0 < L)%nat -> (0 < chunk_size g L)%nat.
Proof.
  intros Hg HL. unfold chunk_size.
  apply Nat.div_str_pos. lia.
Qed.

Lemma chunk_size_zero (g : nat) : chunk_size g 0 = 0%nat.
Proof.
  unfold chunk_size. destruct g as [|g]; [reflexivity|].
  apply Nat.div_small. lia.
Qed.

Lemma chunk_list_length_only {A B : Type} (g : nat) (l : list A) (l' : list B) :
  length l = length l' ->
  length (chunk_list g l) = length (chunk_list g l').
Proof.
  intros H. unfold chunk_list. rewrite <- H.
  destruct (length l =? 0)%nat.
  - rewrite !repeat_length. reflexivity.
  - apply split_list_length_only, H.
Qed.

Lemma chunk_list_even {A : Type} (g : nat) (v : list A) :
  (0 < g)%nat -> even_chunks g (length v) ->
  Forall (fun c => length c = chunk_size g (length v)) (chunk_list g v) /\
  concat (chunk_list g v) = v /\
  chunk_list g v <> [].
Proof.
  intros Hg [k Hk]. unfold chunk_list. fold (chunk_size g (length v)).
  destruct (Nat.eqb_spec (length v) 0) as [E|E].
  - rewrite E, chunk_size_zero. destruct v; [|discriminate]. repeat split.
    + apply Forall_forall. intros c Hc. apply repeat_spec in Hc. subst. reflexivity.
    + clear. induction g; simpl; auto.
    + destruct g; [lia|discriminate].
  - assert (Hs : (0 < chunk_size g (length v))%nat) by (apply chunk_size_pos; lia).
    destruct (split_list_pieces (chunk_size g (length v)) k v (length v) Hs Hk (le_n _))
      as (H1 & H2 & H3).
    repeat split; auto.
    intros Hnil. rewrite Hnil in H3. simpl in H3. subst v. simpl in E. lia.
Qed.

Lemma chunk_list_concat_back {A : Type} (g : nat) (v : list A) (f : list A -> list A) :
  (0 < g)%nat -> even_chunks g (length v) ->
  (forall c, In c (chunk_list g v) -> length (f c) = length c) ->
  chunk_list g (concat (map f (chunk_list g v))) = map f (chunk_list g v).
Proof.
  intros Hg Hev Hf.
  destruct (chunk_list_even g v Hg Hev) as (H1 & H2 & H3).
  rewrite Forall_forall in H1.
  assert (Hall : Forall (fun c => length c = chunk_size g (length v))
                        (map f (chunk_list g v))).
  { apply Forall_forall. intros c Hc. apply in_map_iff in Hc as (c' & <- & Hc').
    rewrite Hf by exact Hc'. apply H1, Hc'. }
  assert (Hlen : length (concat (map f (chunk_list g v))) = length v).
  { rewrite <- H2 at 2. revert Hf. clear.
    induction (chunk_list g v) as [|c cs IH]; intros Hf; [reflexivity|].
    simpl. rewrite !length_app, IH, Hf; simpl; auto. intros; apply Hf; simpl; auto. }
  unfold chunk_list at 1. rewrite Hlen. fold (chunk_size g (length v)).
  destruct (Nat.eqb_spec (length v) 0) as [E|E].
  - destruct v; [|discriminate]. revert Hf. unfold chunk_list. simpl.
    clear. induction g; simpl; intros Hf; [reflexivity|]. f_equal.
    + specialize (Hf [] (or_introl eq_refl)). destruct (f []); [reflexivity|discriminate].
    + apply IHg. intros; apply Hf; auto.
  - assert (Hs : (0 < chunk_size g (length v))%nat) by (apply chunk_size_pos; lia).
    apply split_list_concat; [exact Hs|exact Hall|].
    rewrite <- Hlen. revert Hall Hs. clear.
    generalize (chunk_size g (length v)). intros s.
    induction (map f (chunk_list g v)) as [|c cs IH]; intros Hall Hs; [simpl; lia|].
    inversion Hall; subst. simpl. rewrite length_app.
    specialize (IH H2 Hs). lia.
Qed.

(** *** [transpose] *)

Lemma transpose_unfold {A : Type} (m : nat) (rows : list (list A)) :
  rows <> [] -> Forall (fun r => length r = m) rows ->
  transpose rows = transpose_from m rows.
Proof.
  intros Hne Hall. destruct rows as [|r rows]; [contradiction|].
  unfold transpose, transpose_from. inversion Hall; subst. reflexivity.
Qed.

Lemma transpose_from_length {A : Type} (m : nat) (rows : list (list A)) :
  Forall (fun r => length r = m) rows -> length (transpose_from m rows) = m.
Proof.
  unfold transpose_from. induction 1 as [|r rows Hr Hall IH]; simpl.
  - apply repeat_length.
  - rewrite map2_length, IH, Hr. apply Nat.min_id.
Qed.

Lemma transpose_from_rows {A : Type} (m : nat) (rows : list (list A)) :
  Forall (fun r => length r = m) rows ->
  Forall (fun c => length c = length rows) (transpose_from m rows).
Proof.
  unfold transpose_from. induction 1 as [|r rows Hr Hall IH]; simpl.
  - apply Forall_forall. intros c Hc. apply repeat_spec in Hc. subst. reflexivity.
  - apply Forall_forall. intros c Hc.
    apply in_map2 in Hc as (x & y & -> & _ & Hy).
    rewrite Forall_forall in IH. simpl. f_equal. apply IH, Hy.
Qed.

Lemma transpose_from_map {A B : Type} (f : A -> B) (m : nat) (rows : list (list A)) :
  transpose_from m (map (map f) rows) = map (map f) (transpose_from m rows).
Proof.
  unfold transpose_from. induction rows as [|r rows IH]; simpl.
  - induction m; simpl; congruence.
  - rewrite IH. rewrite map_map2.
    rewrite (map2_map cons (f) (map f)). reflexivity.
Qed.

Lemma transpose_map {A B : Type} (f : A -> B) (rows : list (list A)) :
  transpose (map (map f) rows) = map (map f) (transpose rows).
Proof.
  destruct rows as [|r rows]; [reflexivity|].
  unfold transpose. cbn [map]. rewrite length_map.
  apply (transpose_from_map f (length r) (r :: rows)).
Qed.

Lemma transpose_from_cons_column {A : Type} (k : nat) (r : list A) (X : list (list A)) :
  length r = length X -> r <> [] -> Forall (fun x => length x = k) X ->
  transpose_from (S k) (map2 cons r X) = r :: transpose_from k X.
Proof.
  revert X. induction r as [|a r IH]; intros X Hlen Hne Hall; [contradiction|].
  destruct X as [|x X]; [discriminate|].
  inversion Hall as [|? ? Hx Hall']; subst.
  destruct r as [|b r].
  - destruct X; [|discriminate]. unfold transpose_from. simpl. reflexivity.
  - assert (E := IH X). simpl in Hlen.
    unfold transpose_from in *.
    change (map2 cons (a :: b :: r) (x :: X)) with ((a :: x) :: map2 cons (b :: r) X).
    cbn [fold_right].
    rewrite E; [|simpl; lia|discriminate|exact Hall']. reflexivity.
Qed.

Lemma transpose_from_involutive {A : Type} (m : nat) (rows : list (list A)) :
  (0 < m)%nat -> rows <> [] -> Forall (fun r => length r = m) rows ->
  transpose_from (length rows) (transpose_from m rows) = rows.
Proof.
  intros Hm Hne Hall. induction Hall as [|r rows Hr Hall IH]; [contradiction|].
  destruct rows as [|r' rows].
  - change (transpose_from m [r]) with (map2 cons r (repeat (@nil A) m)).
    cbn [length].
    rewrite transpose_from_cons_column.
    + f_equal. unfold transpose_from. destruct m; [lia|]. reflexivity.
    + rewrite repeat_length. exact Hr.
    + destruct r; [simpl in Hr; lia|discriminate].
    + apply Forall_forall. intros c Hc. apply repeat_spec in Hc. subst. reflexivity.
  - change (transpose_from m (r :: r' :: rows))
      with (map2 cons r (transpose_from m (r' :: rows))).
    change (length (r :: r' :: rows)) with (S (length (r' :: rows))).
    rewrite transpose_from_cons_column.
    + f_equal. apply IH. discriminate.
    + rewrite transpose_from_length by exact Hall. exact Hr.
    + destruct r; [simpl in Hr; lia|discriminate].
    + apply transpose_from_rows, Hall.
Qed.

Lemma transpose_involutive {A : Type} (m : nat) (rows : list (list A)) :
  (0 < m)%nat -> rows <> [] -> Forall (fun r => length r = m) rows ->
  transpose (transpose rows) = rows.
Proof.
  intros Hm Hne Hall.
  rewrite (transpose_unfold m rows Hne Hall).
  rewrite (transpose_unfold (length rows) (transpose_from m rows)).
  - apply transpose_from_involutive; assumption.
  - intros E. apply (f_equal (@length _)) in E.
    rewrite transpose_from_length in E by exact Hall. simpl in E. lia.
  - apply transpose_from_rows, Hall.
Qed.

(** ** Pointwise algebra of [tmap] and [tzip] *)

Section ListPointwise.

Context {A B C D E : Type}.

Lemma map2_map_same (f : B -> C -> D) (g : A -> B) (h : A -> C) (X : list A) :
  map2 f (map g X) (map h X) = map (fun x => f (g x) (h x)) X.
Proof. induction X as [|x X IH]; simpl; congruence. Qed.



Lemma map2_ext_r (P : B -> Prop) (f g : A -> B -> C) (X : list A) (S : list B) :
  Forall P S -> (forall a s, P s -> f a s = g a s) -> map2 f X S = map2 g X S.
Proof.
  intros HP E0. revert X. induction HP as [|s S Hs HS IH]; intros [|x X]; simpl; auto.
  f_equal; auto.
Qed.

Lemma map_ext_Forall (P : A -> Prop) (f g : A -> B) (X : list A) :
  Forall P X -> (forall x, P x -> f x = g x) -> map f X = map g X.
Proof.
  intros HP E0. induction HP; simpl; f_equal; auto.
Qed.


End ListPointwise.


Section TensorPointwise.

Lemma tmap_tmap {A B C : Type} (f : B -> C) (g : A -> B) (n : nat) (X : tensor A n) :
  tmap f n (tmap g n X) = tmap (fun x => f (g x)) n X.
Proof.
  revert X. induction n as [|n IH]; intros X; simpl; [reflexivity|].
  rewrite map_map. apply map_ext. exact IH.
Qed.

Lemma tzip_tmap_same {A B C D : Type} (f : B -> C -> D) (g : A -> B) (h : A -> C)
  (n : nat) (X : tensor A n) :
  tzip f n (tmap g n X) (tmap h n X) = tmap (fun x => f (g x) (h x)) n X.
Proof.
  revert X. induction n as [|n IH]; intros X; simpl; [reflexivity|].
  rewrite map2_map_same. apply map_ext. exact IH.
Qed.





Lemma tmap_ext_tall {A B : Type} (P : A -> Prop) (f g : A -> B)
  (n : nat) (X : tensor A n) :
  tall P n X -> (forall x, P x -> f x = g x) -> tmap f n X = tmap g n X.
Proof.
  intros HP E0. revert X HP. induction n as [|n IH]; intros X HP; simpl in *; [auto|].
  apply (map_ext_Forall (tall P n)); auto.
Qed.

Lemma tzip_ext_r {A B C : Type} (P : B -> Prop) (f g : A -> B -> C)
  (n : nat) (X : tensor A n) (S : tensor B n) :
  tall P n S -> (forall a s, P s -> f a s = g a s) -> tzip f n X S = tzip g n X S.
Proof.
  intros HP E0. revert X S HP. induction n as [|n IH]; intros X S HP; simpl in *; [auto|].
  apply (map2_ext_r (tall P n)); auto.
Qed.

End TensorPointwise.

Lemma tzip_ext {A B C : Type} (f g : A -> B -> C) (n : nat)
  (X : tensor A n) (S : tensor B n) :
  (forall a s, f a s = g a s) -> tzip f n X S = tzip g n X S.
Proof.
  intros E0. revert X S. induction n as [|n IH]; intros X S; simpl; [apply E0|].
  apply map2_ext. intros; apply IH.
Qed.



(** ** The two branches of [l2norm] as rescalings *)

Lemma normalize0_rescale (n : nat) (t : list (tensor R n)) :
  normalize0 n t = rescale0 hard_divisor n t.
Proof.
  unfold normalize0, rescale0, norm0, hard_divisor.
  rewrite tmap_tmap. reflexivity.
Qed.

Lemma soft_normalize0_rescale (norm_eps eps : R) (n : nat) (t : list (tensor R n)) :
  soft_normalize0 norm_eps eps n t = rescale0 (soft_divisor norm_eps eps) n t.
Proof.
  unfold soft_normalize0, rescale0, norm0, soft_divisor.
  rewrite (tmap_tmap (clamp _ _) sqrt).
  rewrite tzip_tmap_same, tmap_tmap. reflexivity.
Qed.

Lemma sumsq0_cons2 (n : nat) (x y : tensor R n) (rest : list (tensor R n)) :
  sumsq0 n (x :: y :: rest) = tzip Rplus n (tmap sq n x) (sumsq0 n (y :: rest)).
Proof. reflexivity. Qed.





(** *** Entries against the sum of squares they enter *)















(** ** [l2norm] along the last axis, at any rank *)

Lemma along_last (F : forall k, list (tensor R k) -> list (tensor R k)) (n : nat)
  (t : tensor R (S n)) :
  along F n n t = on_last (F 0%nat) n t.
Proof.
  revert t. induction n as [|n IH]; intros t; simpl; [reflexivity|].
  apply map_ext. exact IH.
Qed.

Lemma chunk_list_nonempty {A : Type} (g : nat) (v : list A) :
  (0 < g)%nat -> chunk_list g v <> [].
Proof.
  intros Hg. unfold chunk_list.
  destruct (Nat.eqb_spec (length v) 0) as [E|E].
  - destruct g; [lia|discriminate].
  - destruct v as [|a v]; [simpl in E; lia|]. simpl. discriminate.
Qed.

Lemma chunk_last_length {A : Type} (g L n : nat) (t : tensor A (S n)) (w : list unit) :
  (0 < g)%nat -> last_len L n t -> length w = L ->
  length (chunk n n g t) = length (chunk_list g w).
Proof.
  intros Hg. revert t. induction n as [|n IH]; intros t Ht Hw.
  - simpl in *. apply chunk_list_length_only. congruence.
  - destruct Ht as [Hne Hall]. cbn [chunk].
    set (m := length (chunk_list g w)).
    assert (Hrect : Forall (fun r => length r = m) (map (chunk n n g) t)).
    { apply Forall_map. revert Hall. apply Forall_impl. intros a Ha. apply IH; auto. }
    rewrite (transpose_unfold m); auto.
    + apply transpose_from_length, Hrect.
    + destruct t; [contradiction|discriminate].
Qed.

Lemma chunk_last_cat (F : forall k, list (tensor R k) -> list (tensor R k))
  (g L n : nat) (t : tensor R (S n)) :
  (0 < g)%nat -> last_len L n t ->
  cat n n (along F (S n) (S n) (chunk n n g t))
  = on_last (fun v : list R => concat (map (F 0%nat) (chunk_list g v))) n t.
Proof.
  intros Hg. revert t. induction n as [|n IH]; intros t Ht.
  - reflexivity.
  - destruct Ht as [Hne Hall].
    change (along F (S (S n)) (S (S n))) with (map (along F (S n) (S n))).
    change (along F (S n) (S n)) with (map (along F n n)).
    cbn [chunk cat on_last].
    set (w := repeat tt L).
    assert (Hw : length w = L) by apply repeat_length.
    set (m := length (chunk_list g w)).
    assert (Hm : (0 < m)%nat).
    { unfold m. pose proof (chunk_list_nonempty g w Hg).
      destruct (chunk_list g w); [contradiction|simpl; lia]. }
    match goal with
    | |- map _ (transpose ?X) = _ =>
        replace X with (transpose (map (map (along F n n)) (map (chunk n n g) t)))
          by apply transpose_map
    end.
    match goal with
    | |- map _ ?X = _ =>
        replace X with (map (map (along F n n)) (map (chunk n n g) t))
    end.
    + rewrite !map_map.
      apply (map_ext_Forall (last_len L n)); [exact Hall|].
      intros a Ha. rewrite <- (IH a Ha). reflexivity.
    + symmetry. apply (transpose_involutive m); auto.
      * destruct t; [contradiction|discriminate].
      * rewrite !Forall_map. revert Hall. apply Forall_impl. intros a Ha.
        rewrite length_map. apply (chunk_last_length g L n a w); auto.
Qed.

Lemma forallb_map2_const {A B : Type} (a : list A) (b : list B) :
  forallb (fun x => x) (map2 (fun _ _ => true) a b) = true.
Proof.
  revert b. induction a as [|x a IH]; intros [|y b]; simpl; auto.
Qed.

Lemma same_shape_vectors {A B : Type} (a : list A) (b : list B) :
  length a = length b -> same_shape 1 (a : tensor A 1) (b : tensor B 1) = true.
Proof.
  intros H. simpl. rewrite H, Nat.eqb_refl. apply forallb_map2_const.
Qed.

Lemma transpose_from_columns {A : Type} (Rb : A -> A -> bool) (m : nat)
  (X : list (list A)) :
  (forall row, In row X -> forall x y, In x row -> In y row -> Rb x y = true) ->
  forall a b, In a (transpose_from m X) -> In b (transpose_from m X) ->
    length a = length b /\ forallb (fun x => x) (map2 Rb a b) = true.
Proof.
  unfold transpose_from. induction X as [|r X IH]; intros HR a b Ha Hb.
  - simpl in *. apply repeat_spec in Ha, Hb. subst. auto.
  - simpl in Ha, Hb.
    apply in_map2 in Ha as (x & a' & -> & Hx & Ha').
    apply in_map2 in Hb as (y & b' & -> & Hy & Hb').
    destruct (IH (fun row Hrow => HR row (or_intror Hrow)) a' b' Ha' Hb') as [H1 H2].
    split; [simpl; congruence|].
    simpl. rewrite H2, (HR r (or_introl eq_refl) x y Hx Hy). reflexivity.
Qed.

Lemma chunk_last_same_shape {A : Type} (g L n : nat) (t : tensor A (S n)) :
  (0 < g)%nat -> even_chunks g L -> last_len L n t ->
  forall a b, In a (chunk n n g t) -> In b (chunk n n g t) ->
    same_shape (S n) a b = true.
Proof.
  intros Hg Hev. revert t. induction n as [|n IH]; intros t Ht a b Ha Hb.
  - simpl in Ht. subst L. cbn [chunk] in Ha, Hb.
    destruct (chunk_list_even g t Hg Hev) as (H1 & _ & _).
    rewrite Forall_forall in H1.
    apply same_shape_vectors.
    transitivity (chunk_size g (length t)); [apply H1|symmetry; apply H1]; assumption.
  - destruct Ht as [Hne Hall]. cbn [chunk] in Ha, Hb.
    set (w := repeat tt L) in *.
    assert (Hw : length w = L) by apply repeat_length.
    set (m := length (chunk_list g w)) in *.
    assert (Hrect : Forall (fun r => length r = m) (map (chunk n n g) t)).
    { apply Forall_map. revert Hall. apply Forall_impl. intros c Hc.
      apply (chunk_last_length g L n c w); auto. }
    assert (Hne' : map (chunk n n g) t <> []).
    { destruct t; [contradiction|discriminate]. }
    rewrite (transpose_unfold m _ Hne' Hrect) in Ha, Hb.
    destruct (transpose_from_columns (same_shape (S n)) m (map (chunk n n g) t)) with (a := a) (b := b)
      as [H1 H2]; auto.
    + intros row Hrow x y Hx Hy.
      apply in_map_iff in Hrow as (c & <- & Hc).
      rewrite Forall_forall in Hall. apply (IH c (Hall c Hc)); assumption.
    + change (same_shape (S (S n)) a b)
        with ((length a =? length b)%nat
              && forallb (fun x => x) (map2 (same_shape (S n)) a b)).
      apply andb_true_intro. split; [apply Nat.eqb_eq; exact H1|exact H2].
Qed.

Lemma stack_ok {A : Type} (n : nat) (ts : list (tensor A n)) :
  ts <> [] ->
  (forall a b, In a ts -> In b ts -> same_shape n a b = true) ->
  stack n ts = Ok ts.
Proof.
  intros Hne H. destruct ts as [|t0 rest]; [contradiction|].
  unfold stack.
  replace (forallb (same_shape n t0) rest) with true; [reflexivity|].
  symmetry. apply forallb_forall. intros x Hx. apply H; simpl; auto.
Qed.

Lemma chunk_last_nonempty {A : Type} (g L n : nat) (t : tensor A (S n)) :
  (0 < g)%nat -> last_len L n t -> chunk n n g t <> [].
Proof.
  intros Hg Ht E. apply (f_equal (@length _)) in E.
  rewrite (chunk_last_length g L n t (repeat tt L) Hg Ht (repeat_length _ _)) in E.
  pose proof (chunk_list_nonempty g (repeat tt L) Hg).
  destruct (chunk_list g (repeat tt L)); [contradiction|discriminate].
Qed.

Lemma on_last_ext {A B : Type} (f g : list A -> list B) (n : nat) (t : tensor A (S n)) :
  (forall v, f v = g v) -> on_last f n t = on_last g n t.
Proof.
  intros E. revert t. induction n as [|n IH]; intros t; simpl; [apply E|].
  apply map_ext. exact IH.
Qed.

Lemma l2norm_core_last (norm_eps : R) (eps : option R) (dt : dtype) (n : nat)
  (t : tensor R (S n)) :
  l2norm_core norm_eps eps dt n n t = on_last (l2norm_vec norm_eps eps dt) n t.
Proof.
  unfold l2norm_core, l2norm_vec. destruct (Req_dec_T norm_eps 0).
  - rewrite along_last. apply on_last_ext. apply normalize0_vec.
  - cbv zeta. rewrite along_last. apply on_last_ext. intros v. apply soft_normalize0_vec.
Qed.

(** Along the last axis [l2norm] treats every vector on its own. *)
Lemma l2norm_last_axis (n : nat) (t : tensor R (S n)) (norm_eps : R) (eps : option R)
  (groups : nat) (dt : dtype) (L : nat) :
  last_len L n t ->
  (groups <= 1)%nat \/ even_chunks groups L ->
  l2norm n t (-1) norm_eps eps groups dt
  = Ok (on_last (grouped_vec norm_eps eps dt groups) n t).
Proof.
  intros Ht Hg. unfold l2norm, grouped_vec, groups_of.
  destruct (Nat.ltb_spec 1 groups) as [Hlt|Hle].
  - destruct Hg as [Hg|Hev]; [lia|].
    rewrite !resolve_dim_last. cbn [bind].
    rewrite stack_ok.
    + cbn [bind]. f_equal.
      unfold l2norm_core, l2norm_vec. destruct (Req_dec_T norm_eps 0).
      * rewrite (chunk_last_cat normalize0 groups L) by (auto; lia).
        apply on_last_ext. intros v. f_equal. apply map_ext, normalize0_vec.
      * cbv zeta.
        rewrite (chunk_last_cat (soft_normalize0 norm_eps (default eps (default_eps dt)))
                   groups L) by (auto; lia).
        apply on_last_ext. intros v. f_equal. apply map_ext. intros c.
        apply soft_normalize0_vec.
    + apply (chunk_last_nonempty groups L); [lia|exact Ht].
    + apply (chunk_last_same_shape groups L); auto. lia.
  - rewrite resolve_dim_last. cbn [bind]. f_equal.
    rewrite l2norm_core_last. apply on_last_ext. intros v.
    simpl. rewrite app_nil_r. reflexivity.
Qed.


(** ** What the last-axis Normalizer does to the groups of a vector *)

Lemma l2norm_vec_length (norm_eps : R) (eps : option R) (dt : dtype) (v : list R) :
  length (l2norm_vec norm_eps eps dt v) = length v.
Proof.
  unfold l2norm_vec, hard_vec, soft_vec.
  destruct (Req_dec_T norm_eps 0); cbv zeta; apply length_map.
Qed.

Lemma groups_of_grouped_vec (norm_eps : R) (eps : option R) (dt : dtype) (g : nat)
  (v : list R) :
  (g <= 1)%nat \/ even_chunks g (length v) ->
  groups_of g (grouped_vec norm_eps eps dt g v)
  = map (l2norm_vec norm_eps eps dt) (groups_of g v).
Proof.
  intros Hg. unfold grouped_vec, groups_of.
  destruct (Nat.ltb_spec 1 g) as [Hlt|Hle].
  - destruct Hg as [Hg|Hev]; [lia|].
    apply chunk_list_concat_back; [lia|exact Hev|].
    intros c _. apply l2norm_vec_length.
  - simpl. rewrite app_nil_r. reflexivity.
Qed.

Lemma concat_map_length {A : Type} (f : list A -> list A) (cs : list (list A)) :
  (forall c, length (f c) = length c) ->
  length (concat (map f cs)) = length (concat cs).
Proof.
  intros Hf. induction cs as [|c cs IH]; [reflexivity|].
  simpl. rewrite !length_app, IH, Hf. reflexivity.
Qed.

Lemma grouped_vec_length (norm_eps : R) (eps : option R) (dt : dtype) (g : nat)
  (v : list R) :
  (g <= 1)%nat \/ even_chunks g (length v) ->
  length (grouped_vec norm_eps eps dt g v) = length v.
Proof.
  intros Hg. unfold grouped_vec, groups_of.
  destruct (Nat.ltb_spec 1 g) as [Hlt|Hle].
  - destruct Hg as [Hg|Hev]; [lia|].
    destruct (chunk_list_even g v) as (_ & H2 & _); [lia|exact Hev|].
    rewrite concat_map_length by (intros; apply l2norm_vec_length).
    rewrite H2. reflexivity.
  - simpl. rewrite app_nil_r. apply l2norm_vec_length.
Qed.

Lemma l2norm_vec_in_band (norm_eps : R) (dt : dtype) (c : list R) :
  0 <= norm_eps -> above_floor norm_eps dt (vnorm c) ->
  in_band norm_eps (vnorm (l2norm_vec norm_eps None dt c)).
Proof.
  intros Htol (Hpos & Hhard & Hsoft). unfold l2norm_vec, in_band.
  destruct (Req_dec_T norm_eps 0) as [E|NE].
  - rewrite hard_vec_norm by auto. lra.
  - simpl. pose proof (default_eps_pos dt). rewrite soft_vec_norm by auto.
    apply clamp_band. lra.
Qed.

Lemma l2norm_vec_idem (norm_eps : R) (dt : dtype) (c : list R) :
  0 <= norm_eps -> above_floor norm_eps dt (vnorm c) ->
  l2norm_vec norm_eps None dt (l2norm_vec norm_eps None dt c)
  = l2norm_vec norm_eps None dt c.
Proof.
  intros Htol (Hpos & Hhard & Hsoft). unfold l2norm_vec.
  destruct (Req_dec_T norm_eps 0) as [E|NE].
  - apply hard_vec_idem. auto.
  - simpl. pose proof (default_eps_pos dt). apply soft_vec_idem; auto.
Qed.

Lemma all_last_on_last {A B : Type} (P : list A -> Prop) (Q : list B -> Prop)
  (f : list A -> list B) (n : nat) (t : tensor A (S n)) :
  (forall v, P v -> Q (f v)) -> all_last P n t -> all_last Q n (on_last f n t).
Proof.
  intros H. revert t. induction n as [|n IH]; intros t; simpl; [apply H|].
  intros Ht. apply Forall_map. revert Ht. apply Forall_impl. exact IH.
Qed.

Lemma all_last_and {A : Type} (P Q : list A -> Prop) (n : nat) (t : tensor A (S n)) :
  all_last P n t -> all_last Q n t -> all_last (fun v => P v /\ Q v) n t.
Proof.
  revert t. induction n as [|n IH]; intros t; simpl; [auto|].
  intros HP HQ. rewrite Forall_forall in *. intros x Hx. apply IH; auto.
Qed.

Lemma last_len_all_last {A : Type} (L n : nat) (t : tensor A (S n)) :
  last_len L n t -> all_last (fun v => length v = L) n t.
Proof.
  revert t. induction n as [|n IH]; intros t; simpl; [auto|].
  intros [_ H]. revert H. apply Forall_impl. exact IH.
Qed.

Lemma last_len_on_last {A B : Type} (f : list A -> list B) (L L' n : nat)
  (t : tensor A (S n)) :
  (forall v, length v = L -> length (f v) = L') ->
  last_len L n t -> last_len L' n (on_last f n t).
Proof.
  intros H. revert t. induction n as [|n IH]; intros t; simpl; [apply H|].
  intros [Hne Hall]. split.
  - destruct t; [contradiction|discriminate].
  - apply Forall_map. revert Hall. apply Forall_impl. exact IH.
Qed.

Lemma last_len_zip_last {A B C : Type} (f : list A -> list B -> list C) (L n : nat)
  (a : tensor A (S n)) (b : tensor B (S n)) :
  (forall u v, length u = L -> length v = L -> length (f u v) = L) ->
  last_len L n a -> last_len L n b -> last_len L n (zip_last f n a b).
Proof.
  intros H. revert a b. induction n as [|n IH]; intros a b; simpl; [apply H|].
  intros [Ha Halla] [Hb Hallb]. split.
  - destruct a, b; try contradiction. discriminate.
  - clear Ha Hb. revert b Hallb. induction Halla as [|x a Hx Halla IHa]; intros b Hallb.
    + constructor.
    + destruct Hallb as [|y b Hy Hallb]; simpl; constructor; auto.
Qed.

Lemma lerp_vec_length (w a b : list R) (L : nat) :
  length w = L -> length a = L -> length b = L -> length (lerp_vec w a b) = L.
Proof.
  intros Hw Ha Hb. unfold lerp_vec.
  rewrite map2_length, length_combine. lia.
Qed.

(** ** Shapes under rescaling *)

Lemma same_shape_lists {A B : Type} (n : nat) (a : list (tensor A n)) (b : list (tensor B n)) :
  length a = length b ->
  (forall x y, In x a -> In y b -> same_shape n x y = true) ->
  same_shape (S n) a b = true.
Proof.
  intros Hlen H.
  change (same_shape (S n) a b)
    with ((length a =? length b)%nat && forallb (fun x => x) (map2 (same_shape n) a b)).
  apply andb_true_intro. split; [apply Nat.eqb_eq, Hlen|].
  clear Hlen. revert b H. induction a as [|x a IH]; intros [|y b] H; simpl; auto.
  rewrite H by (simpl; auto). simpl. apply IH. intros; apply H; simpl; auto.
Qed.

Lemma same_shape_length {A B : Type} (n : nat) (a : list (tensor A n)) (b : list (tensor B n)) :
  same_shape (S n) a b = true -> length a = length b.
Proof.
  change (same_shape (S n) a b)
    with ((length a =? length b)%nat && forallb (fun x => x) (map2 (same_shape n) a b)).
  intros H. apply andb_prop in H as [H _]. apply Nat.eqb_eq, H.
Qed.



Lemma sumsq0_length (n s : nat) (t : list (tensor R (S n))) :
  t <> [] -> Forall (fun x => length x = s) t -> length (sumsq0 (S n) t) = s.
Proof.
  intros Hne Hall. induction Hall as [|x t Hx Hall IH]; [contradiction|].
  destruct t as [|y t].
  - simpl. rewrite length_map. exact Hx.
  - rewrite sumsq0_cons2. change (tzip Rplus (S n)) with (map2 (tzip Rplus n)).
    rewrite map2_length. change (tmap sq (S n) x) with (map (tmap sq n) x).
    rewrite length_map.
    etransitivity; [apply f_equal2; [exact Hx|apply IH; discriminate]|apply Nat.min_id].
Qed.

Lemma rescale0_lengths (delta : R -> R) (n s : nat) (t : list (tensor R (S n))) :
  Forall (fun x => length x = s) t ->
  forall c, In c t ->
    length (tzip Rdiv (S n) c (tmap delta (S n) (sumsq0 (S n) t))) = length c.
Proof.
  intros Hall c Hc.
  assert (Hne : t <> []) by (intros E; subst; destruct Hc).
  pose proof (sumsq0_length n s t Hne Hall) as Hs.
  rewrite Forall_forall in Hall. pose proof (Hall c Hc) as Hl.
  change (tzip Rdiv (S n)) with (map2 (tzip Rdiv n)).
  change (tmap delta (S n) (sumsq0 (S n) t)) with (map (tmap delta n) (sumsq0 (S n) t)).
  rewrite map2_length, length_map.
  etransitivity; [apply f_equal2; [exact Hl|exact Hs]|].
  rewrite Nat.min_id. symmetry. exact Hl.
Qed.

Lemma l2norm_core_first (norm_eps : R) (eps : option R) (dt : dtype) (n : nat)
  (t : tensor R (S n)) :
  l2norm_core norm_eps eps dt n 0 t = rescale0 (divisor_of norm_eps eps dt) n t.
Proof.
  unfold l2norm_core, divisor_of. destruct (Req_dec_T norm_eps 0); simpl.
  - apply normalize0_rescale.
  - apply soft_normalize0_rescale.
Qed.

Lemma chunk_list_one_shape {A : Type} (g n : nat) (t : list (tensor A n)) :
  (0 < g)%nat -> even_chunks g (length t) -> one_shape n t ->
  one_shape (S n) (chunk_list g t).
Proof.
  intros Hg Hev Hrect a b Ha Hb.
  destruct (chunk_list_even g t Hg Hev) as (H1 & H2 & _).
  rewrite Forall_forall in H1.
  assert (Hin : forall c x, In c (chunk_list g t) -> In x c -> In x t).
  { intros c x Hc Hx. rewrite <- H2. apply in_concat. exists c. auto. }
  apply same_shape_lists.
  - transitivity (chunk_size g (length t)); [apply H1|symmetry; apply H1]; assumption.
  - intros x y Hx Hy. apply Hrect; eauto.
Qed.

(** ** [l2norm] twice is [l2norm] once, above the floor *)

Lemma l2norm_first_axis (n : nat) (t : tensor R (S n)) (norm_eps : R) (eps : option R)
  (groups : nat) (dt : dtype) :
  one_shape n t ->
  (groups <= 1)%nat \/ even_chunks groups (length t) ->
  l2norm n t 0 norm_eps eps groups dt
  = Ok (if (1 <? groups)%nat
        then concat (rescale0 (divisor_of norm_eps eps dt) (S n) (chunk_list groups t))
        else rescale0 (divisor_of norm_eps eps dt) n t).
Proof.
  intros Hrect Hg. unfold l2norm.
  destruct (Nat.ltb_spec 1 groups) as [Hlt|Hle].
  - destruct Hg as [Hg|Hev]; [lia|].
    rewrite !resolve_dim_first. cbn [bind chunk cat].
    rewrite stack_ok.
    + cbn [bind]. rewrite l2norm_core_first. reflexivity.
    + apply chunk_list_nonempty. lia.
    + apply chunk_list_one_shape; auto. lia.
  - rewrite resolve_dim_first. cbn [bind]. rewrite l2norm_core_first. reflexivity.
Qed.









Lemma grouped_vec_idem (norm_eps : R) (dt : dtype) (g : nat) (v : list R) :
  0 <= norm_eps ->
  (g <= 1)%nat \/ even_chunks g (length v) ->
  Forall (fun c => above_floor norm_eps dt (vnorm c)) (groups_of g v) ->
  grouped_vec norm_eps None dt g (grouped_vec norm_eps None dt g v)
  = grouped_vec norm_eps None dt g v.
Proof.
  intros Htol Hg Hall. unfold grouped_vec at 1.
  rewrite groups_of_grouped_vec by exact Hg.
  unfold grouped_vec. f_equal. rewrite map_map.
  apply (map_ext_Forall _ _ _ _ Hall). intros c Hc.
  apply l2norm_vec_idem; assumption.
Qed.

Lemma l2norm_vec_zeros (norm_eps : R) (eps : option R) (dt : dtype) (u : list R) :
  Forall (fun x => x = 0) u -> l2norm_vec norm_eps eps dt u = u.
Proof.
  intros Hz. unfold l2norm_vec.
  destruct (Req_dec_T norm_eps 0); [unfold hard_vec|unfold soft_vec; cbv zeta];
    (etransitivity; [|apply map_id]);
    apply (map_ext_Forall _ _ _ _ Hz); intros x ->; unfold Rdiv; ring.
Qed.




(** ** The renormalisation pass *)

Lemma last_len_one_shape {A : Type} (L : nat) (w : tensor A 2) :
  last_len L 1 w -> one_shape 1 w.
Proof.
  intros [_ H] a b Ha Hb. rewrite Forall_forall in H.
  apply same_shape_vectors.
  transitivity L; [apply H|symmetry; apply H]; assumption.
Qed.

Lemma set_linear_twice (m : NormLinear) (w : tensor R 2) :
  set_linear (set_linear m w) w = set_linear m w.
Proof. reflexivity. Qed.



(** ** The smallest network *)





Lemma above_floor_one (dt : dtype) : above_floor 0 dt 1.
Proof.
  unfold above_floor, normalize_eps. repeat split; intros; lra.
Qed.

(** ** The attention calls of a forward pass *)

Lemma bind_Ok {A B : Type} (r : result A) (k : A -> result B) (b : B) :
  bind r k = Ok b -> exists a, r = Ok a /\ k a = Ok b.
Proof. destruct r as [a|e]; simpl; [eauto|discriminate]. Qed.

Lemma Residual_forward_rest {M Rest : Type} (n : nat)
  (apply : M -> tensor R (S n) -> result (tensor R (S n) * option Rest))
  (r : Residual M) (dt : dtype) (x out : tensor R (S n)) (rest : option Rest) :
  Residual_forward n apply r dt x = Ok (out, rest) ->
  exists o, apply (res_fn r) x = Ok (o, rest).
Proof.
  unfold Residual_forward. intros H.
  apply bind_Ok in H as ([o rest'] & Ho & H).
  apply bind_Ok in H as (fused & _ & H).
  apply bind_Ok in H as (out' & _ & H).
  cbn [fst snd] in H. injection H as _ <-. eauto.
Qed.

Section AttentionValues.

Context {F : Type} `{Scalar F}.
Variable sdpa :
  tensor R 4 -> tensor R 4 -> tensor R 4 -> option (tensor bool 4) -> bool -> R
  -> tensor F 4.

Lemma Attention_forward_values (a : Attention) (dt : dtype) (x : tensor R 3)
  (mask : option (tensor bool 2)) (rot : option (tensor R 4 -> tensor R 4))
  (vr : option (tensor R 4)) (out : tensor F 3) (rest : option (tensor R 4)) :
  Attention_forward sdpa a dt x mask rot vr true = Ok (out, rest) ->
  exists v,
    NormLinear_forward (at_to_v a) 2 x = Ok v /\
    rest = Some match vr with
                | Some r => tmap (Rmult 0.5) 4 (tzip Rplus 4 (split_heads (at_heads a) v) r)
                | None => split_heads (at_heads a) v
                end.
Proof.
  unfold Attention_forward. intros E.
  apply bind_Ok in E as (q & _ & E).
  apply bind_Ok in E as (k & _ & E).
  apply bind_Ok in E as (v & Hv & E).
  apply bind_Ok in E as (qk & _ & E).
  apply bind_Ok in E as (ko & _ & E).
  apply bind_Ok in E as (o & _ & E).
  injection E as _ <-. exists v. split; [exact Hv|reflexivity].
Qed.

End AttentionValues.

Section Calls.

Variable sdpa :
  tensor R 4 -> tensor R 4 -> tensor R 4 -> option (tensor bool 4) -> bool -> R
  -> tensor R 4.



End Calls.

(** ** Single-sphere configurations never raise *)

Lemma L2Norm_forward_single (l : L2Norm) (dt : dtype) (n : nat) (t : tensor R (S n)) :
  single_sphere l -> exists out, L2Norm_forward l dt n t = Ok out.
Proof.
  intros [Hg Hd]. unfold L2Norm_forward, l2norm.
  destruct (Nat.ltb_spec 1 (l2_groups l)) as [Hlt|_]; [lia|].
  destruct Hd as [-> | ->]; rewrite ?resolve_dim_last, ?resolve_dim_first;
    cbn [bind]; eauto.
Qed.

Lemma NormLinear_weight_total (m : NormLinear) :
  single_sphere (nl_l2norm m) -> exists w, NormLinear_weight m = Ok w.
Proof.
  intros H. unfold NormLinear_weight. destruct (nl_parametrize m); [|eauto].
  apply L2Norm_forward_single, H.
Qed.

Lemma NormLinear_forward_total {F : Type} `{Scalar F} (m : NormLinear) (n : nat)
  (x : tensor F (S n)) :
  single_sphere (nl_l2norm m) -> exists y, NormLinear_forward m n x = Ok y.
Proof.
  intros Hm. destruct (NormLinear_weight_total m Hm) as (w & E).
  unfold NormLinear_forward. rewrite E. cbn [bind]. eauto.
Qed.

Lemma exists_option_map {A B : Type} (f : A -> B) (v : option A) :
  exists_ (option_map f v) = exists_ v.
Proof. destruct v; reflexivity. Qed.

Lemma Attention_forward_total {F : Type} `{Scalar F}
  (sdpa : tensor R 4 -> tensor R 4 -> tensor R 4 -> option (tensor bool 4) -> bool -> R
          -> tensor F 4)
  (a : Attention) (dt : dtype) (x : tensor R 3) (mask : option (tensor bool 2))
  (rot : option (tensor R 4 -> tensor R 4)) (vr : option (tensor R 4)) (rv : bool) :
  Attention_single_sphere a ->
  exists_ mask && at_causal a = false ->
  exists out rest, Attention_forward sdpa a dt x mask rot vr rv = Ok (out, rest).
Proof.
  intros (Hl & Hq & Hk & Hv & Ho) Hm.
  unfold Attention_forward, scaled_dot_product_attention. cbv zeta.
  change (exists_ (A := list (list bool)) mask && at_causal a = false) in Hm.
  rewrite exists_option_map, Hm.
  destruct (NormLinear_forward_total (F := R) (at_to_q a) 2 x Hq) as (q & ->).
  destruct (NormLinear_forward_total (F := R) (at_to_k a) 2 x Hk) as (k & ->).
  destruct (NormLinear_forward_total (F := R) (at_to_v a) 2 x Hv) as (v & ->).
  cbn [bind].
  destruct (at_norm_qk a).
  - match goal with
    | |- context [L2Norm_forward (at_l2norm a) dt 3 ?t] =>
        destruct (L2Norm_forward_single (at_l2norm a) dt 3 t Hl) as (q' & ->)
    end.
    cbn [bind].
    match goal with
    | |- context [L2Norm_forward (at_l2norm a) dt 3 ?t] =>
        destruct (L2Norm_forward_single (at_l2norm a) dt 3 t Hl) as (k' & ->)
    end.
    cbn [bind fst snd].
    match goal with
    | |- context [NormLinear_forward (at_to_out a) 2 ?t] =>
        destruct (NormLinear_forward_total (at_to_out a) 2 t Ho) as (o & ->)
    end.
    cbn [bind]. eauto.
  - cbn [bind fst snd].
    match goal with
    | |- context [NormLinear_forward (at_to_out a) 2 ?t] =>
        destruct (NormLinear_forward_total (at_to_out a) 2 t Ho) as (o & ->)
    end.
    cbn [bind]. eauto.
Qed.

Lemma FeedForward_forward_total (f : FeedForward) (x : tensor R 3) :
  FeedForward_single_sphere f -> exists y, FeedForward_forward f x = Ok y.
Proof.
  intros (Hh & Hg & Ho). unfold FeedForward_forward.
  destruct (NormLinear_forward_total (F := R) (fw_to_hidden f) 2 x Hh) as (h & ->).
  destruct (NormLinear_forward_total (F := R) (fw_to_gate f) 2 x Hg) as (g & ->).
  cbn [bind]. apply NormLinear_forward_total, Ho.
Qed.

Lemma Residual_forward_total {M Rest : Type} (n : nat)
  (apply : M -> tensor R (S n) -> result (tensor R (S n) * option Rest))
  (r : Residual M) (dt : dtype) (x o : tensor R (S n)) (rest : option Rest) :
  single_sphere (res_l2norm r) ->
  apply (res_fn r) x = Ok (o, rest) ->
  exists out, Residual_forward n apply r dt x = Ok (out, rest).
Proof.
  intros Hl Happ. unfold Residual_forward, Residual_fused. rewrite Happ.
  cbn [bind fst snd].
  destruct (L2Norm_forward_single (res_l2norm r) dt n o Hl) as (o1 & ->). cbn [bind].
  match goal with
  | |- context [L2Norm_forward (res_l2norm r) dt n ?t] =>
      destruct (L2Norm_forward_single (res_l2norm r) dt n t Hl) as (o2 & ->)
  end.
  cbn [bind]. eauto.
Qed.

Section Totality.

Variable sdpa :
  tensor R 4 -> tensor R 4 -> tensor R 4 -> option (tensor bool 4) -> bool -> R
  -> tensor R 4.

Lemma layer_step_total (net : nGPT) (mask : option (tensor bool 2)) (l : layer)
  (st : loop_state) :
  layer_single_sphere l ->
  exists_ mask && at_causal (res_fn (fst l)) = false ->
  exists st', layer_step sdpa net mask l st = Ok st'.
Proof.
  intros (Hra & Ha & Hrf & Hf) Hm. unfold layer_step.
  set (vr := if g_add_value_residual net then ls_first_values st else None).
  destruct (Attention_forward_total sdpa (res_fn (fst l)) (g_dtype net) (ls_tokens st)
              mask (Some (g_rotary_embed net)) vr true Ha Hm) as (o & rest & Hatt).
  destruct (Attention_forward_values sdpa _ _ _ _ _ _ _ _ Hatt) as (v & _ & ->).
  destruct (Residual_forward_total 2
              (fun a x => Attention_forward sdpa a (g_dtype net) x mask
                            (Some (g_rotary_embed net)) vr true)
              (fst l) (g_dtype net) (ls_tokens st) o _ Hra Hatt) as (out & ->).
  cbn [bind fst snd].
  destruct (FeedForward_forward_total (res_fn (snd l)) out Hf) as (y & Hy).
  destruct (Residual_forward_total (Rest := unit) 2
              (fun f x => y <- FeedForward_forward f x ;; Ok (y, None))
              (snd l) (g_dtype net) out y None Hrf) as (out2 & ->).
  { rewrite Hy. reflexivity. }
  cbn [bind]. eauto.
Qed.

Lemma run_layers_total (net : nGPT) (mask : option (tensor bool 2)) (layers : list layer) :
  Forall layer_single_sphere layers ->
  Forall (fun l : layer => exists_ mask && at_causal (res_fn (fst l)) = false) layers ->
  forall st, exists st', run_layers sdpa net mask layers st = Ok st'.
Proof.
  induction 1 as [|l layers Hl Hall IH]; intros Hm st; cbn [run_layers]; [eauto|].
  inversion Hm as [|? ? Hm1 Hm2]; subst.
  destruct (layer_step_total net mask l st Hl Hm1) as (st1 & ->). cbn [bind].
  apply IH, Hm2.
Qed.

Lemma nGPT_forward_calls_total (net : nGPT) (ids : list (list nat))
  (mask : option (tensor bool 2)) (w : tensor R 2) (tokens : tensor R 3) :
  nGPT_single_sphere net ->
  Forall (fun l : layer => exists_ mask && at_causal (res_fn (fst l)) = false)
         (g_layers net) ->
  NormLinear_weight (g_token_embed net) = Ok w ->
  embed w ids = Ok tokens ->
  exists logits calls,
    nGPT_forward_calls sdpa net ids mask false false = Ok (Logits logits, calls).
Proof.
  intros (He & Hl & Ho) Hm Hw Hemb. unfold nGPT_forward_calls.
  rewrite Hw. cbn [bind]. rewrite Hemb. cbn [bind].
  match goal with
  | |- context [run_layers sdpa net mask (g_layers net) ?st] =>
      destruct (run_layers_total net mask (g_layers net) Hl Hm st) as (st' & ->)
  end.
  cbn [bind].
  destruct (g_to_logits net) as [m|].
  - destruct (NormLinear_forward_total (F := R) m 2 (ls_tokens st') Ho) as (y & ->).
    cbn [bind]. eauto.
  - cbn [bind]. eauto.
Qed.

End Totality.

Lemma unmasked_layers (layers : list layer) :
  Forall (fun l : layer => exists_ (@None (tensor bool 2)) && at_causal (res_fn (fst l)) = false)
         layers.
Proof. apply Forall_forall. intros l _. reflexivity. Qed.

Lemma tiny_single_sphere (norm_dim_in parametrize : bool) (w : tensor R 2) :
  single_sphere (nl_l2norm (tiny_projection w norm_dim_in parametrize)).
Proof.
  unfold single_sphere, tiny_projection. cbn. split; [lia|].
  destruct norm_dim_in; auto.
Qed.

Lemma tiny_l2norm_single_sphere : single_sphere tiny_l2norm.
Proof. unfold single_sphere, tiny_l2norm. cbn. split; [lia|auto]. Qed.

Lemma tiny_attention_single_sphere (w : tensor R 2) (parametrize : bool) :
  Attention_single_sphere (tiny_attention w parametrize).
Proof.
  unfold Attention_single_sphere, tiny_attention.
  cbn [at_l2norm at_to_q at_to_k at_to_v at_to_out].
  split; [apply tiny_l2norm_single_sphere|].
  repeat split; apply tiny_single_sphere.
Qed.

Lemma tiny_net_single_sphere (d : nat) (w : tensor R 2) (parametrize : bool) :
  nGPT_single_sphere (tiny_net d w parametrize).
Proof.
  unfold nGPT_single_sphere, tiny_net. cbn [g_token_embed g_layers g_to_logits].
  split; [apply tiny_single_sphere|]. split; [|apply tiny_single_sphere].
  apply Forall_forall. intros l Hl. apply repeat_spec in Hl. subst l.
  unfold layer_single_sphere, tiny_layer. cbn [fst snd res_l2norm res_fn].
  split; [apply tiny_l2norm_single_sphere|].
  split; [apply tiny_attention_single_sphere|].
  split; [apply tiny_l2norm_single_sphere|].
  unfold FeedForward_single_sphere, tiny_feedforward.
  cbn [fw_to_hidden fw_to_gate fw_to_out].
  repeat split; apply tiny_single_sphere.
Qed.

Section ForwardCalls.

Variable sdpa :
  tensor R 4 -> tensor R 4 -> tensor R 4 -> option (tensor bool 4) -> bool -> R
  -> tensor R 4.

Lemma nGPT_forward_calls_run (net : nGPT) (ids : list (list nat))
  (mask : option (tensor bool 2)) (return_loss return_hiddens : bool)
  (out : forward_output) (calls : list attn_call) :
  nGPT_forward_calls sdpa net ids mask return_loss return_hiddens = Ok (out, calls) ->
  exists tokens st,
    run_layers sdpa net mask (g_layers net)
      {| ls_tokens := tokens; ls_hiddens := [tokens];
         ls_first_values := None; ls_calls := [] |} = Ok st /\
    calls = ls_calls st.
Proof.
  unfold nGPT_forward_calls. intros E.
  apply bind_Ok in E as (w & _ & E).
  apply bind_Ok in E as (u & _ & E).
  apply bind_Ok in E as (tokens & _ & E).
  apply bind_Ok in E as (st & Hrun & E).
  apply bind_Ok in E as (logits & _ & E).
  apply bind_Ok in E as (hiddens & _ & E).
  exists tokens, st. split; [exact Hrun|].
  destruct return_loss.
  - apply bind_Ok in E as (loss & _ & E).
    destruct hiddens; injection E as _ <-; reflexivity.
  - destruct hiddens; injection E as _ <-; reflexivity.
Qed.

End ForwardCalls.

(** ** Masked attention rows *)

Section AttentionHalves.

Context {F : Type} `{Scalar F}.
Variable sdpa :
  tensor R 4 -> tensor R 4 -> tensor R 4 -> option (tensor bool 4) -> bool -> R
  -> tensor F 4.



End AttentionHalves.







(** *** Finite values stay finite through [merge_heads] and [to_out] *)

Lemma dot_finite (v : list xreal) (w : list R) :
  Forall finite v -> finite (dot v w).
Proof.
  unfold dot, finite. intros Hv. revert w.
  induction Hv as [|x v Hx Hv IH]; intros [|r w]; try (simpl; discriminate).
  specialize (IH w). destruct x as [x|]; [|exfalso; apply Hx; reflexivity].
  change (s_add (s_mul (Finite x) r) (fold_right s_add s_zero (map2 s_mul v w)) <> NaN).
  destruct (fold_right s_add s_zero (map2 s_mul v w)) as [y|].
  - simpl. discriminate.
  - exfalso. apply IH. reflexivity.
Qed.

Lemma Forall_transpose_from_intro {A : Type} (P : A -> Prop) (m : nat)
  (X : list (list A)) :
  Forall (Forall P) X -> Forall (Forall P) (transpose_from m X).
Proof.
  unfold transpose_from. induction 1 as [|r X Hr Hall IH]; simpl.
  - apply Forall_forall. intros c Hc. apply repeat_spec in Hc. subst. constructor.
  - apply Forall_forall. intros c Hc.
    apply in_map2 in Hc as (x & y & -> & Hx & Hy).
    rewrite Forall_forall in Hr, IH. constructor; auto.
Qed.

Lemma Forall_transpose_intro {A : Type} (P : A -> Prop) (X : list (list A)) :
  Forall (Forall P) X -> Forall (Forall P) (transpose X).
Proof.
  intros H. destruct X as [|r X]; [constructor|].
  apply (Forall_transpose_from_intro P (length r) (r :: X) H).
Qed.

Lemma Forall_concat_intro {A : Type} (P : A -> Prop) (X : list (list A)) :
  Forall (Forall P) X -> Forall P (concat X).
Proof.
  induction 1 as [|r X Hr Hall IH]; simpl; [constructor|].
  apply Forall_app. auto.
Qed.

Lemma to_out_finite (w : tensor R 2) (scale : R) (kb : tensor xreal 3) :
  tall finite 3 kb ->
  tall finite 2
    (map (fun v : list xreal => map (fun y => xmul y scale) (map (dot v) w))
         (map (@concat xreal) (transpose kb))).
Proof.
  intros Hk. cbn [tall] in *.
  apply Forall_map, Forall_map.
  apply (Forall_transpose_intro (Forall finite)) in Hk.
  revert Hk. apply Forall_impl. intros hs Hhs.
  apply Forall_concat_intro in Hhs.
  apply Forall_map, Forall_map. apply Forall_forall. intros row _.
  pose proof (dot_finite (concat hs) row Hhs) as Hd.
  unfold finite in *. destruct (dot (concat hs) row) as [y|];
    [simpl; discriminate|exfalso; apply Hd; reflexivity].
Qed.


Lemma NormLinear_forward_batch {F : Type} `{Scalar F} (m : NormLinear) (n : nat)
  (x y : tensor F (S (S n))) :
  NormLinear_forward m (S n) x = Ok y -> length y = length x.
Proof.
  unfold NormLinear_forward. intros E. apply bind_Ok in E as (w & _ & E).
  injection E as <-. unfold linear. cbn [tmap on_last]. rewrite !length_map. reflexivity.
Qed.

Lemma attention_qkv_batch (a : Attention) (dt : dtype) (x : tensor R 3)
  (rot : option (tensor R 4 -> tensor R 4)) (vr : option (tensor R 4))
  (qkv : tensor R 4 * tensor R 4 * tensor R 4) :
  attention_qkv a dt x rot vr = Ok qkv -> (length (snd qkv) <= length x)%nat.
Proof.
  unfold attention_qkv. intros E.
  apply bind_Ok in E as (q & _ & E).
  apply bind_Ok in E as (k & _ & E).
  apply bind_Ok in E as (v & Hv & E).
  apply bind_Ok in E as (qk & _ & E).
  injection E as <-. cbn [snd].
  apply NormLinear_forward_batch in Hv.
  destruct vr as [r|].
  - cbn [tmap tzip]. rewrite length_map, map2_length.
    unfold split_heads. rewrite length_map.
    etransitivity; [apply Nat.le_min_l|]. rewrite Hv. apply le_n.
  - unfold split_heads. rewrite length_map, Hv. apply le_n.
Qed.


(** ** Where the grouped Normalizer is the slice-wise one: the last axis *)

Lemma sequence_map_Ok {A B : Type} (f : A -> result B) (g : A -> B) (l : list A) :
  (forall x, In x l -> f x = Ok (g x)) -> sequence (map f l) = Ok (map g l).
Proof.
  induction l as [|x l IH]; intros H; [reflexivity|].
  cbn [map sequence]. rewrite H by (simpl; auto). cbn [bind].
  rewrite IH by (intros; apply H; simpl; auto). reflexivity.
Qed.

Lemma l2norm_single_group (n : nat) (t : tensor R (S n)) (norm_eps : R)
  (eps : option R) (dt : dtype) :
  l2norm n t (-1) norm_eps eps 1 dt = Ok (l2norm_core norm_eps eps dt n n t).
Proof.
  unfold l2norm. change (1 <? 1)%nat with false. cbv iota.
  rewrite resolve_dim_last. reflexivity.
Qed.

Lemma l2norm_core_stacked (norm_eps : R) (eps : option R) (dt : dtype) (n : nat)
  (ts : tensor R (S (S n))) :
  l2norm_core norm_eps eps dt (S n) (S n) ts
  = map (l2norm_core norm_eps eps dt n n) ts.
Proof.
  unfold l2norm_core. destruct (Req_dec_T norm_eps 0); reflexivity.
Qed.

Lemma chunk_list_one {A : Type} (v : list A) : chunk_list 1 v = [v].
Proof.
  unfold chunk_list.
  replace ((length v + 1 - 1) / 1)%nat with (length v)
    by (rewrite Nat.div_1_r; lia).
  destruct v as [|a v]; [reflexivity|].
  cbn [length Nat.eqb split_list].
  rewrite firstn_all2 by (simpl; lia). rewrite skipn_all2 by (simpl; lia).
  destruct (length v); reflexivity.
Qed.

Lemma transpose_single_row {A : Type} (x : list A) :
  transpose [x] = map (fun xi => [xi]) x.
Proof.
  unfold transpose. cbn [fold_right].
  induction x as [|a x IH]; simpl; [reflexivity|]. f_equal. exact IH.
Qed.

Lemma transpose_singletons {A : Type} (t : list A) :
  t <> [] -> transpose (map (fun x => [x]) t) = [t].
Proof.
  intros Hne. rewrite (transpose_unfold 1).
  - unfold transpose_from. induction t as [|x t IH]; [contradiction|].
    destruct t as [|y t]; [reflexivity|].
    cbn [map fold_right] in *. rewrite IH by discriminate. reflexivity.
  - destruct t; [contradiction|discriminate].
  - apply Forall_map. apply Forall_forall. reflexivity.
Qed.

Lemma chunk_last_one {A : Type} (L n : nat) (t : tensor A (S n)) :
  last_len L n t -> chunk n n 1 t = [t].
Proof.
  revert t. induction n as [|n IH]; intros t Ht.
  - apply chunk_list_one.
  - destruct Ht as [Hne Hall]. cbn [chunk].
    rewrite (map_ext_Forall (last_len L n) (chunk n n 1) (fun x => [x]) t Hall IH).
    apply transpose_singletons, Hne.
Qed.

Lemma cat_last_single {A : Type} (n : nat) (x : tensor A (S n)) : cat n n [x] = x.
Proof.
  revert x. induction n as [|n IH]; intros x.
  - simpl. apply app_nil_r.
  - change (map (cat n n) (transpose [(x : list (list (tensor A n)))]) = x).
    rewrite (transpose_single_row (x : list (list (tensor A n)))), map_map.
    etransitivity; [|apply map_id]. apply map_ext. exact IH.
Qed.

(** Along the last axis, on tensors the group count cuts evenly,
    [l2norm] is what the claim of group independence says. *)
Lemma l2norm_last_axis_by_slices (n : nat) (t : tensor R (S n)) (norm_eps : R)
  (eps : option R) (groups : nat) (dt : dtype) (L : nat) :
  (1 <= groups)%nat ->
  last_len L n t ->
  even_chunks groups L ->
  l2norm n t (-1) norm_eps eps groups dt
  = normalize_slices_spec n t (-1) norm_eps eps groups dt.
Proof.
  intros Hg Ht Hev. unfold normalize_slices_spec. rewrite resolve_dim_last. cbn [bind].
  rewrite (sequence_map_Ok _ (l2norm_core norm_eps eps dt n n))
    by (intros; apply l2norm_single_group).
  cbn [bind].
  destruct (Nat.eq_dec groups 1) as [->|Hne].
  - rewrite (chunk_last_one L n t Ht). cbn [map].
    rewrite cat_last_single. apply l2norm_single_group.
  - unfold l2norm. destruct (Nat.ltb_spec 1 groups) as [Hlt|Hle]; [|lia].
    rewrite !resolve_dim_last. cbn [bind].
    rewrite stack_ok.
    + cbn [bind]. rewrite l2norm_core_stacked. reflexivity.
    + apply (chunk_last_nonempty groups L); [lia|exact Ht].
    + apply (chunk_last_same_shape groups L); auto; lia.
Qed.

(** ** Where the two enforcement policies agree *)

Lemma in_band_above_floor (norm_eps : R) (dt : dtype) (r : R) :
  0 <= norm_eps < 1 -> in_band norm_eps r -> above_floor norm_eps dt r.
Proof.
  intros Htol [H1 H2]. pose proof (default_eps_pos dt) as He.
  pose proof normalize_eps_pos as Hn.
  unfold above_floor. repeat split; intros; try lra. nra.
Qed.

Lemma l2norm_vec_inside (norm_eps : R) (dt : dtype) (c : list R) :
  0 <= norm_eps < 1 -> in_band norm_eps (vnorm c) ->
  l2norm_vec norm_eps None dt c = c.
Proof.
  intros Htol Hb. unfold l2norm_vec, in_band in *.
  destruct (Req_dec_T norm_eps 0) as [E|NE].
  - apply hard_vec_unit. lra.
  - simpl. apply soft_vec_inside; [apply default_eps_pos|lra|exact Hb].
Qed.

Lemma concat_groups_of {A : Type} (g : nat) (v : list A) :
  (g <= 1)%nat \/ even_chunks g (length v) -> concat (groups_of g v) = v.
Proof.
  intros Hg. unfold groups_of. destruct (Nat.ltb_spec 1 g) as [Hlt|Hle].
  - destruct Hg as [Hg|Hev]; [lia|].
    destruct (chunk_list_even g v) as (_ & H2 & _); [lia|exact Hev|exact H2].
  - simpl. apply app_nil_r.
Qed.

Lemma grouped_vec_inside (norm_eps : R) (dt : dtype) (g : nat) (v : list R) :
  0 <= norm_eps < 1 ->
  (g <= 1)%nat \/ even_chunks g (length v) ->
  groups_in_band norm_eps g v ->
  grouped_vec norm_eps None dt g v = v.
Proof.
  intros Htol Hg Hb. unfold grouped_vec, groups_in_band in *.
  rewrite (map_ext_Forall _ _ (fun c => c) _ Hb).
  - rewrite map_id. apply concat_groups_of, Hg.
  - intros c Hc. apply l2norm_vec_inside; assumption.
Qed.

Lemma on_last_fixed {A : Type} (P : list A -> Prop) (f : list A -> list A) (n : nat)
  (t : tensor A (S n)) :
  (forall v, P v -> f v = v) -> all_last P n t -> on_last f n t = t.
Proof.
  intros H. revert t. induction n as [|n IH]; intros t Ht; simpl in *; [auto|].
  rewrite <- (map_id t) at 2. apply (map_ext_Forall (all_last P n)); auto.
Qed.

Lemma l2norm_fixes_last_axis (W : tensor R 2) (norm_eps : R) (g : nat) (dt : dtype)
  (L : nat) :
  0 <= norm_eps < 1 ->
  last_len L 1 W ->
  (g <= 1)%nat \/ even_chunks g L ->
  Forall (groups_in_band norm_eps g) W ->
  l2norm 1 W (-1) norm_eps None g dt = Ok W.
Proof.
  intros Htol HW Hg Hinv.
  rewrite (l2norm_last_axis 1 W norm_eps None g dt L HW Hg). f_equal.
  apply (on_last_fixed (fun v => length v = L /\ groups_in_band norm_eps g v)).
  - intros v [Hv Hb]. apply grouped_vec_inside; auto. rewrite Hv. exact Hg.
  - cbn [all_last]. destruct HW as [_ HW]. rewrite Forall_forall in *.
    intros v Hv. split; auto. apply (HW v Hv).
Qed.

(** The sums of squares along axis 0 of a matrix are those of its columns. *)
Lemma sumsq0_columns (L : nat) (W : tensor R 2) :
  W <> [] -> Forall (fun r => length r = L) W ->
  sumsq0 1 W = map (fun col => fold_right Rplus 0 (map sq col)) (transpose_from L W).
Proof.
  intros Hne Hall. induction Hall as [|r W Hr Hall IH]; [contradiction|].
  destruct W as [|r' W].
  - unfold transpose_from. cbn [sumsq0 tmap fold_right]. subst L. clear.
    induction r as [|a r IHr]; simpl; [reflexivity|].
    rewrite Rplus_0_r. f_equal. exact IHr.
  - rewrite sumsq0_cons2.
    etransitivity;
      [apply (f_equal (tzip Rplus 1 (tmap sq 1 r))); apply IH; discriminate|].
    change (transpose_from L (r :: r' :: W))
      with (map2 cons r (transpose_from L (r' :: W))).
    rewrite map_map2.
    change (map2 Rplus (map sq r)
              (map (fun col => fold_right Rplus 0 (map sq col))
                 (transpose_from L (r' :: W)))
            = map2 (fun x col => fold_right Rplus 0 (map sq (x :: col))) r
                (transpose_from L (r' :: W))).
    rewrite (map2_map Rplus sq). reflexivity.
Qed.

Lemma divisor_of_inside (norm_eps : R) (dt : dtype) (s : R) :
  0 <= norm_eps < 1 -> in_band norm_eps (sqrt s) ->
  divisor_of norm_eps None dt s = 1.
Proof.
  intros Htol Hb. unfold divisor_of, in_band in *.
  pose proof normalize_eps_pos. pose proof (default_eps_pos dt).
  destruct (Req_dec_T norm_eps 0) as [E|NE].
  - unfold hard_divisor. replace (sqrt s) with 1 by lra. apply Rmax_right. lra.
  - simpl. unfold soft_divisor. rewrite clamp_inside by exact Hb.
    replace (sqrt s / sqrt s) with 1 by (field; lra). apply Rmax_right. lra.
Qed.

Lemma map2_div_ones (x : list R) (L : nat) (ones : list R) :
  length x = L -> length ones = L -> Forall (fun d => d = 1) ones ->
  map2 Rdiv x ones = x.
Proof.
  intros Hx Ho Hall. revert x L Hx Ho.
  induction Hall as [|d ones -> Hall IH]; intros [|a x] L Hx Ho; simpl in *; auto; try lia.
  f_equal; [field|]. apply (IH x (pred L)); lia.
Qed.

Lemma l2norm_fixes_first_axis (W : tensor R 2) (norm_eps : R) (g : nat) (dt : dtype)
  (L : nat) :
  0 <= norm_eps < 1 ->
  last_len L 1 W ->
  (g <= 1)%nat ->
  Forall (groups_in_band norm_eps g) (transpose W) ->
  l2norm 1 W 0 norm_eps None g dt = Ok W.
Proof.
  intros Htol HW Hg Hinv. pose proof HW as [Hne Hrows].
  rewrite (l2norm_first_axis 1 W norm_eps None g dt).
  - destruct (Nat.ltb_spec 1 g) as [Hlt|_]; [lia|]. apply f_equal.
    unfold rescale0. rewrite (transpose_unfold L W Hne Hrows) in Hinv.
    rewrite (sumsq0_columns L W Hne Hrows).
    set (cols := transpose_from L W) in *.
    assert (Hones : Forall (fun d => d = 1)
                      (map (divisor_of norm_eps None dt)
                           (map (fun col => fold_right Rplus 0 (map sq col)) cols))).
    { apply Forall_map, Forall_map. revert Hinv. apply Forall_impl. intros col Hcol.
      apply divisor_of_inside; [exact Htol|].
      unfold groups_in_band, groups_of in Hcol.
      destruct (Nat.ltb_spec 1 g) as [Hlt|_]; [lia|].
      inversion Hcol; subst. assumption. }
    etransitivity; [|apply (map_id W)].
    apply (map_ext_Forall _ _ _ _ Hrows). intros x Hx.
    change (map2 Rdiv x
              (map (divisor_of norm_eps None dt)
                 (map (fun col => fold_right Rplus 0 (map sq col)) cols)) = x).
    apply (map2_div_ones x L); auto.
    rewrite !length_map. apply transpose_from_length, Hrows.
  - apply (last_len_one_shape L), HW.
  - left. exact Hg.
Qed.

(** With the stored weight on the sphere, the two policies answer
    alike along the input axis, and along the output axis with one
    group. *)
Lemma NormLinear_policies_agree {F : Type} `{Scalar F} (m : NormLinear) (n : nat)
  (x : tensor F (S n)) :
  0 <= l2_norm_eps (nl_l2norm m) < 1 ->
  last_len (nl_dim m) 1 (nl_linear m) ->
  (l2_dim (nl_l2norm m) = (-1)%Z /\
   ((l2_groups (nl_l2norm m) <= 1)%nat \/
    even_chunks (l2_groups (nl_l2norm m)) (nl_dim m))) \/
  (l2_dim (nl_l2norm m) = 0%Z /\ (l2_groups (nl_l2norm m) <= 1)%nat) ->
  unit_norm_invariant (nl_l2norm m) (nl_linear m) ->
  NormLinear_forward (with_policy m true) n x
  = NormLinear_forward (with_policy m false) n x.
Proof.
  intros Htol HW Hcase Hinv.
  unfold NormLinear_forward, NormLinear_weight, with_policy, L2Norm_forward.
  cbn [nl_parametrize nl_l2norm nl_dtype nl_linear nl_scale].
  unfold unit_norm_invariant in Hinv.
  destruct Hcase as [[Hd Hg]|[Hd Hg]]; rewrite Hd in *.
  - change ((-1 =? 0)%Z) with false in Hinv. cbv iota in Hinv.
    rewrite (l2norm_fixes_last_axis _ _ _ _ (nl_dim m)); auto.
  - change ((0 =? 0)%Z) with true in Hinv. cbv iota in Hinv.
    rewrite (l2norm_fixes_first_axis _ _ _ _ (nl_dim m)); auto.
Qed.

(** ** Tied and untied logits, in general *)

Lemma tmap_id {A : Type} (f : A -> A) (n : nat) (t : tensor A n) :
  (forall x, f x = x) -> tmap f n t = t.
Proof.
  intros H. revert t. induction n as [|n IH]; intros t; simpl; [apply H|].
  rewrite <- (map_id t) at 2. apply map_ext. exact IH.
Qed.

(** The separate projection answers the tied logits times [groups ** -1]. *)
Lemma untied_logits_are_scaled_tied_logits (to_logits : NormLinear) (w : tensor R 2)
  (tokens : tensor R 3) :
  NormLinear_weight to_logits = Ok w ->
  NormLinear_forward to_logits 2 tokens
  = Ok (tmap (fun y => y * nl_scale to_logits) 3 (tied_logits w tokens)).
Proof.
  intros Hw. unfold NormLinear_forward, tied_logits. rewrite Hw. reflexivity.
Qed.

Lemma untied_logits_single_group (to_logits : NormLinear) (w : tensor R 2)
  (tokens : tensor R 3) :
  NormLinear_weight to_logits = Ok w ->
  nl_scale to_logits = / INR 1 ->
  NormLinear_forward to_logits 2 tokens = Ok (tied_logits w tokens).
Proof.
  intros Hw Hs. rewrite (untied_logits_are_scaled_tied_logits _ w) by exact Hw.
  f_equal. apply tmap_id. intros y. rewrite Hs. simpl. field.
Qed.

(** ** Lists under [map], and the Cauchy-Schwarz inequality *)

Lemma firstn_map_comm {A B : Type} (f : A -> B) (k : nat) (l : list A) :
  firstn k (map f l) = map f (firstn k l).
Proof.
  revert l. induction k as [|k IH]; intros [|x l]; simpl; auto. f_equal. apply IH.
Qed.

Lemma skipn_map_comm {A B : Type} (f : A -> B) (k : nat) (l : list A) :
  skipn k (map f l) = map f (skipn k l).
Proof.
  revert l. induction k as [|k IH]; intros [|x l]; simpl; auto.
Qed.

Lemma split_list_map {A B : Type} (f : A -> B) (fuel s : nat) (l : list A) :
  split_list fuel s (map f l) = map (map f) (split_list fuel s l).
Proof.
  revert l. induction fuel as [|fuel IH]; intros l; [reflexivity|].
  destruct l as [|x l]; [reflexivity|].
  change (map f (x :: l)) with (f x :: map f l).
  cbn [split_list map].
  change (f x :: map f l) with (map f (x :: l)).
  rewrite firstn_map_comm, skipn_map_comm, IH. reflexivity.
Qed.

Lemma chunk_list_map {A B : Type} (f : A -> B) (g : nat) (l : list A) :
  chunk_list g (map f l) = map (map f) (chunk_list g l).
Proof.
  unfold chunk_list. rewrite length_map.
  destruct (length l =? 0)%nat.
  - induction g as [|g IH]; simpl; [reflexivity|]. f_equal. exact IH.
  - apply split_list_map.
Qed.

Lemma groups_of_map {A B : Type} (f : A -> B) (g : nat) (l : list A) :
  groups_of g (map f l) = map (map f) (groups_of g l).
Proof.
  unfold groups_of. destruct (1 <? g)%nat; [apply chunk_list_map|reflexivity].
Qed.

Lemma In_groups_of {A : Type} (g : nat) (v c : list A) (x : A) :
  (g <= 1)%nat \/ even_chunks g (length v) ->
  In c (groups_of g v) -> In x c -> In x v.
Proof.
  intros Hg Hc Hx. rewrite <- (concat_groups_of g v Hg).
  apply in_concat. exists c. split; assumption.
Qed.

Lemma sumsq_scale (c : R) (v : list R) :
  fold_right Rplus 0 (map sq (map (Rmult c) v))
  = c * c * fold_right Rplus 0 (map sq v).
Proof.
  induction v as [|x v IH]; simpl; [ring|]. rewrite IH. unfold sq. ring.
Qed.

Lemma vnorm_scale (c : R) (v : list R) :
  0 <= c -> vnorm (map (Rmult c) v) = c * vnorm v.
Proof.
  intros Hc. unfold vnorm. rewrite sumsq_scale.
  rewrite sqrt_mult_alt by nra. rewrite sqrt_square by exact Hc. reflexivity.
Qed.

Lemma dot_R (x w : list R) : dot x w = fold_right Rplus 0 (map2 Rmult x w).
Proof. reflexivity. Qed.

Lemma dot_cons (a b : R) (x w : list R) : dot (a :: x) (b :: w) = a * b + dot x w.
Proof. reflexivity. Qed.

Lemma cauchy_schwarz (x w : list R) :
  dot x w * dot x w
  <= fold_right Rplus 0 (map sq x) * fold_right Rplus 0 (map sq w).
Proof.
  revert w. induction x as [|a x IH]; intros [|b w].
  - simpl. unfold dot. simpl. lra.
  - unfold dot. simpl. lra.
  - unfold dot. simpl. pose proof (sumsq_nonneg (a :: x)) as H. simpl in H. lra.
  - rewrite dot_cons. cbn [map fold_right].
    specialize (IH w).
    pose proof (sumsq_nonneg x) as HX. pose proof (sumsq_nonneg w) as HW.
    set (D0 := dot x w) in *.
    set (X0 := fold_right Rplus 0 (map sq x)) in *.
    set (W0 := fold_right Rplus 0 (map sq w)) in *.
    unfold sq.
    assert (Hp : 0 <= a * a * W0 + b * b * X0).
    { pose proof (Rle_0_sqr a). pose proof (Rle_0_sqr b). unfold Rsqr in *. nra. }
    assert (Hsq : (2 * a * b * D0) * (2 * a * b * D0)
                  <= (a * a * W0 + b * b * X0) * (a * a * W0 + b * b * X0)).
    { assert (H1 : (a * b) * (a * b) * (D0 * D0) <= (a * b) * (a * b) * (X0 * W0)).
      { apply Rmult_le_compat_l; [|exact IH].
        pose proof (Rle_0_sqr (a * b)). unfold Rsqr in *. lra. }
      pose proof (Rle_0_sqr (a * a * W0 - b * b * X0)) as H2. unfold Rsqr in H2.
      lra. }
    assert (Hle : 2 * a * b * D0 <= a * a * W0 + b * b * X0).
    { destruct (Rle_dec (2 * a * b * D0) (a * a * W0 + b * b * X0)) as [?|Hn];
        [assumption|].
      exfalso. apply Rnot_le_lt in Hn.
      assert (Hlt : (a * a * W0 + b * b * X0) * (a * a * W0 + b * b * X0)
                    < (2 * a * b * D0) * (2 * a * b * D0)).
      { apply Rmult_le_0_lt_compat; lra. }
      lra. }
    lra.
Qed.

Lemma dot_bound (x w : list R) (a b : R) :
  0 <= a -> 0 <= b ->
  fold_right Rplus 0 (map sq x) <= a * a ->
  fold_right Rplus 0 (map sq w) <= b * b ->
  - (a * b) <= dot x w <= a * b.
Proof.
  intros Ha Hb Hx Hw.
  pose proof (cauchy_schwarz x w) as CS.
  pose proof (sumsq_nonneg x). pose proof (sumsq_nonneg w).
  assert (Hsq : dot x w * dot x w <= (a * b) * (a * b)) by nra.
  assert (Hab : 0 <= a * b) by nra.
  split.
  - destruct (Rle_dec (- (a * b)) (dot x w)) as [?|Hn]; [assumption|].
    exfalso. apply Rnot_le_lt in Hn. nra.
  - destruct (Rle_dec (dot x w) (a * b)) as [?|Hn]; [assumption|].
    exfalso. apply Rnot_le_lt in Hn. nra.
Qed.

(** ** The smallest Normalizer, run *)

Lemma tiny_l2norm_forward2 (dt : dtype) (x : R) :
  L2Norm_forward tiny_l2norm dt 2 [[[x]]]
  = Ok [[[x / Rmax normalize_eps (vnorm [x])]]].
Proof.
  unfold L2Norm_forward, tiny_l2norm. cbn [l2_dim l2_norm_eps l2_groups].
  rewrite (l2norm_last_axis 2 _ 0 None 1 dt 1).
  - cbn [on_last map]. unfold grouped_vec, groups_of, l2norm_vec.
    destruct (Req_dec_T 0 0) as [_|?]; [|lra]. reflexivity.
  - cbn [last_len].
    repeat first [split | discriminate | apply Forall_cons | apply Forall_nil | reflexivity].
  - left. lia.
Qed.

Lemma tiny_l2norm_forward3 (dt : dtype) (x : R) :
  L2Norm_forward tiny_l2norm dt 3 [[[[x]]]]
  = Ok [[[[x / Rmax normalize_eps (vnorm [x])]]]].
Proof.
  unfold L2Norm_forward, tiny_l2norm. cbn [l2_dim l2_norm_eps l2_groups].
  rewrite (l2norm_last_axis 3 _ 0 None 1 dt 1).
  - cbn [on_last map]. unfold grouped_vec, groups_of, l2norm_vec.
    destruct (Req_dec_T 0 0) as [_|?]; [|lra]. reflexivity.
  - cbn [last_len].
    repeat first [split | discriminate | apply Forall_cons | apply Forall_nil | reflexivity].
  - left. lia.
Qed.


(** ** The norm of an interpolation *)

Lemma sumsq_map_add {T : Type} (P Q : T -> R) (l : list T) :
  fold_right Rplus 0 (map sq (map (fun t => P t + Q t) l))
  = fold_right Rplus 0 (map sq (map P l))
    + 2 * dot (map P l) (map Q l)
    + fold_right Rplus 0 (map sq (map Q l)).
Proof.
  induction l as [|t l IH]; [unfold dot; simpl; ring|].
  cbn [map fold_right]. rewrite dot_cons, IH. unfold sq. ring.
Qed.

(** The reverse triangle inequality, for two vectors read off one list. *)
Lemma vnorm_map_add_lower {T : Type} (P Q : T -> R) (l : list T) :
  vnorm (map P l) - vnorm (map Q l) <= vnorm (map (fun t => P t + Q t) l).
Proof.
  unfold vnorm. rewrite sumsq_map_add.
  set (X := fold_right Rplus 0 (map sq (map P l))).
  set (Y := fold_right Rplus 0 (map sq (map Q l))).
  set (D := dot (map P l) (map Q l)).
  assert (HX : 0 <= X) by apply sumsq_nonneg.
  assert (HY : 0 <= Y) by apply sumsq_nonneg.
  pose proof (sqrt_pos X) as Hx. pose proof (sqrt_pos Y) as Hy.
  assert (HD : - (sqrt X * sqrt Y) <= D <= sqrt X * sqrt Y).
  { apply dot_bound; auto; fold X Y; rewrite sqrt_sqrt by assumption; lra. }
  destruct (Rle_dec (sqrt X) (sqrt Y)) as [Hle|Hgt].
  - pose proof (sqrt_pos (X + 2 * D + Y)). lra.
  - apply Rnot_le_lt in Hgt.
    rewrite <- (sqrt_square (sqrt X - sqrt Y)) by lra.
    apply sqrt_le_1_alt.
    replace ((sqrt X - sqrt Y) * (sqrt X - sqrt Y))
      with (sqrt X * sqrt X - 2 * (sqrt X * sqrt Y) + sqrt Y * sqrt Y) by ring.
    rewrite !sqrt_sqrt by assumption. lra.
Qed.

Lemma vnorm_map_le {T : Type} (P Q : T -> R) (l : list T) :
  Forall (fun t => sq (P t) <= sq (Q t)) l ->
  vnorm (map P l) <= vnorm (map Q l).
Proof.
  intros H. unfold vnorm. apply sqrt_le_1_alt.
  induction H as [|t l Ht Hl IH]; simpl; lra.
Qed.

Lemma vnorm_map_scale {T : Type} (c : R) (P : T -> R) (l : list T) :
  0 <= c -> vnorm (map (fun t => c * P t) l) = c * vnorm (map P l).
Proof.
  intros Hc. rewrite <- (vnorm_scale c (map P l) Hc). rewrite map_map. reflexivity.
Qed.

Lemma sq_le_abs (u v : R) : Rabs u <= v -> sq u <= sq v.
Proof.
  intros H. pose proof (Rabs_pos u) as Hp. unfold sq.
  assert (E : u * u = Rabs u * Rabs u).
  { unfold Rabs. destruct (Rcase_abs u); ring. }
  rewrite E. apply Rmult_le_compat; lra.
Qed.

(** Interpolating from [s] towards [e] with weights of size at most
    [a < 1] keeps at least [(1 - a) |s| - a |e|] of the norm. *)
Lemma lerp_norm_lower (a : R) (l : list (R * (R * R))) :
  0 <= a < 1 ->
  Forall (fun t => Rabs (snd (snd t)) <= a) l ->
  (1 - a) * vnorm (map fst l) - a * vnorm (map (fun t => fst (snd t)) l)
  <= vnorm (map (fun t => fst t + snd (snd t) * (fst (snd t) - fst t)) l).
Proof.
  intros Ha Hw.
  set (P := fun t : R * (R * R) => (1 - snd (snd t)) * fst t).
  set (Q := fun t : R * (R * R) => snd (snd t) * fst (snd t)).
  assert (E : map (fun t => fst t + snd (snd t) * (fst (snd t) - fst t)) l
              = map (fun t => P t + Q t) l).
  { apply map_ext. intros t. unfold P, Q. ring. }
  rewrite E.
  pose proof (vnorm_map_add_lower P Q l) as Htri.
  assert (HP : (1 - a) * vnorm (map fst l) <= vnorm (map P l)).
  { rewrite <- (vnorm_map_scale (1 - a) fst l) by lra.
    apply vnorm_map_le. revert Hw. apply Forall_impl. intros t Ht. unfold P.
    assert (Hb : - a <= snd (snd t) <= a).
    { unfold Rabs in Ht. destruct (Rcase_abs (snd (snd t))); lra. }
    unfold sq.
    replace ((1 - a) * fst t * ((1 - a) * fst t))
      with ((1 - a) * (1 - a) * (fst t * fst t)) by ring.
    replace ((1 - snd (snd t)) * fst t * ((1 - snd (snd t)) * fst t))
      with ((1 - snd (snd t)) * (1 - snd (snd t)) * (fst t * fst t)) by ring.
    apply Rmult_le_compat_r; [pose proof (Rle_0_sqr (fst t)) as Hq; unfold Rsqr in Hq; lra|].
    apply Rmult_le_compat; lra. }
  assert (HQ : vnorm (map Q l) <= a * vnorm (map (fun t => fst (snd t)) l)).
  { rewrite <- (vnorm_map_scale a (fun t => fst (snd t)) l) by lra.
    apply vnorm_map_le. revert Hw. apply Forall_impl. intros t Ht. unfold Q.
    pose proof (sq_le_abs (snd (snd t)) a Ht) as Hs. unfold sq in *.
    replace (snd (snd t) * fst (snd t) * (snd (snd t) * fst (snd t)))
      with (snd (snd t) * snd (snd t) * (fst (snd t) * fst (snd t))) by ring.
    replace (a * fst (snd t) * (a * fst (snd t)))
      with (a * a * (fst (snd t) * fst (snd t))) by ring.
    apply Rmult_le_compat_r;
      [pose proof (Rle_0_sqr (fst (snd t))) as Hq; unfold Rsqr in Hq; lra|exact Hs]. }
  lra.
Qed.

(** The Normalizer never hands back more than [1 + norm_eps]. *)
Lemma l2norm_vec_norm_le (norm_eps : R) (dt : dtype) (c : list R) :
  0 <= norm_eps < 1 -> vnorm (l2norm_vec norm_eps None dt c) <= 1 + norm_eps.
Proof.
  intros Htol. pose proof (vnorm_nonneg c) as Hn.
  unfold l2norm_vec. destruct (Req_dec_T norm_eps 0) as [E|NE].
  - unfold hard_vec. pose proof normalize_eps_pos as He.
    assert (Hd : 0 < Rmax normalize_eps (vnorm c)).
    { pose proof (Rmax_l normalize_eps (vnorm c)). lra. }
    rewrite vnorm_div by exact Hd.
    apply Rmult_le_reg_r with (r := Rmax normalize_eps (vnorm c)); [exact Hd|].
    unfold Rdiv. rewrite Rmult_assoc, Rinv_l by lra.
    pose proof (Rmax_r normalize_eps (vnorm c)). nra.
  - cbn [default]. unfold soft_vec. cbv zeta.
    pose proof (default_eps_pos dt) as He.
    set (t := clamp (1 - norm_eps) (1 + norm_eps) (vnorm c)).
    assert (Ht : 1 - norm_eps <= t <= 1 + norm_eps) by (apply clamp_band; lra).
    set (d := Rmax (default_eps dt) (vnorm c / t)).
    assert (Hd : 0 < d).
    { pose proof (Rmax_l (default_eps dt) (vnorm c / t)) as Hl. fold d in Hl. lra. }
    rewrite vnorm_div by exact Hd.
    apply Rmult_le_reg_r with (r := d); [exact Hd|].
    unfold Rdiv at 1. rewrite Rmult_assoc, Rinv_l by lra.
    pose proof (Rmax_r (default_eps dt) (vnorm c / t)) as Hr. fold d in Hr.
    assert (Hc : vnorm c = (vnorm c / t) * t) by (field; lra).
    assert (Hq : 0 <= vnorm c / t).
    { unfold Rdiv. apply Rmult_le_pos; [exact Hn|]. left. apply Rinv_0_lt_compat. lra. }
    rewrite Rmult_1_r. rewrite Hc at 1.
    apply Rle_trans with (r2 := d * t); [apply Rmult_le_compat_r; lra|].
    rewrite (Rmult_comm (1 + norm_eps) d). apply Rmult_le_compat_l; lra.
Qed.

Lemma above_floor_mono (norm_eps : R) (dt : dtype) (r r' : R) :
  above_floor norm_eps dt r -> r <= r' -> above_floor norm_eps dt r'.
Proof.
  intros (H0 & H1 & H2) Hle. unfold above_floor. repeat split; intros.
  - lra.
  - specialize (H1 H). lra.
  - specialize (H2 H). lra.
Qed.

(** *** The groups of an interpolated vector *)

Lemma map_fst_triples (x e w : list R) :
  length x = length e -> length e = length w ->
  map fst (combine x (combine e w)) = x.
Proof.
  revert e w. induction x as [|a x IH]; intros [|b e] [|c w]; simpl; try discriminate; auto.
  intros H1 H2. f_equal. apply IH; lia.
Qed.

Lemma map_snd_triples (x e w : list R) :
  length x = length e -> length e = length w ->
  map (fun t : R * (R * R) => fst (snd t)) (combine x (combine e w)) = e.
Proof.
  revert e w. induction x as [|a x IH]; intros [|b e] [|c w]; simpl; try discriminate; auto.
  intros H1 H2. f_equal. apply IH; lia.
Qed.

Lemma weights_of_triples (x e w : list R) (P : R -> Prop) :
  Forall P w -> Forall (fun t : R * (R * R) => P (snd (snd t))) (combine x (combine e w)).
Proof.
  intros Hw. revert x e. induction Hw as [|c w Hc Hw IH]; intros [|a x] [|b e]; simpl;
    try constructor; auto.
Qed.

Lemma lerp_vec_triples (x e w : list R) :
  lerp_vec w x e
  = map (fun t : R * (R * R) => fst t + snd (snd t) * (fst (snd t) - fst t))
        (combine x (combine e w)).
Proof.
  unfold lerp_vec. revert e w.
  induction x as [|a x IH]; intros [|b e] [|c w]; simpl; auto.
  f_equal. apply IH.
Qed.

Lemma length_triples (x e w : list R) (L : nat) :
  length x = L -> length e = L -> length w = L ->
  length (combine x (combine e w)) = L.
Proof. intros. rewrite !length_combine. lia. Qed.

(** Every group of an interpolated vector keeps the norm
    [lerp_norm_lower] promises, group by group. *)
Lemma lerp_vec_groups_lower (g L : nat) (a rho top : R) (x e w : list R) :
  0 <= a < 1 ->
  (g <= 1)%nat \/ even_chunks g L ->
  length x = L -> length e = L -> length w = L ->
  Forall (fun c => Rabs c <= a) w ->
  Forall (fun c => rho <= vnorm c) (groups_of g x) ->
  Forall (fun c => vnorm c <= top) (groups_of g e) ->
  Forall (fun c => (1 - a) * rho - a * top <= vnorm c) (groups_of g (lerp_vec w x e)).
Proof.
  intros Ha Hg Hx He Hw Hwa Hrho Htop.
  set (T := combine x (combine e w)).
  assert (HT : length T = L) by (apply length_triples; assumption).
  rewrite lerp_vec_triples. fold T. rewrite groups_of_map.
  rewrite <- (map_fst_triples x e w) in Hrho by congruence.
  rewrite <- (map_snd_triples x e w) in Htop by congruence.
  fold T in Hrho, Htop. rewrite groups_of_map in Hrho, Htop.
  rewrite Forall_map in *.
  pose proof (weights_of_triples x e w _ Hwa) as HwT. fold T in HwT.
  rewrite Forall_forall in *. intros c Hc.
  specialize (Hrho c Hc). specialize (Htop c Hc).
  assert (Hwc : Forall (fun t : R * (R * R) => Rabs (snd (snd t)) <= a) c).
  { apply Forall_forall. intros t Ht. apply HwT.
    apply (In_groups_of g T c t); [rewrite HT; exact Hg|exact Hc|exact Ht]. }
  pose proof (lerp_norm_lower a c Ha Hwc) as Hlow.
  assert (H1 : (1 - a) * rho <= (1 - a) * vnorm (map fst c))
    by (apply Rmult_le_compat_l; lra).
  assert (H2 : a * vnorm (map (fun t : R * (R * R) => fst (snd t)) c) <= a * top)
    by (apply Rmult_le_compat_l; lra).
  lra.
Qed.

Lemma all_last_zip_last {A B C : Type} (PA : list A -> Prop) (PB : list B -> Prop)
  (P : list C -> Prop) (f : list A -> list B -> list C) (n : nat)
  (a : tensor A (S n)) (b : tensor B (S n)) :
  (forall u v, PA u -> PB v -> P (f u v)) ->
  all_last PA n a -> all_last PB n b -> all_last P n (zip_last f n a b).
Proof.
  intros H. revert a b. induction n as [|n IH]; intros a b Ha Hb; [apply H; assumption|].
  cbn [all_last zip_last] in *. revert b Hb.
  induction Ha as [|x a Hx Ha IHa]; intros b Hb; [constructor|].
  destruct Hb as [|y b Hy Hb]; simpl; constructor; auto.
Qed.

(** ** Masked attention rows, the batch size kept *)






(** *** A kernel within the contract that answers [nan] on masked rows *)







(** ** The attention calls run the kernel on the values they hand back *)

Section Attends.

Variable sdpa :
  tensor R 4 -> tensor R 4 -> tensor R 4 -> option (tensor bool 4) -> bool -> R
  -> tensor R 4.




End Attends.

(** ** A two-layer network whose layers project the values differently *)









(** * The claims *)

(** ** The Normalizer on one vector *)

(** C3 (as the claim has it, refuted): the zero vector is sent to the
    zero vector by both branches, so its image has norm 0, neither 1
    nor inside the band. *)
Lemma l2norm_zero_vector_escapes :
  (exists out, l2norm 0 [0] (-1) 0 None 1 float32 = Ok out /\ vnorm out <> 1) /\
  (exists out, l2norm 0 [0] (-1) 0.1 None 1 float32 = Ok out /\
               ~ (1 - 0.1 <= vnorm out <= 1 + 0.1)).
Proof.
  split.
  - eexists. split; [apply l2norm_rank1_single|].
    unfold l2norm_vec. destruct (Req_dec_T 0 0) as [_|H]; [|lra].
    unfold hard_vec. simpl. rewrite vnorm_singleton.
    unfold Rdiv. rewrite Rmult_0_l, Rabs_R0. lra.
  - eexists. split; [apply l2norm_rank1_single|].
    unfold l2norm_vec. destruct (Req_dec_T 0.1 0) as [H|_]; [lra|].
    unfold soft_vec. simpl. rewrite vnorm_singleton.
    unfold Rdiv at 1. rewrite Rmult_0_l, Rabs_R0. lra.
Qed.

(** C3 (amended): let the group count cut [v] evenly and let every
    group of [v] have a positive norm that is at least the floor
    ([1e-12] when [norm_eps = 0], [eps * (1 - norm_eps)] otherwise).
    Then the Normalizer returns, every group of its output has norm
    within [[1 - norm_eps, 1 + norm_eps]], that is norm exactly 1 when
    [norm_eps = 0], and an input whose groups are already inside the
    band is returned as it is.  With one group the groups of a vector
    are the vector itself. *)
Theorem l2norm_respects_band (v : list R) (norm_eps : R) (groups : nat) (dt : dtype) :
  0 <= norm_eps ->
  (groups <= 1)%nat \/ even_chunks groups (length v) ->
  Forall (fun c => above_floor norm_eps dt (vnorm c)) (groups_of groups v) ->
  exists out,
    l2norm 0 v (-1) norm_eps None groups dt = Ok out /\
    Forall (fun c => in_band norm_eps (vnorm c)) (groups_of groups out) /\
    (norm_eps = 0 -> Forall (fun c => vnorm c = 1) (groups_of groups out)) /\
    (Forall (fun c => in_band norm_eps (vnorm c)) (groups_of groups v) -> out = v).
Proof.
  intros Htol Hg Hfloor.
  exists (grouped_vec norm_eps None dt groups v).
  split; [apply (l2norm_last_axis 0 v norm_eps None groups dt (length v)); auto;
          reflexivity|].
  assert (Hband : Forall (fun c => in_band norm_eps (vnorm c))
                         (groups_of groups (grouped_vec norm_eps None dt groups v))).
  { rewrite groups_of_grouped_vec by exact Hg. apply Forall_map.
    revert Hfloor. apply Forall_impl. intros c Hc. apply l2norm_vec_in_band; auto. }
  split; [exact Hband|]. split.
  - intros E. revert Hband. apply Forall_impl. intros c. unfold in_band. lra.
  - intros Hin. unfold grouped_vec.
    rewrite (map_ext_Forall
               (fun c => above_floor norm_eps dt (vnorm c) /\ in_band norm_eps (vnorm c))
               _ (fun c => c)).
    + rewrite map_id. unfold groups_of.
      destruct (Nat.ltb_spec 1 groups) as [Hlt|Hle].
      * destruct Hg as [Hg|Hev]; [lia|].
        destruct (chunk_list_even groups v) as (_ & H2 & _); [lia|exact Hev|exact H2].
      * simpl. apply app_nil_r.
    + rewrite Forall_forall in *. intros c Hc. split; auto.
    + intros c [(Hpos & Hhard & Hsoft) Hb]. unfold l2norm_vec, in_band in *.
      destruct (Req_dec_T norm_eps 0) as [E|NE].
      * apply hard_vec_unit. lra.
      * simpl. apply soft_vec_inside; auto. apply default_eps_pos.
Qed.

Lemma l2norm_respects_band_witness :
  exists out,
    l2norm 0 [3; 4] (-1) 0.5 None 2 float32 = Ok out /\
    Forall (fun c => in_band 0.5 (vnorm c)) (groups_of 2 out) /\
    (0.5 = 0 -> Forall (fun c => vnorm c = 1) (groups_of 2 out)) /\
    (Forall (fun c => in_band 0.5 (vnorm c)) (groups_of 2 [3; 4]) -> out = [3; 4]).
Proof.
  apply (l2norm_respects_band [3; 4] 0.5 2 float32).
  - lra.
  - right. exists 2%nat. reflexivity.
  - repeat constructor; simpl; rewrite vnorm_singleton, Rabs_pos_eq by lra;
      unfold normalize_eps, default_eps; simpl; intros; lra.
Defined.

(** C5 (as the claim has it, refuted): the non-zero vector [[1e-13]]
    lies under the floor of [F.normalize]; one pass scales it to
    [[0.1]], of norm 0.1, and a second pass moves it again, to [[1]]. *)
Lemma l2norm_tiny_vector_not_idempotent :
  vnorm [1e-13] <> 0 /\
  l2norm 0 [1e-13] (-1) 0 None 1 float32 = Ok [0.1] /\
  l2norm 0 [0.1] (-1) 0 None 1 float32 = Ok [1] /\
  vnorm [0.1] <> 1.
Proof.
  assert (A : Rabs 1e-13 = 1e-13) by (apply Rabs_pos_eq; lra).
  assert (B : Rabs 0.1 = 0.1) by (apply Rabs_pos_eq; lra).
  repeat split.
  - rewrite vnorm_singleton, A. lra.
  - rewrite l2norm_rank1_single. unfold l2norm_vec.
    destruct (Req_dec_T 0 0) as [_|H]; [|lra].
    unfold hard_vec. rewrite vnorm_singleton, A. simpl.
    unfold normalize_eps. rewrite Rmax_left by lra. do 2 f_equal. lra.
  - rewrite l2norm_rank1_single. unfold l2norm_vec.
    destruct (Req_dec_T 0 0) as [_|H]; [|lra].
    unfold hard_vec. rewrite vnorm_singleton, B. simpl.
    unfold normalize_eps. rewrite Rmax_right by lra. do 2 f_equal. lra.
  - rewrite vnorm_singleton, B. lra.
Qed.

(** C5 (amended): with [norm_eps = 0], on every vector that the group
    count cuts evenly and whose groups all have norm at least the
    floor [1e-12] of [F.normalize], the Normalizer is idempotent and
    every group of its output has norm 1.  With one group the groups
    of a vector are the vector itself. *)
Theorem l2norm_idempotent (v : list R) (groups : nat) (dt : dtype) :
  (groups <= 1)%nat \/ even_chunks groups (length v) ->
  Forall (fun c => normalize_eps <= vnorm c) (groups_of groups v) ->
  exists out,
    l2norm 0 v (-1) 0 None groups dt = Ok out /\
    l2norm 0 out (-1) 0 None groups dt = Ok out /\
    Forall (fun c => vnorm c = 1) (groups_of groups out).
Proof.
  intros Hg Hfloor.
  assert (Hfloor' : Forall (fun c => above_floor 0 dt (vnorm c)) (groups_of groups v)).
  { revert Hfloor. apply Forall_impl. intros c Hc. pose proof normalize_eps_pos.
    unfold above_floor. repeat split; intros; try lra. }
  exists (grouped_vec 0 None dt groups v).
  split; [apply (l2norm_last_axis 0 v 0 None groups dt (length v)); auto; reflexivity|].
  split.
  - rewrite (l2norm_last_axis 0 _ 0 None groups dt (length v)).
    + cbn [on_last]. rewrite grouped_vec_idem; auto. lra.
    + cbn [last_len]. apply grouped_vec_length, Hg.
    + exact Hg.
  - rewrite groups_of_grouped_vec by exact Hg. apply Forall_map.
    revert Hfloor'. apply Forall_impl. intros c Hc.
    pose proof (l2norm_vec_in_band 0 dt c (Rle_refl 0) Hc) as Hb.
    unfold in_band in Hb. lra.
Qed.

Lemma l2norm_idempotent_witness :
  exists out,
    l2norm 0 [3; 4] (-1) 0 None 2 float32 = Ok out /\
    l2norm 0 out (-1) 0 None 2 float32 = Ok out /\
    Forall (fun c => vnorm c = 1) (groups_of 2 out).
Proof.
  apply (l2norm_idempotent [3; 4] 2 float32).
  - right. exists 2%nat. reflexivity.
  - repeat constructor; simpl; rewrite vnorm_singleton, Rabs_pos_eq by lra;
      unfold normalize_eps; lra.
Defined.

(** ** Grouped normalisation *)

(** C4 (the code departs from the claim): along axis 0 with two groups
    the column [(3, 4)] comes back as [(3/5, 4/5)], normalised across
    the two groups as one vector, where normalising each one-entry
    group on its own and joining them gives [(1, 1)]: after [stack]
    axis 0 is the group axis, and [dim = 0] still names it. *)
Theorem l2norm_axis0_groups_mixed :
  l2norm 1 [[3]; [4]] 0 0 None 2 float32 = Ok [[3 / 5]; [4 / 5]] /\
  normalize_slices_spec 1 [[3]; [4]] 0 0 None 2 float32 = Ok [[1]; [1]].
Proof.
  split.
  - unfold l2norm. rewrite !resolve_dim_first. hard_branch.
    unfold normalize0, norm0. teval. rewrite sqrt_3_4.
    unfold normalize_eps. rewrite Rmax_right by lra. reflexivity.
  - unfold normalize_slices_spec, l2norm. rewrite !resolve_dim_first. hard_branch.
    unfold normalize0, norm0. teval.
    unfold sq. rewrite !sqrt_square by lra.
    unfold normalize_eps. rewrite !Rmax_right by lra.
    tensor_eq ltac:(lra).
Qed.

(** ** The two enforcement policies of [NormLinear] *)

(** C2 (the code departs from the claim): a projection normalised along
    the output axis in two groups, whose stored column [(1, 1)] has
    norm 1 in each group.  Read through the parametrization the weight
    becomes [(1/sqrt 2, 1/sqrt 2)], so on the input [[1]] the eager
    policy answers [1 / sqrt 2 / 2] twice and the lazy policy [1/2]
    twice. *)
Theorem NormLinear_policies_differ_on_out_axis_groups :
  unit_norm_invariant (nl_l2norm (out_axis_projection true))
                      (nl_linear (out_axis_projection true)) /\
  nl_linear (out_axis_projection true) = nl_linear (out_axis_projection false) /\
  (exists y, NormLinear_forward (out_axis_projection true) 0 [1] = Ok [y; y] /\ y < 1 / 2) /\
  NormLinear_forward (out_axis_projection false) 0 [1] = Ok [1 / 2; 1 / 2].
Proof.
  repeat split.
  - unfold unit_norm_invariant, out_axis_projection, groups_in_band. simpl.
    teval. repeat first [apply Forall_nil | apply Forall_cons];
      unfold in_band; rewrite vnorm_singleton, Rabs_R1; lra.
  - exists (1 / sqrt (sq 1 + sq 1) / 2).
    pose proof sqrt_2_pos as Hs. split.
    + unfold NormLinear_forward, NormLinear_weight, L2Norm_forward, out_axis_projection.
      cbn [nl_parametrize nl_l2norm nl_linear nl_dtype nl_scale l2_dim l2_norm_eps l2_groups].
      unfold l2norm. rewrite !resolve_dim_first. hard_branch.
      unfold normalize0, norm0. teval.
      unfold normalize_eps. rewrite !Rmax_right by lra.
      tensor_eq ltac:(field; lra).
    + apply Rmult_lt_reg_r with (r := 2 * sqrt (sq 1 + sq 1)); [lra|].
      field_simplify; lra.
  - unfold NormLinear_forward, NormLinear_weight, out_axis_projection.
    cbn [nl_parametrize nl_l2norm nl_linear nl_dtype nl_scale].
    teval. tensor_eq ltac:(field).
Qed.

(** ** Construction *)

(** C7: when one of the ten per-layer scale hyperparameters is a tuple
    whose length is not [depth], [nGPT.__init__] raises: it never
    returns a network, and once [1 / depth] and the embedding are
    through, what it raises is the [AssertionError] of [cast_tuple].
    Construction can therefore succeed only when every such tuple has
    length [depth]. *)
Theorem nGPT_init_rejects_wrong_length (c : nGPT_config) (dt : dtype)
  (rotary_embed : tensor R 4 -> tensor R 4) (draw : nat -> nat -> tensor R 2)
  (l : list (option R)) :
  In (HTuple l) (scale_hparams c) ->
  length l <> depth c ->
  (exists e, nGPT_init c dt rotary_embed draw = Err e) /\
  (forall net, nGPT_init c dt rotary_embed draw <> Ok net) /\
  (depth c <> 0%nat ->
   is_ok (NormLinear_init (dim c) (num_tokens c) true (negb (manual_norm_weights c))
            (norm_eps c) (num_hyperspheres c) dt (draw 0%nat 0%nat)) = true ->
   nGPT_init c dt rotary_embed draw = Err AssertionError).
Proof.
  intros Hin Hlen.
  assert (Hseq := sequence_cast_tuple_error (scale_hparams c) (depth c) l Hin Hlen).
  assert (Herr : exists e, nGPT_init c dt rotary_embed draw = Err e).
  { unfold nGPT_init. destruct (depth c =? 0)%nat; cbn [bind]; [eauto|].
    destruct (NormLinear_init _ _ _ _ _ _ _ _); cbn [bind]; [|eauto].
    rewrite Hseq. cbn [bind]. eauto. }
  split; [exact Herr|]. split.
  - intros net E. destruct Herr as [e He]. congruence.
  - intros Hd Hemb. unfold nGPT_init.
    destruct (Nat.eqb_spec (depth c) 0); [contradiction|]. cbn [bind].
    destruct (NormLinear_init _ _ _ _ _ _ _ _); [|discriminate]. cbn [bind].
    rewrite Hseq. reflexivity.
Qed.

Lemma nGPT_init_rejects_wrong_length_witness :
  (exists e, nGPT_init config_bad_tuple float32 (fun t => t) (fun _ _ => [[1]]) = Err e) /\
  (forall net, nGPT_init config_bad_tuple float32 (fun t => t) (fun _ _ => [[1]]) <> Ok net) /\
  (depth config_bad_tuple <> 0%nat ->
   is_ok (NormLinear_init (dim config_bad_tuple) (num_tokens config_bad_tuple) true
            (negb (manual_norm_weights config_bad_tuple)) (norm_eps config_bad_tuple)
            (num_hyperspheres config_bad_tuple) float32 [[1]]) = true ->
   nGPT_init config_bad_tuple float32 (fun t => t) (fun _ _ => [[1]]) = Err AssertionError).
Proof.
  apply (nGPT_init_rejects_wrong_length config_bad_tuple float32 (fun t => t)
           (fun _ _ => [[1]]) [Some 1; Some 1]).
  - simpl. tauto.
  - simpl. lia.
Defined.

(** ** Tied and untied logits *)

(** C6 (the code departs from the claim): with two hyperspheres the
    separate projection multiplies its output by [groups ** -1 = 1/2],
    the tied path does not.  On the weight [[1, 0]] and the hidden
    state [[1, 0]] the dot product against the table is 1, the
    projection answers 1/2. *)
Theorem tied_logits_miss_group_scale :
  NormLinear_init 2 1 true false 0 2 float32 [[1; 0]] = Ok two_sphere_projection /\
  NormLinear_weight two_sphere_projection = Ok [[1; 0]] /\
  tied_logits [[1; 0]] [[[1; 0]]] = [[[1]]] /\
  NormLinear_forward two_sphere_projection 2 [[[1; 0]]] = Ok [[[1 / 2]]].
Proof.
  repeat split.
  - unfold NormLinear_init, NormLinear_norm_weights_, NormLinear_weight, L2Norm_forward.
    cbn [Nat.eqb nl_parametrize nl_l2norm nl_linear nl_dtype negb bind
         l2_dim l2_norm_eps l2_groups].
    unfold l2norm. rewrite !resolve_dim_last. hard_branch.
    unfold normalize0, norm0. teval.
    unfold two_sphere_projection, set_linear.
    cbn [nl_dim nl_dim_out nl_dtype nl_scale nl_parametrize nl_l2norm].
    unfold sq, normalize_eps.
    rewrite sqrt_square by lra. rewrite Rmult_0_l, sqrt_0.
    rewrite Rmax_right by lra. rewrite Rmax_left by lra.
    do 2 f_equal. tensor_eq ltac:(lra).
  - unfold tied_logits. teval. tensor_eq ltac:(lra).
  - unfold NormLinear_forward, NormLinear_weight, two_sphere_projection.
    cbn [nl_parametrize nl_linear nl_scale bind]. teval.
    tensor_eq ltac:(simpl; lra).
Qed.


(** ** The renormalisation pass *)




(** ** The spherical residual wrapper *)

(** C1 (as the claim has it, refuted): the input [[1]] has norm 1 and
    the wrapped block answers [[-1]]; with branch scale 1/2 the
    interpolation meets at the zero vector, which the outer Normalizer
    leaves at zero. *)
Lemma Residual_unit_input_sent_to_zero :
  all_last (fun v => vnorm v = 1) 2 [[[1]]] /\
  exists out,
    Residual_forward 2 negate negating_residual float32 [[[1]]] = Ok (out, None) /\
    ~ all_last (fun v => vnorm v = 1) 2 out.
Proof.
  split.
  - cbn [all_last]. repeat first [apply Forall_nil | apply Forall_cons].
    rewrite vnorm_singleton, Rabs_R1. reflexivity.
  - exists [[[0]]]. split.
    + unfold Residual_forward, Residual_fused, negate, L2Norm_forward, negating_residual.
      cbn [res_fn res_l2norm res_branch_scale l2_dim l2_norm_eps l2_groups bind fst snd
           sc_scale sc_forward_scale].
      unfold l2norm. rewrite !resolve_dim_last.
      change (1 <? 1)%nat with false. cbv iota. cbn [bind].
      hard_branch. unfold normalize0, norm0. teval.
      replace (sqrt (sq (- (1)))) with 1
        by (symmetry; apply sqrt_lem_1; unfold sq; lra).
      unfold normalize_eps. rewrite (Rmax_right _ 1) by lra.
      replace (1 + 1 * (1 / 2) * (- (1) / 1 - 1)) with 0 by lra.
      unfold sq. rewrite Rmult_0_l, sqrt_0. rewrite Rmax_left by lra.
      do 2 f_equal. tensor_eq ltac:(lra).
    + intros H. simpl in H.
      inversion H as [|? ? H1 _]; subst. inversion H1 as [|? ? H2 _]; subst.
      rewrite vnorm_singleton, Rabs_R0 in H2. lra.
Qed.

(** C1 (amended): let [x] and the block output [o] have one shape, its
    last axis of length [L] cut evenly by the group count, let the
    tolerance lie in [[0, 1)] and the branch scale have [L] channels,
    each of size at most [a < 1], and let every group of every vector
    of [x] have norm at least [rho].  If [(1 - a) * rho - a * (1 +
    norm_eps)], which bounds the norm of every group of the
    interpolation from below, is positive and not under the floor of
    the Normalizer, the wrapper returns and every group of every vector
    of its primary output has norm 1 up to [norm_eps]; the rest of a
    tuple output passes through.  For unit-norm input and no tolerance
    the condition reads [a < 1/2], up to the floor. *)
Theorem Residual_output_on_sphere {M Rest : Type} (n : nat)
  (apply : M -> tensor R (S n) -> result (tensor R (S n) * option Rest))
  (r : Residual M) (dt : dtype) (x o : tensor R (S n)) (rest : option Rest)
  (L : nat) (a rho : R) :
  l2_dim (res_l2norm r) = (-1)%Z ->
  0 <= l2_norm_eps (res_l2norm r) < 1 ->
  (l2_groups (res_l2norm r) <= 1)%nat \/ even_chunks (l2_groups (res_l2norm r)) L ->
  last_len L n x ->
  last_len L n o ->
  same_shape (S n) x o = true ->
  length (Scale_forward (res_branch_scale r)) = L ->
  0 <= a < 1 ->
  Forall (fun w => Rabs w <= a) (Scale_forward (res_branch_scale r)) ->
  all_last (fun v => Forall (fun c => rho <= vnorm c)
                            (groups_of (l2_groups (res_l2norm r)) v)) n x ->
  above_floor (l2_norm_eps (res_l2norm r)) dt
    ((1 - a) * rho - a * (1 + l2_norm_eps (res_l2norm r))) ->
  apply (res_fn r) x = Ok (o, rest) ->
  exists out,
    Residual_forward n apply r dt x = Ok (out, rest) /\
    all_last (groups_in_band (l2_norm_eps (res_l2norm r)) (l2_groups (res_l2norm r))) n out.
Proof.
  intros Hdim Htol Hg Hx Ho _ Hw Ha Hwa Hrho Hfloor Happ.
  set (ne := l2_norm_eps (res_l2norm r)) in *.
  set (g := l2_groups (res_l2norm r)) in *.
  set (w := Scale_forward (res_branch_scale r)) in *.
  set (o' := on_last (grouped_vec ne None dt g) n o).
  assert (Hlen : forall v : list R, length v = L -> length (grouped_vec ne None dt g v) = L).
  { intros v Hv. rewrite grouped_vec_length; [exact Hv|]. rewrite Hv. exact Hg. }
  assert (Ho' : last_len L n o') by (apply (last_len_on_last _ L L); auto).
  assert (Hf : last_len L n (lerp n x o' w)).
  { apply last_len_zip_last; auto. intros u v Hu Hv. apply lerp_vec_length; auto. }
  exists (on_last (grouped_vec ne None dt g) n (lerp n x o' w)).
  split.
  - unfold Residual_forward, Residual_fused. rewrite Happ. cbn [bind fst snd].
    unfold L2Norm_forward. rewrite Hdim.
    rewrite (l2norm_last_axis n o _ None _ dt L Ho Hg). cbn [bind].
    fold ne g w o'.
    rewrite (l2norm_last_axis n _ _ None _ dt L Hf Hg). reflexivity.
  - apply (all_last_on_last
             (fun v => length v = L /\
                       Forall (fun c => above_floor ne dt (vnorm c)) (groups_of g v))).
    { intros v [Hv Hall]. unfold groups_in_band.
      rewrite groups_of_grouped_vec by (rewrite Hv; exact Hg).
      apply Forall_map. revert Hall. apply Forall_impl. intros c Hc.
      apply l2norm_vec_in_band; [lra|exact Hc]. }
    unfold lerp.
    apply (all_last_zip_last
             (fun u => length u = L /\ Forall (fun c => rho <= vnorm c) (groups_of g u))
             (fun v => length v = L /\ Forall (fun c => vnorm c <= 1 + ne) (groups_of g v))).
    + intros u v [Hu Hur] [Hv Hvt]. split; [apply lerp_vec_length; auto|].
      pose proof (lerp_vec_groups_lower g L a rho (1 + ne) u v w Ha Hg Hu Hv Hw Hwa Hur Hvt)
        as Hlow.
      revert Hlow. apply Forall_impl. intros c Hc.
      apply (above_floor_mono ne dt _ _ Hfloor Hc).
    + apply all_last_and; [apply last_len_all_last, Hx|exact Hrho].
    + apply (all_last_on_last (fun v => length v = L)).
      * intros v Hv. split; [apply Hlen, Hv|].
        rewrite groups_of_grouped_vec by (rewrite Hv; exact Hg).
        apply Forall_map. apply Forall_forall. intros c _.
        apply l2norm_vec_norm_le, Htol.
      * apply last_len_all_last, Ho.
Qed.

Lemma Residual_output_on_sphere_witness :
  exists out,
    Residual_forward 2 negate quarter_residual float32 [[[1]]] = Ok (out, None) /\
    all_last (groups_in_band 0 1) 2 out.
Proof.
  apply (Residual_output_on_sphere 2 negate quarter_residual float32 [[[1]]] [[[-1]]]
           None 1 (1 / 4) 1).
  - reflexivity.
  - simpl. lra.
  - left. simpl. lia.
  - simpl. repeat split; try discriminate; repeat constructor; discriminate.
  - simpl. repeat split; try discriminate; repeat constructor; discriminate.
  - reflexivity.
  - reflexivity.
  - lra.
  - unfold Scale_forward, quarter_residual. simpl.
    constructor; [|constructor]. rewrite Rabs_pos_eq; lra.
  - cbn [all_last groups_of Nat.ltb Nat.leb l2_groups res_l2norm quarter_residual].
    repeat first [apply Forall_cons | apply Forall_nil].
    rewrite vnorm_singleton, Rabs_R1. lra.
  - cbn [l2_norm_eps res_l2norm quarter_residual].
    unfold above_floor, normalize_eps. repeat split; intros; lra.
  - reflexivity.
Defined.

(** ** Fully masked rows *)




(** ** The value residual *)



(** * Further properties of the code *)

(** ** More on [l2norm] along the last axis *)

Lemma vnorm_opp (v : list R) : vnorm (map Ropp v) = vnorm v.
Proof.
  unfold vnorm. f_equal. induction v as [|x v IH]; simpl; [reflexivity|].
  rewrite IH. unfold sq. ring.
Qed.

Lemma l2norm_vec_opp (norm_eps : R) (eps : option R) (dt : dtype) (u : list R) :
  l2norm_vec norm_eps eps dt (map Ropp u) = map Ropp (l2norm_vec norm_eps eps dt u).
Proof.
  unfold l2norm_vec. destruct (Req_dec_T norm_eps 0).
  - unfold hard_vec. rewrite vnorm_opp, !map_map. apply map_ext. intros x.
    unfold Rdiv. ring.
  - unfold soft_vec. cbv zeta. rewrite vnorm_opp, !map_map. apply map_ext. intros x.
    unfold Rdiv. ring.
Qed.

(** The divisor [l2norm] uses on one vector. *)
Lemma l2norm_vec_divides (norm_eps : R) (dt : dtype) (u : list R) :
  exists d, 0 < d /\ l2norm_vec norm_eps None dt u = map (fun x => x / d) u.
Proof.
  unfold l2norm_vec. destruct (Req_dec_T norm_eps 0).
  - exists (Rmax normalize_eps (vnorm u)). split; [|reflexivity].
    pose proof normalize_eps_pos. pose proof (Rmax_l normalize_eps (vnorm u)). lra.
  - cbn [default]. unfold soft_vec. cbv zeta.
    eexists. split; [|reflexivity].
    pose proof (default_eps_pos dt).
    match goal with |- 0 < Rmax ?a ?b => pose proof (Rmax_l a b) end. lra.
Qed.

(** X1: for a tolerance in [[0, 1)] and a group count that is 1 or cuts
    the vector evenly, [l2norm] along the last axis hands the zero
    vector back: it divides by the floor, never by zero. *)
Theorem l2norm_zero_vector (L : nat) (norm_eps : R) (groups : nat) (dt : dtype) :
  0 <= norm_eps < 1 ->
  (groups <= 1)%nat \/ even_chunks groups L ->
  l2norm 0 (repeat 0 L) (-1) norm_eps None groups dt = Ok (repeat 0 L).
Proof.
  intros _ Hg.
  assert (Hlen : length (repeat 0 L) = L) by apply repeat_length.
  rewrite (l2norm_last_axis 0 _ norm_eps None groups dt L Hlen Hg). f_equal.
  cbn [on_last]. unfold grouped_vec.
  rewrite <- Hlen in Hg.
  rewrite (map_ext_Forall (Forall (fun x => x = 0)) _ (fun c => c)).
  - rewrite map_id. apply concat_groups_of, Hg.
  - apply Forall_forall. intros c Hc. apply Forall_forall. intros x Hx.
    apply (repeat_spec L 0 x). apply (In_groups_of groups _ c x Hg Hc Hx).
  - intros c Hc. apply l2norm_vec_zeros, Hc.
Qed.

Lemma l2norm_zero_vector_witness :
  l2norm 0 (repeat 0 4) (-1) (1 / 2) None 2 float32 = Ok (repeat 0 4%nat).
Proof.
  apply (l2norm_zero_vector 4 (1 / 2) 2 float32).
  - lra.
  - right. exists 2%nat. reflexivity.
Defined.

(** X2: with [norm_eps = 0] the Normalizer does not see a positive
    factor: for [c > 0], [c * v] and [v] have one image, as long as the
    group count is 1 or cuts [v] evenly and no group of either vector
    is under the floor [1e-12]. *)
Theorem l2norm_scale_invariant (v : list R) (c : R) (groups : nat) (dt : dtype) :
  0 < c ->
  (groups <= 1)%nat \/ even_chunks groups (length v) ->
  Forall (fun u => normalize_eps <= vnorm u /\ normalize_eps <= c * vnorm u)
         (groups_of groups v) ->
  l2norm 0 (map (Rmult c) v) (-1) 0 None groups dt
  = l2norm 0 v (-1) 0 None groups dt.
Proof.
  intros Hc Hg Hfloor.
  rewrite (l2norm_last_axis 0 (map (Rmult c) v) 0 None groups dt (length v))
    by (auto; apply length_map).
  rewrite (l2norm_last_axis 0 v 0 None groups dt (length v)) by (auto; reflexivity).
  f_equal. cbn [on_last]. unfold grouped_vec. f_equal.
  rewrite groups_of_map, map_map.
  apply (map_ext_Forall _ _ _ _ Hfloor). intros u [Hu Hcu].
  unfold l2norm_vec. destruct (Req_dec_T 0 0) as [_|?]; [|lra].
  unfold hard_vec. rewrite vnorm_scale by lra.
  rewrite !Rmax_right by assumption.
  rewrite map_map. apply map_ext. intros x.
  pose proof normalize_eps_pos. field. split; lra.
Qed.

Lemma l2norm_scale_invariant_witness :
  l2norm 0 (map (Rmult 2) [3; 4]) (-1) 0 None 1 float32
  = l2norm 0 [3; 4] (-1) 0 None 1 float32.
Proof.
  apply (l2norm_scale_invariant [3; 4] 2 1 float32).
  - lra.
  - left. lia.
  - unfold groups_of. simpl. repeat first [apply Forall_nil | apply Forall_cons].
    assert (E : vnorm [3; 4] = 5).
    { unfold vnorm. simpl. unfold sq. replace (3 * 3 + (4 * 4 + 0)) with (5 * 5) by ring.
      apply sqrt_square. lra. }
    rewrite E. unfold normalize_eps. lra.
Defined.

(** X3: the Normalizer is odd: for a tolerance in [[0, 1)] and a group
    count that is 1 or cuts [v] evenly, negating the input negates the
    output, also under the floor. *)
Theorem l2norm_odd (v : list R) (norm_eps : R) (groups : nat) (dt : dtype) :
  0 <= norm_eps < 1 ->
  (groups <= 1)%nat \/ even_chunks groups (length v) ->
  l2norm 0 (map Ropp v) (-1) norm_eps None groups dt
  = (out <- l2norm 0 v (-1) norm_eps None groups dt ;; Ok (map Ropp out)).
Proof.
  intros _ Hg.
  rewrite (l2norm_last_axis 0 (map Ropp v) norm_eps None groups dt (length v))
    by (auto; apply length_map).
  rewrite (l2norm_last_axis 0 v norm_eps None groups dt (length v)) by (auto; reflexivity).
  cbn [bind on_last]. f_equal. unfold grouped_vec.
  rewrite groups_of_map, map_map, concat_map, map_map. f_equal.
  apply map_ext. intros u. apply l2norm_vec_opp.
Qed.

Lemma l2norm_odd_witness :
  l2norm 0 (map Ropp [3; 4]) (-1) 0 None 2 float32
  = (out <- l2norm 0 [3; 4] (-1) 0 None 2 float32 ;; Ok (map Ropp out)).
Proof.
  apply (l2norm_odd [3; 4] 0 2 float32).
  - lra.
  - right. exists 2%nat. reflexivity.
Defined.

(** X4: under a tolerance [norm_eps > 0], on a vector whose groups all
    have a norm above the floor, the norm of every output group is the
    norm of the input group clamped into
    [[1 - norm_eps, 1 + norm_eps]]: a group that was outside the band
    ends exactly on the nearer edge. *)
Theorem l2norm_soft_clamps_norm (v : list R) (norm_eps : R) (groups : nat) (dt : dtype) :
  0 < norm_eps ->
  (groups <= 1)%nat \/ even_chunks groups (length v) ->
  Forall (fun c => above_floor norm_eps dt (vnorm c)) (groups_of groups v) ->
  exists out,
    l2norm 0 v (-1) norm_eps None groups dt = Ok out /\
    map vnorm (groups_of groups out)
    = map (fun c => clamp (1 - norm_eps) (1 + norm_eps) (vnorm c)) (groups_of groups v).
Proof.
  intros Htol Hg Hfloor.
  exists (grouped_vec norm_eps None dt groups v).
  split; [apply (l2norm_last_axis 0 v norm_eps None groups dt (length v)); auto;
          reflexivity|].
  rewrite groups_of_grouped_vec by exact Hg. rewrite map_map.
  apply (map_ext_Forall _ _ _ _ Hfloor). intros c (Hpos & _ & Hsoft).
  unfold l2norm_vec. destruct (Req_dec_T norm_eps 0) as [E|NE]; [lra|].
  cbn [default]. apply soft_vec_norm; auto; try lra.
  pose proof (default_eps_pos dt). lra.
Qed.

Lemma l2norm_soft_clamps_norm_witness :
  exists out,
    l2norm 0 [3; 4] (-1) (1 / 2) None 1 float32 = Ok out /\
    map vnorm (groups_of 1 out)
    = map (fun c => clamp (1 - 1 / 2) (1 + 1 / 2) (vnorm c)) (groups_of 1 [3; 4]).
Proof.
  apply (l2norm_soft_clamps_norm [3; 4] (1 / 2) 1 float32).
  - lra.
  - left. lia.
  - unfold groups_of. simpl. repeat first [apply Forall_nil | apply Forall_cons].
    assert (E : vnorm [3; 4] = 5).
    { unfold vnorm. simpl. unfold sq. replace (3 * 3 + (4 * 4 + 0)) with (5 * 5) by ring.
      apply sqrt_square. lra. }
    rewrite E. unfold above_floor, default_eps, normalize_eps. simpl.
    repeat split; intros; lra.
Defined.

(** X5: for a tolerance in [[0, 1)] and a group count that is 1 or cuts
    [v] evenly, the Normalizer returns and only ever divides a group by
    a positive number: it keeps every direction and every sign, on
    every input. *)
Theorem l2norm_positive_rescaling (v : list R) (norm_eps : R) (groups : nat)
  (dt : dtype) :
  0 <= norm_eps < 1 ->
  (groups <= 1)%nat \/ even_chunks groups (length v) ->
  exists out,
    l2norm 0 v (-1) norm_eps None groups dt = Ok out /\
    Forall2 (fun c o => exists d, 0 < d /\ o = map (fun x => x / d) c)
            (groups_of groups v) (groups_of groups out).
Proof.
  intros _ Hg.
  exists (grouped_vec norm_eps None dt groups v).
  split; [apply (l2norm_last_axis 0 v norm_eps None groups dt (length v)); auto;
          reflexivity|].
  rewrite groups_of_grouped_vec by exact Hg.
  induction (groups_of groups v) as [|c cs IH]; [constructor|].
  cbn [map]. constructor; [|exact IH].
  destruct (l2norm_vec_divides norm_eps dt c) as (d & Hd & E).
  exists d. split; assumption.
Qed.

Lemma l2norm_positive_rescaling_witness :
  exists out,
    l2norm 0 [3; 4] (-1) 0 None 2 float32 = Ok out /\
    Forall2 (fun c o => exists d, 0 < d /\ o = map (fun x => x / d) c)
            (groups_of 2 [3; 4]) (groups_of 2 out).
Proof.
  apply (l2norm_positive_rescaling [3; 4] 0 2 float32).
  - lra.
  - right. exists 2%nat. reflexivity.
Defined.

(** ** [l2norm]: what makes it raise *)

Lemma split_list_ragged {A : Type} (s fuel : nat) (l : list A) :
  (0 < s)%nat -> (length l mod s <> 0)%nat -> (length l <= fuel)%nat ->
  Exists (fun c => length c <> s) (split_list fuel s l).
Proof.
  intros Hs. revert l. induction fuel as [|fuel IH]; intros l Hmod Hfuel.
  - destruct l; [|simpl in Hfuel; lia].
    simpl in Hmod. rewrite Nat.Div0.mod_0_l in Hmod. contradiction.
  - destruct l as [|x l].
    + simpl in Hmod. rewrite Nat.Div0.mod_0_l in Hmod. contradiction.
    + cbn [split_list].
      destruct (Nat.le_gt_cases (length (x :: l)) s) as [Hle|Hgt].
      * apply Exists_cons_hd. rewrite firstn_all2 by exact Hle.
        intros E. rewrite E, Nat.Div0.mod_same in Hmod. contradiction.
      * apply Exists_cons_tl. apply IH.
        -- rewrite length_skipn.
           replace (length (x :: l)) with ((length (x :: l) - s) + 1 * s)%nat in Hmod by lia.
           rewrite Nat.Div0.mod_add in Hmod. exact Hmod.
        -- rewrite length_skipn. cbn [length] in *. lia.
Qed.

Lemma chunk_size_le (g L : nat) : (0 < g)%nat -> (0 < L)%nat -> (chunk_size g L <= L)%nat.
Proof.
  intros Hg HL. unfold chunk_size.
  apply Nat.Div0.div_le_upper_bound. nia.
Qed.

Lemma not_even_chunks_mod (g L : nat) :
  (0 < g)%nat -> ~ even_chunks g L ->
  (0 < L)%nat /\ (L mod chunk_size g L <> 0)%nat.
Proof.
  intros Hg Hne.
  assert (HL : (0 < L)%nat).
  { destruct L; [|lia]. exfalso. apply Hne. exists 0%nat. reflexivity. }
  split; [exact HL|]. intros Hmod. apply Hne.
  exists (L / chunk_size g L)%nat.
  pose proof (Nat.div_mod_eq L (chunk_size g L)). lia.
Qed.

Lemma same_shape_vectors_false {A : Type} (a b : list A) :
  length a <> length b -> same_shape 1 a b = false.
Proof.
  intros H. cbn [same_shape]. apply Nat.eqb_neq in H. rewrite H. reflexivity.
Qed.

(** X6: with more than one group, a group count for which [chunk] does
    not cut the vector into chunks of one size makes [stack] raise
    [RuntimeError]. *)
Theorem l2norm_uneven_groups_raise (v : list R) (norm_eps : R) (eps : option R)
  (groups : nat) (dt : dtype) :
  (1 < groups)%nat ->
  ~ even_chunks groups (length v) ->
  l2norm 0 v (-1) norm_eps eps groups dt = Err RuntimeError.
Proof.
  intros Hg Hne.
  destruct (not_even_chunks_mod groups (length v)) as [HL Hmod]; [lia|exact Hne|].
  pose proof (chunk_size_pos groups (length v) ltac:(lia) HL) as Hs.
  pose proof (chunk_size_le groups (length v) ltac:(lia) HL) as Hle.
  unfold l2norm. destruct (Nat.ltb_spec 1 groups) as [_|?]; [|lia].
  rewrite resolve_dim_last. cbn [bind chunk].
  unfold chunk_list. fold (chunk_size groups (length v)).
  destruct (Nat.eqb_spec (length v) 0) as [E|_]; [lia|].
  pose proof (split_list_ragged (chunk_size groups (length v)) (length v) v Hs Hmod
                (Nat.le_refl _)) as Hex.
  destruct v as [|x v]; [simpl in HL; lia|].
  cbn [length] in *. cbn [split_list] in *.
  inversion Hex as [? ? Hhd|? ? Htl]; subst.
  - exfalso. apply Hhd. rewrite length_firstn. cbn [length]. lia.
  - cbn [stack bind].
    match goal with
    | |- context [forallb ?f ?l] => assert (Hf : forallb f l = false)
    end.
    { apply not_true_is_false. intros Hall.
      rewrite forallb_forall in Hall.
      apply Exists_exists in Htl as (c & Hc & Hlen).
      specialize (Hall c Hc).
      rewrite same_shape_vectors_false in Hall; [discriminate|].
      rewrite length_firstn. cbn [length]. lia. }
    rewrite Hf. reflexivity.
Qed.

Lemma l2norm_uneven_groups_raise_witness :
  l2norm 0 [1; 2; 3] (-1) 0 None 2 float32 = Err RuntimeError.
Proof.
  apply (l2norm_uneven_groups_raise [1; 2; 3] 0 None 2 float32).
  - lia.
  - intros [k Hk]. unfold chunk_size in Hk. simpl in Hk. lia.
Defined.

(** X7: with one group [l2norm] returns exactly when [dim] names an
    axis of the tensor, counted from either end; any other [dim] is an
    [IndexError]. *)
Theorem l2norm_dim_range (n : nat) (t : tensor R (S n)) (dim : Z) (norm_eps : R)
  (eps : option R) (groups : nat) (dt : dtype) :
  (groups <= 1)%nat ->
  if ((- Z.of_nat (S n) <=? dim) && (dim <? Z.of_nat (S n)))%Z
  then is_ok (l2norm n t dim norm_eps eps groups dt) = true
  else l2norm n t dim norm_eps eps groups dt = Err IndexError.
Proof.
  intros Hg. unfold l2norm, resolve_dim.
  destruct (Nat.ltb_spec 1 groups) as [?|_]; [lia|].
  destruct (Z.leb_spec (- Z.of_nat (S n)) dim), (Z.ltb_spec dim (Z.of_nat (S n))),
    (Z.leb_spec 0 dim), (Z.ltb_spec dim 0); cbn [andb bind is_ok]; try reflexivity; lia.
Qed.

Lemma l2norm_dim_range_witness :
  l2norm 0 [3; 4] 1 0 None 1 float32 = Err IndexError.
Proof.
  apply (l2norm_dim_range 0 [3; 4] 1 0 None 1 float32). lia.
Defined.

(** ** [Scale] *)

(** X8: at construction, for a [scale] that is not zero, the learned
    scale answers [init] in each of its [dim] channels, whatever the
    [scale] hyperparameter. *)
Theorem Scale_forward_at_init (dim : nat) (init scale : R) :
  scale <> 0 ->
  exists s, Scale_init dim init scale = Ok s /\ Scale_forward s = repeat init dim.
Proof.
  intros Hs. unfold Scale_init. destruct (Req_dec_T scale 0) as [E|_]; [contradiction|].
  eexists. split; [reflexivity|].
  unfold Scale_forward. cbn [sc_scale sc_forward_scale].
  induction dim as [|dim IH]; simpl; [reflexivity|]. f_equal; [field; exact Hs|exact IH].
Qed.

Lemma Scale_forward_at_init_witness :
  exists s, Scale_init 3 (1 / 4) 2 = Ok s /\ Scale_forward s = repeat (1 / 4) 3.
Proof.
  apply (Scale_forward_at_init 3 (1 / 4) 2). lra.
Defined.

(** ** [NormLinear.forward] *)

Lemma sumsq_concat (gs : list (list R)) :
  fold_right Rplus 0 (map sq (concat gs))
  = fold_right Rplus 0 (map (fun c => fold_right Rplus 0 (map sq c)) gs).
Proof.
  induction gs as [|c gs IH]; simpl; [reflexivity|].
  rewrite map_app, fold_right_app, <- IH.
  generalize (fold_right Rplus 0 (map sq (concat gs))). intros r.
  induction (map sq c) as [|y ys IHy]; simpl; [lra|]. rewrite IHy. lra.
Qed.

Lemma sum_bounded (f : list R -> R) (gs : list (list R)) (b : R) :
  Forall (fun c => f c <= b) gs ->
  fold_right Rplus 0 (map f gs) <= INR (length gs) * b.
Proof.
  induction 1 as [|c gs Hc Hgs IH].
  - simpl. lra.
  - cbn [map fold_right length]. rewrite S_INR. lra.
Qed.

Lemma groups_of_count {A : Type} (g : nat) (v : list A) :
  (0 < g)%nat ->
  (g <= 1)%nat \/ even_chunks g (length v) ->
  (length (groups_of g v) <= g)%nat.
Proof.
  intros Hg Hev. unfold groups_of.
  destruct (Nat.ltb_spec 1 g) as [Hlt|Hle]; [|simpl; lia].
  destruct Hev as [?|[k Hk]]; [lia|].
  unfold chunk_list. fold (chunk_size g (length v)).
  destruct (Nat.eqb_spec (length v) 0) as [E|NE]; [rewrite repeat_length; lia|].
  assert (Hs : (0 < chunk_size g (length v))%nat) by (apply chunk_size_pos; lia).
  destruct (split_list_pieces (chunk_size g (length v)) k v (length v) Hs Hk
              (Nat.le_refl _)) as (_ & Hlen & _).
  rewrite Hlen.
  assert (Hcover : (length v <= g * chunk_size g (length v))%nat).
  { unfold chunk_size.
    pose proof (Nat.div_mod_eq (length v + g - 1) g) as Hdm.
    pose proof (Nat.mod_upper_bound (length v + g - 1) g ltac:(lia)). lia. }
  nia.
Qed.

Lemma sumsq_groups_bound (ne : R) (g : nat) (v : list R) :
  0 <= ne -> (0 < g)%nat ->
  (g <= 1)%nat \/ even_chunks g (length v) ->
  groups_in_band ne g v ->
  fold_right Rplus 0 (map sq v)
  <= (sqrt (INR g) * (1 + ne)) * (sqrt (INR g) * (1 + ne)).
Proof.
  intros Hne Hg Hev Hb.
  rewrite <- (concat_groups_of g v Hev) at 1. rewrite sumsq_concat.
  assert (Hgs : Forall (fun c => fold_right Rplus 0 (map sq c) <= (1 + ne) * (1 + ne))
                       (groups_of g v)).
  { revert Hb. unfold groups_in_band. apply Forall_impl. intros c [_ Hc].
    pose proof (sumsq_nonneg c) as Hs. pose proof (vnorm_nonneg c) as Hn.
    unfold vnorm in *.
    rewrite <- (sqrt_sqrt _ Hs). nra. }
  pose proof (sum_bounded _ _ _ Hgs) as Hsum.
  pose proof (groups_of_count g v Hg Hev) as Hcount.
  apply le_INR in Hcount.
  pose proof (pos_INR (length (groups_of g v))).
  assert (Hsq : sqrt (INR g) * sqrt (INR g) = INR g) by (apply sqrt_sqrt, pos_INR).
  nra.
Qed.

(** X9: with weight rows and input on the sphere (every group of norm
    within the band) and the multiplier [groups ** -1], the projection
    returns one output per weight row and every output lies within
    [(1 + norm_eps)^2] of zero: with [norm_eps = 0] it is a cosine in
    [[-1, 1]]. *)
Theorem NormLinear_forward_bounded (m : NormLinear) (w : tensor R 2) (x : list R) :
  let g := l2_groups (nl_l2norm m) in
  let ne := l2_norm_eps (nl_l2norm m) in
  NormLinear_weight m = Ok w ->
  (0 < g)%nat ->
  0 <= ne ->
  nl_scale m = / INR g ->
  (g <= 1)%nat \/ even_chunks g (nl_dim m) ->
  length x = nl_dim m ->
  groups_in_band ne g x ->
  Forall (fun row => length row = nl_dim m /\ groups_in_band ne g row) w ->
  exists y,
    NormLinear_forward m 0 x = Ok y /\
    length y = length w /\
    Forall (fun v => - ((1 + ne) * (1 + ne)) <= v <= (1 + ne) * (1 + ne)) y.
Proof.
  intros g ne Hw Hg Hne Hscale Hev Hx Hxb Hrows.
  unfold NormLinear_forward. rewrite Hw. cbn [bind].
  eexists. split; [reflexivity|]. cbn [linear on_last tmap].
  split; [rewrite !length_map; reflexivity|].
  rewrite map_map. apply Forall_map. revert Hrows. apply Forall_impl.
  intros row [Hlen Hrb]. cbn [tmap s_mul Scalar_R]. rewrite Hscale.
  assert (HG : 0 < INR g) by (apply lt_0_INR; exact Hg).
  assert (Hsg : 0 <= sqrt (INR g)) by apply sqrt_pos.
  assert (Hsq : sqrt (INR g) * sqrt (INR g) = INR g) by (apply sqrt_sqrt; lra).
  pose proof (dot_bound x row (sqrt (INR g) * (1 + ne)) (sqrt (INR g) * (1 + ne))
                ltac:(nra) ltac:(nra)
                (sumsq_groups_bound ne g x Hne Hg ltac:(rewrite Hx; exact Hev) Hxb)
                (sumsq_groups_bound ne g row Hne Hg ltac:(rewrite Hlen; exact Hev) Hrb))
    as [Hlo Hhi].
  assert (Hprod : sqrt (INR g) * (1 + ne) * (sqrt (INR g) * (1 + ne))
                  = INR g * ((1 + ne) * (1 + ne))).
  { transitivity ((sqrt (INR g) * sqrt (INR g)) * ((1 + ne) * (1 + ne))); [ring|].
    rewrite Hsq. reflexivity. }
  rewrite Hprod in Hlo, Hhi.
  assert (Hinv : 0 < / INR g) by (apply Rinv_0_lt_compat; exact HG).
  assert (Hone : INR g * / INR g = 1) by (apply Rinv_r; lra).
  change (s_mul (dot x row) (/ INR g)) with (dot x row * / INR g).
  set (B := (1 + ne) * (1 + ne)) in *.
  assert (H1 : dot x row * / INR g <= (INR g * B) * / INR g)
    by (apply Rmult_le_compat_r; lra).
  assert (H2 : (- (INR g * B)) * / INR g <= dot x row * / INR g)
    by (apply Rmult_le_compat_r; lra).
  replace ((INR g * B) * / INR g) with B in H1 by (field; lra).
  replace ((- (INR g * B)) * / INR g) with (- B) in H2 by (field; lra).
  split; assumption.
Qed.

Lemma NormLinear_forward_bounded_witness :
  exists y,
    NormLinear_forward (set_linear two_sphere_projection [[1; 1]]) 0 [1; 1] = Ok y /\
    length y = length [[1; 1]] /\
    Forall (fun v => - ((1 + 0) * (1 + 0)) <= v <= (1 + 0) * (1 + 0)) y.
Proof.
  assert (Hunit : groups_in_band 0 2 [1; 1]).
  { unfold groups_in_band. simpl. teval.
    repeat first [apply Forall_nil | apply Forall_cons];
      unfold in_band; rewrite vnorm_singleton, Rabs_R1; lra. }
  apply (NormLinear_forward_bounded (set_linear two_sphere_projection [[1; 1]])
           [[1; 1]] [1; 1]).
  - reflexivity.
  - simpl. lia.
  - simpl. lra.
  - reflexivity.
  - right. exists 2%nat. reflexivity.
  - reflexivity.
  - exact Hunit.
  - repeat first [apply Forall_nil | apply Forall_cons]. split; [reflexivity|exact Hunit].
Defined.

Lemma dot_linear (a b : R) (x y r : list R) :
  length x = length y ->
  dot (map2 (fun p q => a * p + b * q) x y) r = a * dot x r + b * dot y r.
Proof.
  revert y r. induction x as [|p x IH]; intros [|q y] r Hlen; try discriminate.
  - unfold dot. simpl. lra.
  - destruct r as [|c r].
    + unfold dot. simpl. lra.
    + cbn [map2]. rewrite !dot_cons, IH by (simpl in Hlen; lia). ring.
Qed.

(** X10: the projection has no bias and is linear: on inputs [x] and [y]
    of one length on which it returns [fx] and [fy], it returns
    [a * fx + b * fy] on [a * x + b * y]. *)
Theorem NormLinear_forward_linear (m : NormLinear) (a b : R) (x y fx fy : list R) :
  length x = length y ->
  NormLinear_forward m 0 x = Ok fx ->
  NormLinear_forward m 0 y = Ok fy ->
  NormLinear_forward m 0 (map2 (fun p q => a * p + b * q) x y)
  = Ok (map2 (fun p q => a * p + b * q) fx fy).
Proof.
  unfold NormLinear_forward. intros Hlen Hx Hy.
  destruct (NormLinear_weight m) as [w|e]; [|discriminate].
  cbn [bind linear on_last tmap] in *.
  injection Hx as <-. injection Hy as <-. f_equal.
  rewrite !map_map. rewrite map2_map_same. apply map_ext. intros r.
  cbn [tmap s_mul Scalar_R]. rewrite dot_linear by exact Hlen. ring.
Qed.

Lemma NormLinear_forward_linear_witness :
  NormLinear_forward two_sphere_projection 0
    (map2 (fun p q => 2 * p + 3 * q) [1; 0] [0; 1])
  = Ok (map2 (fun p q => 2 * p + 3 * q) [1 * / INR 2] [0 * / INR 2]).
Proof.
  apply (NormLinear_forward_linear two_sphere_projection 2 3 [1; 0] [0; 1]).
  - reflexivity.
  - unfold NormLinear_forward. simpl. unfold dot. simpl. repeat f_equal; lra.
  - unfold NormLinear_forward. simpl. unfold dot. simpl. repeat f_equal; lra.
Defined.

(** ** [NormLinear.norm_weights_] and [NormLinear.__init__] *)

Lemma map2_scale_columns (x : list R) (T : list (list R)) (D : list R) :
  map2 cons (map2 Rdiv x D) (map2 (fun col d => map (fun y => y / d) col) T D)
  = map2 (fun col d => map (fun y => y / d) col) (map2 cons x T) D.
Proof.
  revert T D. induction x as [|a x IH]; intros [|c T] [|d D]; simpl; try reflexivity.
  f_equal. apply IH.
Qed.

Lemma map2_columns_nil (L : nat) (D : list R) :
  length D = L ->
  map2 (fun (col : list R) d => map (fun y => y / d) col) (repeat [] L) D = repeat [] L.
Proof.
  revert D. induction L as [|L IH]; intros [|d D] H; simpl in *; try reflexivity;
    try discriminate.
  f_equal. apply IH. lia.
Qed.

Lemma transpose_from_scaled (L : nat) (W : list (list R)) (D : list R) :
  length D = L ->
  transpose_from L (map (fun x => map2 Rdiv x D) W)
  = map2 (fun col d => map (fun y => y / d) col) (transpose_from L W) D.
Proof.
  intros HD. unfold transpose_from. induction W as [|x W IH].
  - simpl. symmetry. apply map2_columns_nil, HD.
  - cbn [map fold_right]. rewrite IH. apply map2_scale_columns.
Qed.

Lemma l2norm_vec_divisor (norm_eps : R) (eps : option R) (dt : dtype) (c : list R) :
  map (fun y => y / divisor_of norm_eps eps dt (fold_right Rplus 0 (map sq c))) c
  = l2norm_vec norm_eps eps dt c.
Proof.
  unfold divisor_of, l2norm_vec. destruct (Req_dec_T norm_eps 0); reflexivity.
Qed.

(** Normalising a matrix along axis 0 normalises its columns. *)
Lemma rescale0_columns (norm_eps : R) (eps : option R) (dt : dtype) (L : nat)
  (W : tensor R 2) :
  W <> [] -> Forall (fun r => length r = L) W ->
  transpose_from L (rescale0 (divisor_of norm_eps eps dt) 1 W)
  = map (l2norm_vec norm_eps eps dt) (transpose_from L W).
Proof.
  intros Hne Hrows. unfold rescale0.
  rewrite (sumsq0_columns L W Hne Hrows).
  change (transpose_from L
            (map (fun x => map2 Rdiv x
                    (map (divisor_of norm_eps eps dt)
                       (map (fun col => fold_right Rplus 0 (map sq col))
                          (transpose_from L W)))) W)
          = map (l2norm_vec norm_eps eps dt) (transpose_from L W)).
  rewrite transpose_from_scaled
    by (rewrite !length_map; apply transpose_from_length, Hrows).
  rewrite map_map.
  set (cols := transpose_from L W).
  clear. induction cols as [|c cols IH]; simpl; [reflexivity|].
  rewrite IH. f_equal. apply l2norm_vec_divisor.
Qed.

Lemma rescale0_rows (delta : R -> R) (L : nat) (W : tensor R 2) :
  W <> [] -> Forall (fun r => length r = L) W ->
  rescale0 delta 1 W <> [] /\ Forall (fun r => length r = L) (rescale0 delta 1 W).
Proof.
  intros Hne Hrows. split.
  - unfold rescale0. destruct W; [contradiction|discriminate].
  - unfold rescale0. apply Forall_map. apply Forall_forall. intros c Hc.
    rewrite (rescale0_lengths delta 0 L W Hrows c Hc).
    rewrite Forall_forall in Hrows. apply Hrows, Hc.
Qed.

(** What [l2norm] makes of a weight whose norms are above the floor. *)
Lemma l2norm_weight_on_sphere (l : L2Norm) (dt : dtype) (L : nat) (W : tensor R 2) :
  0 <= l2_norm_eps l ->
  last_len L 1 W ->
  (l2_dim l = (-1)%Z /\ ((l2_groups l <= 1)%nat \/ even_chunks (l2_groups l) L)) \/
  (l2_dim l = 0%Z /\ (l2_groups l <= 1)%nat) ->
  weight_above_floor l dt W ->
  exists W',
    L2Norm_forward l dt 1 W = Ok W' /\
    last_len L 1 W' /\ length W' = length W /\
    unit_norm_invariant l W'.
Proof.
  intros Htol HW Hcase Hfloor. pose proof HW as [Hne Hrows].
  unfold L2Norm_forward, weight_above_floor, unit_norm_invariant in *.
  destruct Hcase as [[Hd Hg]|[Hd Hg]]; rewrite Hd in *.
  - change ((-1 =? 0)%Z) with false in *. cbv iota zeta in *.
    rewrite (l2norm_last_axis 1 W _ None _ dt L HW Hg).
    eexists. split; [reflexivity|]. cbn [on_last].
    split; [split|split].
    + destruct W; [contradiction|discriminate].
    + apply Forall_map. revert Hrows. apply Forall_impl. intros r Hr.
      cbn [last_len] in *. rewrite grouped_vec_length; [exact Hr|]. rewrite Hr. exact Hg.
    + apply length_map.
    + apply Forall_map.
      assert (Hboth : Forall (fun r => length r = L /\
                         Forall (fun c => above_floor (l2_norm_eps l) dt (vnorm c))
                                (groups_of (l2_groups l) r)) W).
      { apply Forall_forall. intros r Hr. rewrite Forall_forall in Hrows, Hfloor.
        split; [apply (Hrows r Hr)|apply (Hfloor r Hr)]. }
      revert Hboth. apply Forall_impl. intros r [Hr Hfl]. unfold groups_in_band.
      rewrite groups_of_grouped_vec by (rewrite Hr; exact Hg).
      apply Forall_map. revert Hfl. apply Forall_impl. intros c Hc.
      apply l2norm_vec_in_band; assumption.
  - change ((0 =? 0)%Z) with true in *. cbv iota zeta in *.
    rewrite (l2norm_first_axis 1 W _ None _ dt (last_len_one_shape L W HW) (or_introl Hg)).
    destruct (Nat.ltb_spec 1 (l2_groups l)) as [?|_]; [lia|].
    eexists. split; [reflexivity|].
    destruct (rescale0_rows (divisor_of (l2_norm_eps l) None dt) L W Hne Hrows)
      as [Hne' Hrows'].
    split; [split; assumption|]. split; [apply length_map|].
    rewrite (transpose_unfold L _ Hne' Hrows').
    rewrite (transpose_unfold L W Hne Hrows) in Hfloor.
    rewrite rescale0_columns by assumption.
    apply Forall_map. revert Hfloor. apply Forall_impl. intros col Hcol.
    unfold groups_in_band, groups_of in *.
    destruct (Nat.ltb_spec 1 (l2_groups l)) as [?|_]; [lia|].
    inversion Hcol as [|? ? Hc _]; subst.
    repeat first [apply Forall_nil | apply Forall_cons].
    apply l2norm_vec_in_band; assumption.
Qed.

(** X11: one renormalisation pass, on a non-empty weight whose norms
    along the normalised axis are above the floor, returns and brings
    the stored weight onto the sphere, under either policy: along the
    input axis for any group count that is 1 or cuts it evenly, along
    the output axis with one group. *)
Theorem NormLinear_norm_weights_on_sphere (m : NormLinear) :
  0 <= l2_norm_eps (nl_l2norm m) ->
  last_len (nl_dim m) 1 (nl_linear m) ->
  (l2_dim (nl_l2norm m) = (-1)%Z /\
   ((l2_groups (nl_l2norm m) <= 1)%nat \/
    even_chunks (l2_groups (nl_l2norm m)) (nl_dim m))) \/
  (l2_dim (nl_l2norm m) = 0%Z /\ (l2_groups (nl_l2norm m) <= 1)%nat) ->
  weight_above_floor (nl_l2norm m) (nl_dtype m) (nl_linear m) ->
  exists m',
    NormLinear_norm_weights_ m = Ok m' /\
    unit_norm_invariant (nl_l2norm m') (nl_linear m') /\
    length (nl_linear m') = length (nl_linear m) /\
    last_len (nl_dim m) 1 (nl_linear m').
Proof.
  intros Htol HW Hcase Hfloor.
  destruct (l2norm_weight_on_sphere _ (nl_dtype m) _ _ Htol HW Hcase Hfloor)
    as (W' & E & HW' & Hlen & Hinv).
  exists (set_linear m W').
  unfold NormLinear_norm_weights_, NormLinear_weight.
  destruct (nl_parametrize m); cbn [bind]; rewrite E; cbn [bind];
    (split; [reflexivity|]); cbn [set_linear nl_linear nl_l2norm]; auto.
Qed.

Lemma NormLinear_norm_weights_on_sphere_witness :
  exists m',
    NormLinear_norm_weights_ (set_linear two_sphere_projection [[3; 4]]) = Ok m' /\
    unit_norm_invariant (nl_l2norm m') (nl_linear m') /\
    length (nl_linear m') = length [[3; 4]] /\
    last_len 2 1 (nl_linear m').
Proof.
  apply (NormLinear_norm_weights_on_sphere (set_linear two_sphere_projection [[3; 4]])).
  - simpl. lra.
  - simpl. split; [discriminate|]. repeat constructor.
  - left. split; [reflexivity|]. right. exists 2%nat. reflexivity.
  - unfold weight_above_floor. simpl. teval.
    repeat first [apply Forall_nil | apply Forall_cons];
      unfold above_floor, normalize_eps; rewrite vnorm_singleton, Rabs_pos_eq by lra;
      repeat split; intros; lra.
Defined.

(** X12: along the last axis [l2norm] treats every vector of a tensor on
    its own: for a tensor with no empty axis whose last axis has length
    [L], and a group count that is 1 or cuts [L] evenly, the image of
    the tensor is, vector by vector, the image of the vector alone. *)
Theorem l2norm_vectorwise (n : nat) (t : tensor R (S n)) (norm_eps : R)
  (eps : option R) (groups : nat) (dt : dtype) (L : nat) :
  last_len L n t ->
  (groups <= 1)%nat \/ even_chunks groups L ->
  exists f,
    (forall v, length v = L -> l2norm 0 v (-1) norm_eps eps groups dt = Ok (f v)) /\
    l2norm n t (-1) norm_eps eps groups dt = Ok (on_last f n t).
Proof.
  intros Ht Hg. exists (grouped_vec norm_eps eps dt groups). split.
  - intros v Hv. apply (l2norm_last_axis 0 v norm_eps eps groups dt L Hv Hg).
  - apply (l2norm_last_axis n t norm_eps eps groups dt L Ht Hg).
Qed.

Lemma l2norm_vectorwise_witness :
  exists f,
    (forall v, length v = 2%nat -> l2norm 0 v (-1) 0 None 2 float32 = Ok (f v)) /\
    l2norm 1 [[3; 4]; [1; 0]] (-1) 0 None 2 float32 = Ok (on_last f 1 [[3; 4]; [1; 0]]).
Proof.
  apply (l2norm_vectorwise 1 [[3; 4]; [1; 0]] 0 None 2 float32 2).
  - simpl. split; [discriminate|]. repeat constructor.
  - right. exists 2%nat. reflexivity.
Defined.

(** ** [cast_tuple] *)

(** X13: [cast_tuple] repeats a scalar or [None] [length] times, hands a
    tuple of that length back as it is, and raises [AssertionError] on
    a tuple of another length, and on nothing else. *)
Theorem cast_tuple_cases (t : hparam) (n : nat) :
  match cast_tuple t n with
  | Ok out =>
      length out = n /\
      match t with
      | HNone => out = repeat None n
      | HFloat x => out = repeat (Some x) n
      | HTuple l => out = l
      end
  | Err e => e = AssertionError /\ exists l, t = HTuple l /\ length l <> n
  end.
Proof.
  unfold cast_tuple. destruct t as [|x|l].
  - rewrite repeat_length, Nat.eqb_refl. split; [apply repeat_length|reflexivity].
  - rewrite repeat_length, Nat.eqb_refl. split; [apply repeat_length|reflexivity].
  - destruct (Nat.eqb_spec (length l) n) as [E|NE]; [auto|].
    split; [reflexivity|]. exists l. auto.
Qed.

(** ** Splitting and merging heads *)

Lemma pieces_length {A : Type} (count size : nat) (l : list A) :
  length (pieces count size l) = count.
Proof.
  revert l. induction count as [|c IH]; intros l; simpl; [reflexivity|].
  f_equal. apply IH.
Qed.

Lemma concat_pieces {A : Type} (count size : nat) (l : list A) :
  length l = (count * size)%nat -> concat (pieces count size l) = l.
Proof.
  revert l. induction count as [|c IH]; intros l Hl.
  - simpl in *. destruct l; [reflexivity|discriminate].
  - cbn [pieces concat]. rewrite IH.
    + apply firstn_skipn.
    + rewrite length_skipn. lia.
Qed.

Lemma pieces_concat {A : Type} (size : nat) (ps : list (list A)) :
  Forall (fun p => length p = size) ps ->
  pieces (length ps) size (concat ps) = ps.
Proof.
  induction 1 as [|p ps Hp Hps IH]; [reflexivity|].
  cbn [length pieces concat].
  rewrite (firstn_app_exact p (concat ps) size Hp).
  rewrite (skipn_app_exact p (concat ps) size Hp).
  f_equal. exact IH.
Qed.

Lemma length_concat_rect {A : Type} (size : nat) (ps : list (list A)) :
  Forall (fun p => length p = size) ps ->
  length (concat ps) = (length ps * size)%nat.
Proof.
  induction 1 as [|p ps Hp Hps IH]; [reflexivity|].
  cbn [concat length]. rewrite length_app, IH, Hp. lia.
Qed.

(** X14: merging the heads undoes splitting them, for [heads > 0] and a
    channel count of [heads * d]. *)
Theorem merge_split_heads {A : Type} (heads_ d : nat) (x : tensor A 3) :
  (0 < heads_)%nat ->
  Forall (Forall (fun v => length v = (heads_ * d)%nat)) x ->
  merge_heads (split_heads heads_ x) = x.
Proof.
  intros Hh Hx. unfold merge_heads, split_heads. rewrite map_map.
  etransitivity; [|apply map_id].
  apply (map_ext_Forall _ _ _ _ Hx). intros m Hm.
  destruct m as [|v0 m]; [reflexivity|].
  set (P := map (fun v => pieces heads_ (length v / heads_) v) (v0 :: m)).
  rewrite (transpose_involutive heads_ P Hh).
  - unfold P. rewrite map_map. etransitivity; [|apply map_id].
    apply (map_ext_Forall _ _ _ _ Hm). intros v Hv.
    rewrite Hv, Nat.mul_comm, Nat.div_mul by lia.
    apply concat_pieces. lia.
  - unfold P. discriminate.
  - unfold P. apply Forall_map. apply Forall_forall. intros v _. apply pieces_length.
Qed.

Lemma merge_split_heads_witness :
  merge_heads (split_heads 2 [[[1; 2; 3; 4]; [5; 6; 7; 8]]])
  = [[[1; 2; 3; 4]; [5; 6; 7; 8]]].
Proof.
  apply (merge_split_heads 2 2 [[[1; 2; 3; 4]; [5; 6; 7; 8]]]).
  - lia.
  - repeat constructor.
Defined.

(** X15: splitting the heads undoes merging them, on a tensor of
    [heads] heads, [n > 0] positions and [d] channels per head. *)
Theorem split_merge_heads {A : Type} (heads_ n d : nat) (y : tensor A 4) :
  (0 < heads_)%nat -> (0 < n)%nat ->
  Forall (fun hs => length hs = heads_ /\
                    Forall (fun s => length s = n /\
                                     Forall (fun v => length v = d) s) hs) y ->
  split_heads heads_ (merge_heads y) = y.
Proof.
  intros Hh Hn Hy. unfold merge_heads, split_heads. rewrite map_map.
  etransitivity; [|apply map_id].
  apply (map_ext_Forall _ _ _ _ Hy). intros hs [Hlen Hhs].
  assert (Hne : hs <> []) by (destruct hs; [simpl in Hlen; lia|discriminate]).
  assert (Hrows : Forall (fun s => length s = n) hs).
  { revert Hhs. apply Forall_impl. intros s [H _]. exact H. }
  rewrite (transpose_unfold n hs Hne Hrows).
  pose proof (transpose_from_rows n hs Hrows) as Hcols. rewrite Hlen in Hcols.
  assert (Hvec : Forall (Forall (fun v => length v = d)) (transpose_from n hs)).
  { apply Forall_transpose_from_intro. revert Hhs. apply Forall_impl.
    intros s [_ H]. exact H. }
  rewrite map_map.
  rewrite (map_ext_Forall
             (fun ps => length ps = heads_ /\ Forall (fun v => length v = d) ps)
             _ (fun ps => ps)).
  - rewrite map_id. rewrite <- (transpose_unfold n hs Hne Hrows).
    assert (Hne' : transpose hs <> []).
    { rewrite (transpose_unfold n hs Hne Hrows). intros E.
      pose proof (transpose_from_length n hs Hrows) as Hl. rewrite E in Hl.
      simpl in Hl. lia. }
    rewrite (transpose_unfold heads_ (transpose hs) Hne').
    + rewrite (transpose_unfold n hs Hne Hrows).
      rewrite <- Hlen. apply transpose_from_involutive; assumption.
    + rewrite (transpose_unfold n hs Hne Hrows). exact Hcols.
  - apply Forall_forall. intros ps Hps. rewrite Forall_forall in Hcols, Hvec.
    split; [apply Hcols, Hps|apply Hvec, Hps].
  - intros ps [Hl Hv].
    rewrite (length_concat_rect d ps Hv), Hl, Nat.mul_comm, Nat.div_mul by lia.
    rewrite <- Hl. apply pieces_concat, Hv.
Qed.

Lemma split_merge_heads_witness :
  split_heads 2 (merge_heads [[[[1; 2]; [5; 6]]; [[3; 4]; [7; 8]]]])
  = [[[[1; 2]; [5; 6]]; [[3; 4]; [7; 8]]]].
Proof.
  apply (split_merge_heads 2 2 2 [[[[1; 2]; [5; 6]]; [[3; 4]; [7; 8]]]]).
  - lia.
  - lia.
  - repeat constructor.
Defined.

(** ** [token_embed[ids]] *)

Lemma embed_row_spec (table : tensor R 2) (row : list nat) :
  if forallb (fun i => i <? length table)%nat row
  then sequence (map (fun i => match nth_error table i with
                               | Some e => Ok e
                               | None => Err IndexError
                               end) row)
       = Ok (map (fun i => nth i table []) row)
  else sequence (map (fun i => match nth_error table i with
                               | Some e => Ok e
                               | None => Err IndexError
                               end) row)
       = Err IndexError.
Proof.
  induction row as [|i row IH]; [reflexivity|].
  cbn [forallb map sequence].
  destruct (Nat.ltb_spec i (length table)) as [Hlt|Hge].
  - destruct (nth_error table i) as [e|] eqn:E.
    + cbn [andb bind]. rewrite (nth_error_nth _ _ [] E).
      destruct (forallb _ row); rewrite IH; reflexivity.
    + apply nth_error_None in E. lia.
  - apply nth_error_None in Hge. rewrite Hge. reflexivity.
Qed.

Lemma embed_cases (table : tensor R 2) (ids : list (list nat)) :
  if forallb (forallb (fun i => i <? length table)%nat) ids
  then embed table ids = Ok (map (map (fun i => nth i table [])) ids)
  else embed table ids = Err IndexError.
Proof.
  unfold embed. induction ids as [|row ids IH]; [reflexivity|].
  cbn [forallb map sequence].
  pose proof (embed_row_spec table row) as Hrow.
  destruct (forallb (fun i => i <? length table)%nat row);
    rewrite Hrow; cbn [andb bind]; [|reflexivity].
  destruct (forallb _ ids); rewrite IH; reflexivity.
Qed.

(** X16: the lookup [token_embed[ids]] returns exactly when every id is
    below the number of rows of the table, and then hands back the
    rows asked for; any other id is an [IndexError]. *)
Theorem embed_lookup (table : tensor R 2) (ids : list (list nat)) :
  if forallb (forallb (fun i => i <? length table)%nat) ids
  then embed table ids = Ok (map (map (fun i => nth i table [])) ids)
  else embed table ids = Err IndexError.
Proof.
  unfold embed. induction ids as [|row ids IH]; [reflexivity|].
  cbn [forallb map sequence].
  pose proof (embed_row_spec table row) as Hrow.
  destruct (forallb (fun i => i <? length table)%nat row);
    rewrite Hrow; cbn [andb bind]; [|reflexivity].
  destruct (forallb _ ids); rewrite IH; reflexivity.
Qed.

(** ** [nGPT.__init__] *)

Lemma sequence_Ok_Forall2 {A B : Type} (f : A -> result B) (l : list A) (out : list B) :
  sequence (map f l) = Ok out -> Forall2 (fun x y => f x = Ok y) l out.
Proof.
  revert out. induction l as [|x l IH]; intros out E.
  - injection E as <-. constructor.
  - cbn [map sequence] in E.
    apply bind_Ok in E as (y & Hy & E). apply bind_Ok in E as (ys & Hys & E).
    injection E as <-. constructor; [exact Hy|apply IH, Hys].
Qed.

Lemma Scale_init_forward (d : nat) (init scale : R) (s : Scale) :
  Scale_init d init scale = Ok s -> Scale_forward s = repeat init d.
Proof.
  unfold Scale_init. destruct (Req_dec_T scale 0) as [|Hs]; [discriminate|].
  intros E. injection E as <-. unfold Scale_forward. cbn [sc_scale sc_forward_scale].
  induction d as [|d IH]; simpl; [reflexivity|]. f_equal; [field; exact Hs|exact IH].
Qed.

Lemma Residual_init_fields {M : Type} (fn : M) (d : nat) (init : R) (scale : option R)
  (r : Residual M) :
  Residual_init fn d init scale 1 0 = Ok r ->
  res_fn r = fn /\ res_l2norm r = residual_l2norm /\
  Scale_forward (res_branch_scale r) = repeat init d.
Proof.
  unfold Residual_init. intros E.
  apply bind_Ok in E as (p & _ & E). apply bind_Ok in E as (s & Hs & E).
  injection E as <-. cbn [res_fn res_l2norm res_branch_scale].
  repeat split. apply (Scale_init_forward _ _ _ _ Hs).
Qed.

Lemma build_layer_fields (c : nGPT_config) (alpha : R) (dt : dtype)
  (draw : nat -> tensor R 2) (row : list (option R)) (l : layer) :
  build_layer c alpha dt draw row = Ok l ->
  res_l2norm (fst l) = residual_l2norm /\
  res_l2norm (snd l) = residual_l2norm /\
  Scale_forward (res_branch_scale (fst l))
  = repeat (default (nth 0 row None) alpha) (dim c) /\
  Scale_forward (res_branch_scale (snd l))
  = repeat (default (nth 2 row None) alpha) (dim c).
Proof.
  unfold build_layer. intros E.
  do 10 (destruct row as [|? row]; [discriminate|]).
  destruct row; [|discriminate].
  apply bind_Ok in E as (attn & _ & E). apply bind_Ok in E as (ff & _ & E).
  apply bind_Ok in E as (d1 & _ & E). apply bind_Ok in E as (ra & Hra & E).
  apply bind_Ok in E as (d2 & _ & E). apply bind_Ok in E as (rf & Hrf & E).
  injection E as <-. cbn [fst snd nth].
  apply Residual_init_fields in Hra as (_ & Ha1 & Ha2).
  apply Residual_init_fields in Hrf as (_ & Hf1 & Hf2).
  auto.
Qed.

Lemma build_layers_rows (c : nGPT_config) (alpha : R) (dt : dtype)
  (draw : nat -> nat -> tensor R 2) (rows : list (list (option R))) :
  forall i layers,
    build_layers c alpha dt draw i rows = Ok layers ->
    Forall2 (fun row l => exists d, build_layer c alpha dt d row = Ok l) rows layers.
Proof.
  induction rows as [|row rows IH]; intros i layers E.
  - injection E as <-. constructor.
  - cbn [build_layers] in E.
    apply bind_Ok in E as (l & Hl & E). apply bind_Ok in E as (ls & Hls & E).
    injection E as <-. constructor; [eauto|apply (IH _ _ Hls)].
Qed.

Lemma map_nth_map2_cons {A : Type} (d : A) (k : nat) (h : list A) (T : list (list A)) :
  length h = length T ->
  map (fun r => nth 0 r d) (map2 cons h T) = h /\
  map (fun r => nth (S k) r d) (map2 cons h T) = map (fun r => nth k r d) T.
Proof.
  revert T. induction h as [|a h IH]; intros [|t T] Hlen; try discriminate.
  - split; reflexivity.
  - cbn [map2 map nth]. destruct (IH T) as [H1 H2]; [simpl in Hlen; lia|].
    split; f_equal; assumption.
Qed.

(** Row [i] of the zipped hyperparameters holds the [i]-th value of
    each of them. *)
Lemma transpose_from_nth {A : Type} (d : A) (L : nat) (hs : list (list A)) (k : nat)
  (h : list A) :
  Forall (fun r => length r = L) hs ->
  nth_error hs k = Some h ->
  map (fun r => nth k r d) (transpose_from L hs) = h.
Proof.
  intros Hall. revert k. induction Hall as [|r hs Hr Hall IH]; intros k Hk.
  - destruct k; discriminate.
  - change (transpose_from L (r :: hs)) with (map2 cons r (transpose_from L hs)).
    destruct (map_nth_map2_cons d (pred k) r (transpose_from L hs)) as [H0 HS].
    { rewrite Hr. symmetry. apply transpose_from_length, Hall. }
    destruct k as [|k].
    + injection Hk as <-. exact H0.
    + cbn [pred] in HS. rewrite HS. apply IH. exact Hk.
Qed.

Lemma Forall2_map_l {A B C : Type} (P : B -> C -> Prop) (f : A -> B) (l : list A)
  (l' : list C) :
  Forall2 (fun a c => P (f a) c) l l' -> Forall2 P (map f l) l'.
Proof. induction 1; simpl; constructor; auto. Qed.

Lemma Forall2_flip {A B : Type} (P : A -> B -> Prop) (l : list A) (l' : list B) :
  Forall2 P l l' -> Forall2 (fun b a => P a b) l' l.
Proof. induction 1; constructor; auto. Qed.

Lemma Forall2_length_eq {A B : Type} (P : A -> B -> Prop) (l : list A) (l' : list B) :
  Forall2 P l l' -> length l = length l'.
Proof. induction 1; simpl; congruence. Qed.

Lemma Forall2_Forall_r {A B : Type} (P : A -> B -> Prop) (Q : B -> Prop) (l : list A)
  (l' : list B) :
  (forall a b, P a b -> Q b) -> Forall2 P l l' -> Forall Q l'.
Proof. intros H. induction 1; constructor; eauto. Qed.

(** What a successful construction went through. *)
Lemma nGPT_init_run (c : nGPT_config) (dt : dtype)
  (rotary_embed : tensor R 4 -> tensor R 4) (draw : nat -> nat -> tensor R 2)
  (net : nGPT) :
  nGPT_init c dt rotary_embed draw = Ok net ->
  depth c <> 0%nat /\ dim c <> 0%nat /\ num_hyperspheres c <> 0%nat /\
  g_depth net = depth c /\
  (g_to_logits net = None <-> tied_embedding c = true) /\
  exists hparams,
    Forall2 (fun h l => cast_tuple h (depth c) = Ok l) (scale_hparams c) hparams /\
    Forall2 (fun row l =>
               exists d, build_layer c (default (alpha_init c) (1 / INR (depth c)))
                           dt d row = Ok l)
            (transpose_from (depth c) hparams) (g_layers net).
Proof.
  unfold nGPT_init. intros E.
  destruct (Nat.eqb_spec (depth c) 0) as [|Hdepth]; [discriminate|].
  cbn [bind] in E.
  apply bind_Ok in E as (te & Hte & E).
  apply bind_Ok in E as (hparams & Hcast & E).
  apply bind_Ok in E as (layers & Hlayers & E).
  apply bind_Ok in E as (tl & Htl & E).
  apply bind_Ok in E as (d & Hd & E).
  apply bind_Ok in E as (ls & Hls & E).
  injection E as <-. cbn [g_depth g_to_logits g_layers].
  split; [exact Hdepth|]. split.
  { unfold pow_neg_half in Hd. destruct (Nat.eqb_spec (dim c) 0); [discriminate|auto]. }
  split.
  { unfold NormLinear_init in Hte.
    destruct (Nat.eqb_spec (num_hyperspheres c) 0); [discriminate|auto]. }
  split; [reflexivity|]. split.
  { destruct (tied_embedding c).
    - injection Htl as <-. tauto.
    - apply bind_Ok in Htl as (m & _ & Htl). injection Htl as <-.
      split; discriminate. }
  exists hparams. apply sequence_Ok_Forall2 in Hcast. split; [exact Hcast|].
  assert (Hlens : Forall (fun l => length l = depth c) hparams).
  { revert Hcast. apply Forall2_Forall_r. intros h l. apply cast_tuple_ok_length. }
  assert (Hne : hparams <> []).
  { apply Forall2_length_eq in Hcast. destruct hparams; [discriminate|discriminate]. }
  rewrite (transpose_unfold (depth c) hparams Hne Hlens) in Hlayers.
  apply (build_layers_rows _ _ _ _ _ _ _ Hlayers).
Qed.

(** X17: a network that was constructed has exactly [depth] layers, and
    [depth], [dim] and [num_hyperspheres] were not zero; it holds a
    logit projection exactly when the embedding is not tied. *)
Theorem nGPT_init_layers (c : nGPT_config) (dt : dtype)
  (rotary_embed : tensor R 4 -> tensor R 4) (draw : nat -> nat -> tensor R 2)
  (net : nGPT) :
  nGPT_init c dt rotary_embed draw = Ok net ->
  length (g_layers net) = depth c /\
  depth c <> 0%nat /\ dim c <> 0%nat /\ num_hyperspheres c <> 0%nat /\
  (g_to_logits net = None <-> tied_embedding c = true).
Proof.
  intros E.
  destruct (nGPT_init_run c dt rotary_embed draw net E)
    as (Hd & Hdim & Hg & _ & Htied & hparams & Hcast & Hrows).
  repeat split; try assumption; try apply Htied.
  apply Forall2_length_eq in Hrows. rewrite <- Hrows.
  apply transpose_from_length.
  revert Hcast. apply Forall2_Forall_r. intros h l. apply cast_tuple_ok_length.
Qed.

(** X18: every [Residual] of a constructed network normalises with one
    group and no tolerance, whatever [num_hyperspheres] and [norm_eps]
    the network was configured with. *)
Theorem nGPT_init_residual_l2norm (c : nGPT_config) (dt : dtype)
  (rotary_embed : tensor R 4 -> tensor R 4) (draw : nat -> nat -> tensor R 2)
  (net : nGPT) :
  nGPT_init c dt rotary_embed draw = Ok net ->
  Forall (fun l : layer => res_l2norm (fst l) = residual_l2norm /\
                           res_l2norm (snd l) = residual_l2norm) (g_layers net).
Proof.
  intros E.
  destruct (nGPT_init_run c dt rotary_embed draw net E)
    as (_ & _ & _ & _ & _ & hparams & _ & Hrows).
  revert Hrows. apply Forall2_Forall_r. intros row l [d Hl].
  apply build_layer_fields in Hl as (H1 & H2 & _). auto.
Qed.

(** X19: at construction the interpolation weight of every residual is
    the layer's [alpha_attn_init] or [alpha_ff_init] in every channel,
    and where that is [None] it is [alpha_init], by default
    [1 / depth]; the [alpha_*_scale] hyperparameters do not show. *)
Theorem nGPT_init_branch_scales (c : nGPT_config) (dt : dtype)
  (rotary_embed : tensor R 4 -> tensor R 4) (draw : nat -> nat -> tensor R 2)
  (net : nGPT) :
  nGPT_init c dt rotary_embed draw = Ok net ->
  exists attn_inits ff_inits,
    cast_tuple (alpha_attn_init c) (depth c) = Ok attn_inits /\
    cast_tuple (alpha_ff_init c) (depth c) = Ok ff_inits /\
    Forall2 (fun (l : layer) a =>
               Scale_forward (res_branch_scale (fst l))
               = repeat (default a (default (alpha_init c) (1 / INR (depth c)))) (dim c))
            (g_layers net) attn_inits /\
    Forall2 (fun (l : layer) a =>
               Scale_forward (res_branch_scale (snd l))
               = repeat (default a (default (alpha_init c) (1 / INR (depth c)))) (dim c))
            (g_layers net) ff_inits.
Proof.
  intros E.
  destruct (nGPT_init_run c dt rotary_embed draw net E)
    as (_ & _ & _ & _ & _ & hparams & Hcast & Hrows).
  assert (Hlens : Forall (fun l => length l = depth c) hparams).
  { revert Hcast. apply Forall2_Forall_r. intros h l. apply cast_tuple_ok_length. }
  unfold scale_hparams in Hcast.
  inversion Hcast as [|? h0 ? hs0 H0 Hc0]; subst.
  inversion Hc0 as [|? h1 ? hs1 H1 Hc1]; subst.
  inversion Hc1 as [|? h2 ? hs2 H2 Hc2]; subst.
  exists h0, h2. split; [exact H0|]. split; [exact H2|].
  set (rows := transpose_from (depth c) (h0 :: h1 :: h2 :: hs2)) in *.
  assert (Ha : map (fun r => nth 0 r None) rows = h0)
    by (apply transpose_from_nth; [exact Hlens|reflexivity]).
  assert (Hf : map (fun r => nth 2 r None) rows = h2)
    by (apply transpose_from_nth; [exact Hlens|reflexivity]).
  split.
  - rewrite <- Ha. apply Forall2_flip, Forall2_map_l.
    revert Hrows. apply Forall2_impl. intros row l [d Hl].
    apply build_layer_fields in Hl as (_ & _ & H & _). exact H.
  - rewrite <- Hf. apply Forall2_flip, Forall2_map_l.
    revert Hrows. apply Forall2_impl. intros row l [d Hl].
    apply build_layer_fields in Hl as (_ & _ & _ & H). exact H.
Qed.

(** *** Configurations that construct *)

Lemma cast_tuple_all (P : option R -> Prop) (n : nat) (h : hparam) :
  hparam_all P n h ->
  exists l, cast_tuple h n = Ok l /\ length l = n /\ Forall P l.
Proof.
  unfold hparam_all, cast_tuple. destruct h as [|x|l].
  - intros HP. exists (repeat None n). rewrite repeat_length, Nat.eqb_refl.
    repeat split. apply Forall_forall. intros o Ho. apply repeat_spec in Ho. subst. exact HP.
  - intros HP. exists (repeat (Some x) n). rewrite repeat_length, Nat.eqb_refl.
    repeat split. apply Forall_forall. intros o Ho. apply repeat_spec in Ho. subst. exact HP.
  - intros [Hl HP]. exists l. rewrite Hl, Nat.eqb_refl. auto.
Qed.

Lemma sequence_cast_tuple_all (Ps : list (option R -> Prop)) (n : nat) (hs : list hparam) :
  Forall2 (fun P h => hparam_all P n h) Ps hs ->
  exists ls,
    sequence (map (fun h => cast_tuple h n) hs) = Ok ls /\
    Forall2 (fun P l => length l = n /\ Forall P l) Ps ls.
Proof.
  induction 1 as [|P h Ps hs HP Hrest (ls & E & Hls)].
  - exists []. split; [reflexivity|constructor].
  - destruct (cast_tuple_all P n h HP) as (l & El & Hl).
    exists (l :: ls). cbn [map sequence]. rewrite El, E. cbn [bind].
    split; [reflexivity|constructor; assumption].
Qed.

Lemma Forall_map2_cons_intro {A : Type} (P : A -> Prop) (Q R' : list A -> Prop)
  (h : list A) (T : list (list A)) :
  (forall a t, P a -> Q t -> R' (a :: t)) ->
  Forall P h -> Forall Q T -> Forall R' (map2 cons h T).
Proof.
  intros HR Hh. revert T. induction Hh as [|a h Ha Hh IH]; intros T HT.
  - constructor.
  - destruct HT as [|t T Ht HT]; [constructor|].
    cbn [map2]. constructor; [apply HR; assumption|apply IH, HT].
Qed.

(** Every row of the zipped hyperparameters satisfies, entry by entry,
    what its columns satisfy. *)
Lemma transpose_from_rows_all {A : Type} (Ps : list (A -> Prop)) (L : nat)
  (hs : list (list A)) :
  Forall2 (fun P l => length l = L /\ Forall P l) Ps hs ->
  Forall (Forall2 (fun P a => P a) Ps) (transpose_from L hs).
Proof.
  induction 1 as [|P l Ps hs [Hl HP] Hrest IH].
  - unfold transpose_from. cbn [fold_right]. apply Forall_forall.
    intros r Hr. apply repeat_spec in Hr. subst. constructor.
  - change (transpose_from L (l :: hs)) with (map2 cons l (transpose_from L hs)).
    apply (Forall_map2_cons_intro P (Forall2 (fun P a => P a) Ps));
      [intros a t Ha Ht; constructor; assumption|exact HP|exact IH].
Qed.

Lemma NormLinear_norm_weights_total (m : NormLinear) :
  single_sphere (nl_l2norm m) -> exists m', NormLinear_norm_weights_ m = Ok m'.
Proof.
  intros H. unfold NormLinear_norm_weights_.
  destruct (NormLinear_weight_total m H) as (w & Hw). rewrite Hw.
  destruct (nl_parametrize m); cbn [bind]; [eauto|].
  destruct (L2Norm_forward_single (nl_l2norm m) (nl_dtype m) 1 w H) as (w' & ->).
  cbn [bind]. eauto.
Qed.

Lemma NormLinear_init_total (d d_out : nat) (norm_dim_in parametrize : bool)
  (ne : R) (dt : dtype) (w : tensor R 2) :
  exists m, NormLinear_init d d_out norm_dim_in parametrize ne 1 dt w = Ok m.
Proof.
  unfold NormLinear_init. cbn [Nat.eqb].
  apply NormLinear_norm_weights_total. unfold single_sphere. cbn [nl_l2norm l2_groups l2_dim].
  split; [lia|]. destruct norm_dim_in; auto.
Qed.

Lemma pow_neg_half_total (d : nat) :
  d <> 0%nat -> exists p, pow_neg_half d = Ok p /\ p <> 0.
Proof.
  intros Hd. unfold pow_neg_half. destruct (Nat.eqb_spec d 0); [contradiction|].
  eexists. split; [reflexivity|].
  apply Rinv_neq_0_compat. intros E. apply sqrt_eq_0 in E; [|apply pos_INR].
  apply (INR_eq d 0) in E. contradiction.
Qed.

Lemma pow_neg_one_total (d : nat) :
  d <> 0%nat -> exists p, pow_neg_one d = Ok p /\ p <> 0.
Proof.
  intros Hd. unfold pow_neg_one. destruct (Nat.eqb_spec d 0); [contradiction|].
  eexists. split; [reflexivity|].
  apply Rinv_neq_0_compat. intros E. apply (INR_eq d 0) in E. contradiction.
Qed.

Lemma Scale_init_total (d : nat) (init scale : R) :
  scale <> 0 -> exists s, Scale_init d init scale = Ok s.
Proof.
  intros Hs. unfold Scale_init. destruct (Req_dec_T scale 0); [contradiction|eauto].
Qed.

Lemma default_nonzero (o : option R) (d : R) :
  nonzero_or_default o -> d <> 0 -> default o d <> 0.
Proof.
  unfold nonzero_or_default. destruct o as [x|]; cbn [default]; [|auto].
  intros H _ E. apply H. rewrite E. reflexivity.
Qed.

Lemma Residual_init_total {M : Type} (fn : M) (d : nat) (init : R) (scale : option R)
  (groups : nat) (ne : R) :
  d <> 0%nat -> nonzero_or_default scale ->
  exists r, Residual_init fn d init scale groups ne = Ok r.
Proof.
  intros Hd Hs. unfold Residual_init.
  destruct (pow_neg_half_total d Hd) as (p & -> & Hp). cbn [bind].
  destruct (Scale_init_total d init (default scale p) (default_nonzero _ _ Hs Hp))
    as (s & ->).
  cbn [bind]. eauto.
Qed.

Lemma build_layer_total (c : nGPT_config) (alpha : R) (dt : dtype)
  (draw : nat -> tensor R 2) (row : list (option R)) :
  dim c <> 0%nat -> num_hyperspheres c = 1%nat ->
  Forall2 (fun P a => P a) hparam_conditions row ->
  exists l, build_layer c alpha dt draw row = Ok l.
Proof.
  intros Hdim Hg Hrow. unfold hparam_conditions in Hrow.
  repeat match goal with
         | H : Forall2 _ (_ :: _) _ |- _ => inversion H; clear H; subst
         | H : Forall2 _ [] _ |- _ => inversion H; clear H; subst
         end.
  unfold build_layer, Attention_init, FeedForward_init. rewrite Hg.
  repeat match goal with
         | H : given ?o |- _ => destruct o; [clear H|exfalso; apply H; reflexivity]
         | H : given_nonzero ?o |- _ =>
             let x := fresh "x" in let E := fresh "E" in let Hx := fresh "Hx" in
             destruct H as (x & E & Hx); subst o
         end.
  cbn [require bind].
  repeat match goal with
         | |- context [NormLinear_init ?a ?b ?n ?p ?e 1 ?d ?w] =>
             let m := fresh "m" in let E := fresh "E" in
             destruct (NormLinear_init_total a b n p e d w) as (m & E);
             rewrite E; clear E; cbn [bind]
         | |- context [pow_neg_one (dim c)] =>
             let p := fresh "p" in let E := fresh "E" in let Hp := fresh "Hp" in
             destruct (pow_neg_one_total (dim c) Hdim) as (p & E & Hp);
             rewrite E; clear E; cbn [bind]
         | |- context [pow_neg_half (dim c)] =>
             let p := fresh "p" in let E := fresh "E" in let Hp := fresh "Hp" in
             destruct (pow_neg_half_total (dim c) Hdim) as (p & E & Hp);
             rewrite E; clear E; cbn [bind]
         | |- context [Scale_init ?d ?i ?s] =>
             let sc := fresh "sc" in let E := fresh "E" in
             destruct (Scale_init_total d i s) as (sc & E);
             [first [assumption | apply default_nonzero; assumption]|];
             rewrite E; clear E; cbn [bind]
         | |- context [Residual_init ?f ?d ?i ?s ?g ?e] =>
             let r := fresh "r" in let E := fresh "E" in
             destruct (Residual_init_total f d i s g e Hdim) as (r & E);
             [intros E0; injection E0 as E0; revert E0; apply default_nonzero; assumption|];
             rewrite E; clear E; cbn [bind]
         end.
  eauto.
Qed.

Lemma build_layers_total (c : nGPT_config) (alpha : R) (dt : dtype)
  (draw : nat -> nat -> tensor R 2) (rows : list (list (option R))) :
  dim c <> 0%nat -> num_hyperspheres c = 1%nat ->
  Forall (Forall2 (fun P a => P a) hparam_conditions) rows ->
  forall i, exists ls, build_layers c alpha dt draw i rows = Ok ls.
Proof.
  intros Hdim Hg. induction 1 as [|row rows Hrow Hrows IH]; intros i.
  - exists []. reflexivity.
  - cbn [build_layers].
    destruct (build_layer_total c alpha dt (draw (S i)) row Hdim Hg Hrow) as (l & ->).
    destruct (IH (S i)) as (ls & ->). cbn [bind]. eauto.
Qed.

Lemma nGPT_init_returns (c : nGPT_config) (dt : dtype)
  (rotary_embed : tensor R 4 -> tensor R 4) (draw : nat -> nat -> tensor R 2) :
  constructible c -> exists net, nGPT_init c dt rotary_embed draw = Ok net.
Proof.
  intros (Hdepth & Hdim & Hg & Hlogit & Hh & _). unfold nGPT_init.
  destruct (Nat.eqb_spec (depth c) 0); [contradiction|]. cbn [bind]. rewrite Hg.
  destruct (NormLinear_init_total (dim c) (num_tokens c) true
              (negb (manual_norm_weights c)) (norm_eps c) dt (draw 0%nat 0%nat))
    as (te & ->).
  cbn [bind].
  destruct (sequence_cast_tuple_all _ _ _ Hh) as (ls & -> & Hls). cbn [bind].
  assert (Hlens : Forall (fun l => length l = depth c) ls).
  { revert Hls. apply Forall2_Forall_r. intros P l [H _]. exact H. }
  assert (Hne : ls <> []).
  { apply Forall2_length_eq in Hls. destruct ls; [discriminate|discriminate]. }
  rewrite (transpose_unfold (depth c) ls Hne Hlens).
  destruct (build_layers_total c (default (alpha_init c) (1 / INR (depth c))) dt draw
              (transpose_from (depth c) ls) Hdim
              Hg (transpose_from_rows_all _ _ _ Hls) 0%nat) as (layers & E).
  rewrite E. cbn [bind].
  destruct (pow_neg_half_total (dim c) Hdim) as (p & Ep & Hp).
  destruct (Scale_init_total (num_tokens c) (s_logit_init c)
              (default (s_logit_scale c) p) (default_nonzero _ _ Hlogit Hp)) as (sc & Es).
  destruct (tied_embedding c); cbn [bind].
  - rewrite Ep. cbn [bind]. rewrite Es. cbn [bind]. eauto.
  - destruct (NormLinear_init_total (dim c) (num_tokens c) true
                (negb (manual_norm_weights c)) (norm_eps c) dt (draw 0%nat 1%nat))
      as (tl & ->).
    cbn [bind]. rewrite Ep. cbn [bind]. rewrite Es. cbn [bind]. eauto.
Qed.

Lemma small_config_constructible : constructible small_config.
Proof.
  unfold constructible, small_config, scale_hparams, hparam_conditions. cbn.
  split; [discriminate|]. split; [discriminate|]. split; [reflexivity|].
  split; [discriminate|]. split.
  - repeat first [apply Forall2_nil | apply Forall2_cons];
      unfold any_value, given, given_nonzero, nonzero_or_default; cbn;
      try exact I; try discriminate.
    + split; [reflexivity|]. repeat constructor.
    + exists 1. split; [reflexivity|lra].
    + exists 1. split; [reflexivity|lra].
  - repeat split; try discriminate. lra.
Qed.

(** X20: on one hypersphere, with sizes that are not zero, tuples of
    length [depth], the required scales given and no divisor zero,
    construction returns exactly when the constructor of the rotary
    embedding does, whatever the initial weights drawn: it then hands
    back a network of that depth, and otherwise raises what that
    constructor raised. *)
Theorem nGPT_init_succeeds
  (RotaryEmbedding : nat -> result (tensor R 4 -> tensor R 4))
  (c : nGPT_config) (dt : dtype) (draw : nat -> nat -> tensor R 2) :
  constructible c ->
  match RotaryEmbedding (dim_head c) with
  | Ok rotary_embed =>
      exists net,
        nGPT_new RotaryEmbedding c dt draw = Ok net /\
        nGPT_init c dt rotary_embed draw = Ok net /\
        g_depth net = depth c
  | Err e => nGPT_new RotaryEmbedding c dt draw = Err e
  end.
Proof.
  intros Hc. unfold nGPT_new.
  destruct Hc as (Hdepth & Hdim & Hg & Hrest).
  destruct (Nat.eqb_spec (depth c) 0); [contradiction|]. cbn [bind]. rewrite Hg.
  destruct (NormLinear_init_total (dim c) (num_tokens c) true
              (negb (manual_norm_weights c)) (norm_eps c) dt (draw 0%nat 0%nat))
    as (te & ->).
  cbn [bind].
  destruct (RotaryEmbedding (dim_head c)) as [rotary_embed|e]; [|reflexivity].
  cbn [bind].
  destruct (nGPT_init_returns c dt rotary_embed draw
              (conj Hdepth (conj Hdim (conj Hg Hrest)))) as (net & E).
  exists net. split; [exact E|]. split; [exact E|].
  destruct (nGPT_init_run c dt rotary_embed draw net E) as (_ & _ & _ & H & _). exact H.
Qed.

Lemma nGPT_init_succeeds_witness :
  exists net,
    nGPT_new rotary_stand_in small_config float32 (fun _ _ => [[1]]) = Ok net /\
    nGPT_init small_config float32 (fun t => t) (fun _ _ => [[1]]) = Ok net /\
    g_depth net = depth small_config.
Proof.
  apply (nGPT_init_succeeds rotary_stand_in small_config float32 (fun _ _ => [[1]])).
  exact small_config_constructible.
Defined.

Lemma nGPT_init_layers_witness :
  exists net,
    nGPT_init small_config float32 (fun t => t) (fun _ _ => [[1]]) = Ok net /\
    length (g_layers net) = depth small_config /\
    depth small_config <> 0%nat /\ dim small_config <> 0%nat /\
    num_hyperspheres small_config <> 0%nat /\
    (g_to_logits net = None <-> tied_embedding small_config = true).
Proof.
  destruct (nGPT_init_returns small_config float32 (fun t => t) (fun _ _ => [[1]])
              small_config_constructible) as (net & E).
  exists net. split; [exact E|].
  apply (nGPT_init_layers small_config float32 (fun t => t) (fun _ _ => [[1]]) net E).
Defined.

Lemma nGPT_init_residual_l2norm_witness :
  exists net,
    nGPT_init small_config float32 (fun t => t) (fun _ _ => [[1]]) = Ok net /\
    Forall (fun l : layer => res_l2norm (fst l) = residual_l2norm /\
                             res_l2norm (snd l) = residual_l2norm) (g_layers net).
Proof.
  destruct (nGPT_init_returns small_config float32 (fun t => t) (fun _ _ => [[1]])
              small_config_constructible) as (net & E).
  exists net. split; [exact E|].
  apply (nGPT_init_residual_l2norm small_config float32 (fun t => t)
           (fun _ _ => [[1]]) net E).
Defined.

Lemma nGPT_init_branch_scales_witness :
  exists net,
    nGPT_init small_config float32 (fun t => t) (fun _ _ => [[1]]) = Ok net /\
    exists attn_inits ff_inits,
      cast_tuple (alpha_attn_init small_config) (depth small_config) = Ok attn_inits /\
      cast_tuple (alpha_ff_init small_config) (depth small_config) = Ok ff_inits /\
      Forall2 (fun (l : layer) a =>
                 Scale_forward (res_branch_scale (fst l))
                 = repeat (default a (default (alpha_init small_config)
                                        (1 / INR (depth small_config))))
                          (dim small_config))
              (g_layers net) attn_inits /\
      Forall2 (fun (l : layer) a =>
                 Scale_forward (res_branch_scale (snd l))
                 = repeat (default a (default (alpha_init small_config)
                                        (1 / INR (depth small_config))))
                          (dim small_config))
              (g_layers net) ff_inits.
Proof.
  destruct (nGPT_init_returns small_config float32 (fun t => t) (fun _ _ => [[1]])
              small_config_constructible) as (net & E).
  exists net. split; [exact E|].
  apply (nGPT_init_branch_scales small_config float32 (fun t => t)
           (fun _ _ => [[1]]) net E).
Defined.

(** ** [nGPT.forward] *)

Section Forward.

Variable sdpa :
  tensor R 4 -> tensor R 4 -> tensor R 4 -> option (tensor bool 4) -> bool -> R
  -> tensor R 4.

Lemma layer_step_hiddens (net : nGPT) (mask : option (tensor bool 2)) (l : layer)
  (st st' : loop_state) :
  layer_step sdpa net mask l st = Ok st' ->
  exists a, ls_hiddens st' = ls_hiddens st ++ [a; ls_tokens st'].
Proof.
  unfold layer_step. intros E.
  apply bind_Ok in E as (o & _ & E).
  apply bind_Ok in E as (values & _ & E).
  apply bind_Ok in E as (o2 & _ & E).
  injection E as <-. cbn [ls_hiddens ls_tokens].
  exists (fst o). rewrite <- app_assoc. reflexivity.
Qed.

Lemma run_layers_hiddens (net : nGPT) (mask : option (tensor bool 2))
  (layers : list layer) :
  forall st st',
    run_layers sdpa net mask layers st = Ok st' ->
    exists new,
      ls_hiddens st' = ls_hiddens st ++ new /\
      length new = (2 * length layers)%nat.
Proof.
  induction layers as [|l layers IH]; intros st st' E.
  - injection E as <-. exists []. rewrite app_nil_r. auto.
  - cbn [run_layers] in E. apply bind_Ok in E as (st1 & Hstep & E).
    destruct (layer_step_hiddens net mask l st st1 Hstep) as (a & Ha).
    destruct (IH st1 st' E) as (new & Hnew & Hlen).
    exists ([a; ls_tokens st1] ++ new). split.
    + rewrite Hnew, Ha, <- app_assoc. reflexivity.
    + rewrite length_app, Hlen. simpl. lia.
Qed.

Lemma stack_returns_list {A : Type} (n : nat) (ts : list (tensor A n)) (t : tensor A (S n)) :
  stack n ts = Ok t -> t = ts.
Proof.
  unfold stack. destruct ts as [|t0 rest]; [discriminate|].
  destruct (forallb (same_shape n t0) rest); [|discriminate].
  intros E. injection E as <-. reflexivity.
Qed.

Lemma layer_step_plain_call (net : nGPT) (mask : option (tensor bool 2)) (l : layer)
  (st st' : loop_state) :
  g_add_value_residual net = false ->
  layer_step sdpa net mask l st = Ok st' ->
  exists c,
    ls_calls st' = ls_calls st ++ [c] /\
    ac_module c = res_fn (fst l) /\ call_is_first c.
Proof.
  intros Hvr E. unfold layer_step in E. rewrite Hvr in E.
  apply bind_Ok in E as ([tokens rest] & Hattn & E).
  apply bind_Ok in E as (values & Hvalues & E).
  apply bind_Ok in E as (o & _ & E).
  injection E as <-. cbn [ls_calls].
  cbn [snd] in Hvalues. destruct rest as [v'|]; [|discriminate].
  injection Hvalues as ->.
  apply Residual_forward_rest in Hattn as (o' & Hattn).
  apply Attention_forward_values in Hattn as (v & Hv & Hrest).
  injection Hrest as ->.
  eexists. split; [reflexivity|]. split; [reflexivity|].
  unfold call_is_first. cbn [ac_value_residual ac_module ac_tokens ac_values]. eauto.
Qed.

Lemma run_layers_plain_calls (net : nGPT) (mask : option (tensor bool 2))
  (layers : list layer) :
  g_add_value_residual net = false ->
  forall st st',
    run_layers sdpa net mask layers st = Ok st' ->
    exists new,
      ls_calls st' = ls_calls st ++ new /\
      map ac_module new = map (fun l : layer => res_fn (fst l)) layers /\
      Forall call_is_first new.
Proof.
  intros Hvr. induction layers as [|l layers IH]; intros st st' E.
  - injection E as <-. exists []. rewrite app_nil_r. auto.
  - cbn [run_layers] in E. apply bind_Ok in E as (st1 & Hstep & E).
    destruct (layer_step_plain_call net mask l st st1 Hvr Hstep) as (c & Hc & Hm & Hf).
    destruct (IH st1 st' E) as (new & Hnew & Hmods & Hrest).
    exists (c :: new). split; [|split].
    + rewrite Hnew, Hc, <- app_assoc. reflexivity.
    + cbn [map]. rewrite Hm, Hmods. reflexivity.
    + constructor; assumption.
Qed.

End Forward.

(** X21: asked for the hidden states, a forward pass that returns hands
    back [2 * depth + 1] of them, the first being the embedded
    tokens. *)
Theorem nGPT_forward_hiddens
  (sdpa : tensor R 4 -> tensor R 4 -> tensor R 4 -> option (tensor bool 4) -> bool -> R
          -> tensor R 4)
  (net : nGPT) (ids : list (list nat)) (mask : option (tensor bool 2))
  (return_loss : bool) (out : forward_output) :
  nGPT_forward sdpa net ids mask return_loss true = Ok out ->
  exists w tokens h,
    NormLinear_weight (g_token_embed net) = Ok w /\
    embed w (if return_loss then map (@removelast nat) ids else ids) = Ok tokens /\
    hiddens_of out = Some h /\
    length h = (2 * length (g_layers net) + 1)%nat /\
    nth_error h 0 = Some tokens.
Proof.
  unfold nGPT_forward, nGPT_forward_calls. intros E.
  apply bind_Ok in E as ([out' calls] & E & Hout). injection Hout as <-.
  apply bind_Ok in E as (w & Hw & E).
  apply bind_Ok in E as (u & _ & E).
  apply bind_Ok in E as (tokens & Htok & E).
  apply bind_Ok in E as (st & Hrun & E).
  apply bind_Ok in E as (logits & _ & E).
  apply bind_Ok in E as (hiddens & Hh & E).
  apply bind_Ok in Hh as (h & Hstack & Hh). injection Hh as <-.
  apply stack_returns_list in Hstack. subst h.
  destruct (run_layers_hiddens sdpa net mask (g_layers net) _ _ Hrun)
    as (new & Hnew & Hlen).
  cbn [ls_hiddens] in Hnew.
  exists w, tokens, (ls_hiddens st).
  split; [exact Hw|]. split; [exact Htok|].
  assert (Hof : hiddens_of out' = Some (ls_hiddens st)).
  { destruct return_loss.
    - apply bind_Ok in E as (loss & _ & E). injection E as <- _. reflexivity.
    - injection E as <- _. reflexivity. }
  split; [exact Hof|]. rewrite Hnew. split.
  - cbn [app length].
    transitivity (S (2 * length (g_layers net))); [f_equal; exact Hlen|lia].
  - reflexivity.
Qed.

(** X22: without [add_value_residual], in a forward pass that returns,
    the attention calls are one per layer, none is handed a value
    residual and each one returns its own value projection. *)
Theorem nGPT_forward_without_value_residual
  (sdpa : tensor R 4 -> tensor R 4 -> tensor R 4 -> option (tensor bool 4) -> bool -> R
          -> tensor R 4)
  (net : nGPT) (ids : list (list nat)) (mask : option (tensor bool 2))
  (return_loss return_hiddens : bool) (out : forward_output) (calls : list attn_call) :
  g_add_value_residual net = false ->
  nGPT_forward_calls sdpa net ids mask return_loss return_hiddens = Ok (out, calls) ->
  map ac_module calls = map (fun l : layer => res_fn (fst l)) (g_layers net) /\
  Forall call_is_first calls.
Proof.
  intros Hvr E.
  apply nGPT_forward_calls_run in E as (tokens & st & Hrun & ->).
  destruct (run_layers_plain_calls sdpa net mask (g_layers net) Hvr _ _ Hrun)
    as (new & Hcalls & Hmods & Hall).
  cbn [ls_calls app] in Hcalls. rewrite Hcalls. auto.
Qed.

(** X23: asking a network that is not causal for the loss is an
    [AssertionError], once the embedding table was read. *)
Theorem nGPT_forward_loss_needs_causal
  (sdpa : tensor R 4 -> tensor R 4 -> tensor R 4 -> option (tensor bool 4) -> bool -> R
          -> tensor R 4)
  (net : nGPT) (ids : list (list nat)) (mask : option (tensor bool 2))
  (return_hiddens : bool) :
  g_causal net = false ->
  is_ok (NormLinear_weight (g_token_embed net)) = true ->
  nGPT_forward sdpa net ids mask true return_hiddens = Err AssertionError.
Proof.
  intros Hc Hw. unfold nGPT_forward, nGPT_forward_calls.
  destruct (NormLinear_weight (g_token_embed net)) as [w|e]; [|discriminate].
  cbn [bind]. rewrite Hc. reflexivity.
Qed.

Lemma nGPT_forward_loss_needs_causal_witness :
  nGPT_forward values_kernel (tiny_net 2 [[1]] false) [[0%nat; 0%nat]] None true false
  = Err AssertionError.
Proof.
  apply (nGPT_forward_loss_needs_causal values_kernel (tiny_net 2 [[1]] false)).
  - reflexivity.
  - reflexivity.
Defined.

Lemma embed_out_of_range (table : tensor R 2) (ids : list (list nat)) :
  forallb (forallb (fun i => i <? length table)%nat) ids = false ->
  embed table ids = Err IndexError.
Proof.
  intros H. pose proof (embed_cases table ids) as He. revert H He.
  destruct (forallb (forallb _) ids); intros H He; [discriminate|exact He].
Qed.

Lemma embed_in_range (table : tensor R 2) (ids : list (list nat)) :
  forallb (forallb (fun i => i <? length table)%nat) ids = true ->
  embed table ids = Ok (map (map (fun i => nth i table [])) ids).
Proof.
  intros H. pose proof (embed_cases table ids) as He. revert H He.
  destruct (forallb (forallb _) ids); intros H He; [exact He|discriminate].
Qed.

(** X24: without [return_loss], a token id that is not below the number
    of rows of the embedding table makes the forward pass raise
    [IndexError]. *)
Theorem nGPT_forward_id_out_of_range
  (sdpa : tensor R 4 -> tensor R 4 -> tensor R 4 -> option (tensor bool 4) -> bool -> R
          -> tensor R 4)
  (net : nGPT) (ids : list (list nat)) (mask : option (tensor bool 2))
  (return_hiddens : bool) (w : tensor R 2) :
  NormLinear_weight (g_token_embed net) = Ok w ->
  forallb (forallb (fun i => i <? length w)%nat) ids = false ->
  nGPT_forward sdpa net ids mask false return_hiddens = Err IndexError.
Proof.
  intros Hw Hids. unfold nGPT_forward, nGPT_forward_calls. rewrite Hw. cbn [bind].
  rewrite (embed_out_of_range w ids Hids). reflexivity.
Qed.

Lemma nGPT_forward_id_out_of_range_witness :
  nGPT_forward values_kernel (tiny_net 2 [[1]] false) [[0%nat; 1%nat]] None false false
  = Err IndexError.
Proof.
  apply (nGPT_forward_id_out_of_range values_kernel (tiny_net 2 [[1]] false)
           [[0%nat; 1%nat]] None false [[1]]).
  - reflexivity.
  - reflexivity.
Defined.

(** *** The smallest network, run *)

Lemma plain_net_single_sphere (d : nat) : nGPT_single_sphere (plain_net d).
Proof. exact (tiny_net_single_sphere d [[1]] false). Qed.

Lemma nGPT_forward_without_value_residual_witness :
  exists out calls,
    nGPT_forward_calls values_kernel (plain_net 2) [[0%nat]] None false false
    = Ok (out, calls) /\
    map ac_module calls = map (fun l : layer => res_fn (fst l)) (g_layers (plain_net 2)) /\
    Forall call_is_first calls.
Proof.
  destruct (nGPT_forward_calls_total values_kernel (plain_net 2) [[0%nat]] None
              [[1]] [[[1]]] (plain_net_single_sphere 2) (unmasked_layers _)
              eq_refl eq_refl)
    as (logits & calls & E).
  exists (Logits logits), calls. split; [exact E|].
  apply (nGPT_forward_without_value_residual values_kernel (plain_net 2) [[0%nat]] None
           false false (Logits logits) calls).
  - reflexivity.
  - exact E.
Defined.

Lemma tiny_attention_shape (dt : dtype) (x : R) (vr : option R) :
  exists o v,
    Attention_forward values_kernel (tiny_attention [[1]] false) dt [[[x]]] None
      (Some (fun t => t)) (option_map (fun r => [[[[r]]]]) vr) true
    = Ok ([[[o]]], Some [[[[v]]]]).
Proof.
  unfold Attention_forward, tiny_attention.
  cbn [at_to_q at_to_k at_to_v at_to_out at_heads at_norm_qk at_l2norm at_qk_scale
       at_causal at_attn_scale].
  change (NormLinear_forward (tiny_projection [[1]] true false) 2 [[[x]]])
    with (Ok (A := tensor R 3) [[[(x * 1 + 0) * / INR 1]]]).
  cbn [bind].
  change (split_heads 1 [[[(x * 1 + 0) * / INR 1]]])
    with [[[[(x * 1 + 0) * / INR 1]]]].
  rewrite tiny_l2norm_forward3. cbn [bind fst snd].
  destruct vr as [r|]; cbn [option_map]; eexists; eexists; reflexivity.
Qed.

Lemma tiny_feedforward_shape (x : R) :
  exists o, FeedForward_forward (tiny_feedforward [[1]] false) [[[x]]] = Ok [[[o]]].
Proof. eexists. reflexivity. Qed.

Lemma tiny_layer_step_shape (net : nGPT) (st : loop_state) (x : R) (vr : option R) :
  g_dtype net = float32 -> g_rotary_embed net = (fun t => t) ->
  ls_tokens st = [[[x]]] ->
  (if g_add_value_residual net then ls_first_values st else None)
  = option_map (fun r => [[[[r]]]]) vr ->
  ls_first_values st = option_map (fun r => [[[[r]]]]) vr ->
  exists st' a b v,
    layer_step values_kernel net None (tiny_layer [[1]] false) st = Ok st' /\
    ls_tokens st' = [[[b]]] /\
    ls_hiddens st' = ls_hiddens st ++ [[[[a]]]; [[[b]]]] /\
    ls_first_values st' = Some [[[[v]]]].
Proof.
  intros Hdt Hrot Htok Hvr Hfv. unfold layer_step. rewrite Hdt, Hrot, Htok, Hvr.
  unfold Residual_forward, Residual_fused, tiny_layer.
  cbn [fst snd res_fn res_l2norm res_branch_scale].
  destruct (tiny_attention_shape float32 x vr) as (o & v & ->). cbn [bind fst snd].
  rewrite tiny_l2norm_forward2. cbn [bind].
  change (lerp 2 [[[x]]] [[[o / Rmax normalize_eps (vnorm [o])]]]
            (Scale_forward tiny_scale))
    with [[[x + 1 * 1 * (o / Rmax normalize_eps (vnorm [o]) - x)]]].
  rewrite tiny_l2norm_forward2. cbn [bind fst snd].
  match goal with
  | |- context [FeedForward_forward _ [[[?y]]]] =>
      destruct (tiny_feedforward_shape y) as (f & ->)
  end.
  cbn [bind fst snd]. rewrite tiny_l2norm_forward2. cbn [bind].
  match goal with
  | |- context [lerp 2 [[[?y]]] [[[?z]]] (Scale_forward tiny_scale)] =>
      change (lerp 2 [[[y]]] [[[z]]] (Scale_forward tiny_scale))
        with [[[y + 1 * 1 * (z - y)]]]
  end.
  rewrite tiny_l2norm_forward2. cbn [bind fst snd].
  eexists. eexists. eexists.
  exists (match vr with Some r => r | None => v end).
  split; [reflexivity|]. cbn [ls_tokens ls_hiddens ls_first_values].
  split; [reflexivity|]. split; [rewrite <- app_assoc; reflexivity|].
  rewrite Hfv. destruct vr; reflexivity.
Qed.

Lemma tiny_run_layers_shape (d : nat) :
  forall (st : loop_state) (x : R) (vr : option R),
    ls_tokens st = [[[x]]] ->
    ls_first_values st = option_map (fun r => [[[[r]]]]) vr ->
    Forall unit_shaped (ls_hiddens st) ->
    exists st',
      run_layers values_kernel (tiny_net 2 [[1]] false) None
        (repeat (tiny_layer [[1]] false) d) st = Ok st' /\
      Forall unit_shaped (ls_hiddens st') /\
      unit_shaped (ls_tokens st').
Proof.
  induction d as [|d IH]; intros st x vr Htok Hfv Hh.
  - exists st. split; [reflexivity|]. split; [exact Hh|]. exists x. exact Htok.
  - cbn [repeat run_layers].
    destruct (tiny_layer_step_shape (tiny_net 2 [[1]] false) st x vr
                eq_refl eq_refl Htok Hfv Hfv) as (st1 & a & b & v & -> & Ht1 & Hh1 & Hf1).
    cbn [bind].
    apply (IH st1 b (Some v) Ht1 Hf1).
    rewrite Hh1. apply Forall_app. split; [exact Hh|].
    repeat first [apply Forall_nil | apply Forall_cons]; eexists; reflexivity.
Qed.

Lemma stack_unit_shaped (t : tensor R 3) (ts : list (tensor R 3)) :
  Forall unit_shaped (t :: ts) -> stack 3 (t :: ts) = Ok (t :: ts).
Proof.
  intros H. apply stack_ok; [discriminate|].
  rewrite Forall_forall in H. intros a b Ha Hb.
  destruct (H a Ha) as (x & ->). destruct (H b Hb) as (y & ->). reflexivity.
Qed.

Lemma tiny_net_forward_hiddens :
  exists out,
    nGPT_forward values_kernel (tiny_net 2 [[1]] false) [[0%nat]] None false true
    = Ok out.
Proof.
  destruct (tiny_run_layers_shape 2
              {| ls_tokens := [[[1]]]; ls_hiddens := [[[[1]]]];
                 ls_first_values := None; ls_calls := [] |} 1 None eq_refl eq_refl)
    as (st & Hrun & Hh & _).
  { repeat first [apply Forall_nil | apply Forall_cons]. eexists. reflexivity. }
  destruct (NormLinear_forward_total (F := R) (tiny_projection [[1]] true false) 2
              (ls_tokens st) (tiny_single_sphere true false [[1]])) as (lg & Hlg).
  destruct (run_layers_hiddens values_kernel _ None _ _ _ Hrun) as (new & Hnew & _).
  cbn [ls_hiddens app] in Hnew.
  assert (Hstack : stack 3 (ls_hiddens st) = Ok (ls_hiddens st)).
  { rewrite Hnew in Hh |- *. apply (stack_unit_shaped _ _ Hh). }
  unfold nGPT_forward, nGPT_forward_calls.
  change (NormLinear_weight (g_token_embed (tiny_net 2 [[1]] false)))
    with (Ok (A := tensor R 2) [[1]]).
  cbn [bind]. change (embed [[1]] [[0%nat]]) with (Ok (A := tensor R 3) [[[1]]]).
  cbn [bind].
  match goal with
  | |- context [run_layers ?a ?b ?c ?d ?e] =>
      replace (run_layers a b c d e) with (Ok st) by (symmetry; exact Hrun)
  end.
  cbn [bind].
  match goal with
  | |- context [match ?o with Some to_logits => _ | None => _ end] =>
      replace (match o with
               | Some to_logits => NormLinear_forward to_logits 2 (ls_tokens st)
               | None => Ok (tied_logits [[1]] (ls_tokens st))
               end) with (Ok lg) by (symmetry; exact Hlg)
  end.
  cbn [bind]. rewrite Hstack. cbn [bind fst]. eauto.
Qed.

Lemma nGPT_forward_hiddens_witness :
  exists out w tokens h,
    nGPT_forward values_kernel (tiny_net 2 [[1]] false) [[0%nat]] None false true
    = Ok out /\
    NormLinear_weight (g_token_embed (tiny_net 2 [[1]] false)) = Ok w /\
    embed w [[0%nat]] = Ok tokens /\
    hiddens_of out = Some h /\
    length h = (2 * length (g_layers (tiny_net 2 [[1%R]] false)) + 1)%nat /\
    nth_error h 0 = Some tokens.
Proof.
  destruct tiny_net_forward_hiddens as (out & E).
  exists out.
  destruct (nGPT_forward_hiddens values_kernel (tiny_net 2 [[1]] false) [[0%nat]] None
              false out E) as (w & tokens & h & H).
  exists w, tokens, h. split; [exact E|exact H].
Defined.

(** ** The embedded tokens *)

Lemma forallb_pointwise {A : Type} (f g : A -> bool) (l : list A) :
  (forall x, f x = g x) -> forallb f l = forallb g l.
Proof.
  intros H. induction l as [|x l IH]; simpl; [reflexivity|]. rewrite H, IH. reflexivity.
Qed.

(** X25: under the eager policy, normalising along the input axis, the
    embedding table is read and the token vectors looked up in it are
    on the sphere, whatever the raw table, as long as no group of a raw
    row is under the floor and the ids are in range. *)
Theorem embedded_tokens_on_sphere (m : NormLinear) (ids : list (list nat)) :
  nl_parametrize m = true ->
  0 <= l2_norm_eps (nl_l2norm m) ->
  l2_dim (nl_l2norm m) = (-1)%Z ->
  last_len (nl_dim m) 1 (nl_linear m) ->
  (l2_groups (nl_l2norm m) <= 1)%nat \/
  even_chunks (l2_groups (nl_l2norm m)) (nl_dim m) ->
  weight_above_floor (nl_l2norm m) (nl_dtype m) (nl_linear m) ->
  forallb (forallb (fun i => i <? length (nl_linear m))%nat) ids = true ->
  exists w tokens,
    NormLinear_weight m = Ok w /\
    embed w ids = Ok tokens /\
    all_last (groups_in_band (l2_norm_eps (nl_l2norm m)) (l2_groups (nl_l2norm m)))
             2 tokens.
Proof.
  intros Hp Htol Hd HW Hg Hfloor Hids.
  destruct (l2norm_weight_on_sphere _ (nl_dtype m) _ _ Htol HW
              (or_introl (conj Hd Hg)) Hfloor) as (W' & E & _ & Hlen & Hinv).
  unfold NormLinear_weight. rewrite Hp, E.
  exists W', (map (map (fun i => nth i W' [])) ids).
  split; [reflexivity|].
  assert (Hids' : forallb (forallb (fun i => i <? length W')%nat) ids = true).
  { etransitivity; [|exact Hids].
    apply forallb_pointwise. intros row. apply forallb_pointwise. intros i.
    f_equal. exact Hlen. }
  split; [apply embed_in_range, Hids'|].
  unfold unit_norm_invariant in Hinv. rewrite Hd in Hinv.
  change ((-1 =? 0)%Z) with false in Hinv. cbv iota in Hinv.
  cbn [all_last]. apply Forall_map.
  rewrite forallb_forall in Hids'. apply Forall_forall. intros row Hrow.
  apply Forall_map. specialize (Hids' row Hrow). rewrite forallb_forall in Hids'.
  apply Forall_forall. intros i Hi. specialize (Hids' i Hi).
  apply Nat.ltb_lt in Hids'.
  rewrite Forall_forall in Hinv. apply Hinv. apply nth_In. exact Hids'.
Qed.

Lemma embedded_tokens_on_sphere_witness :
  exists w tokens,
    NormLinear_weight (tiny_projection [[3]] true true) = Ok w /\
    embed w [[0%nat; 0%nat]] = Ok tokens /\
    all_last (groups_in_band 0 1) 2 tokens.
Proof.
  apply (embedded_tokens_on_sphere (tiny_projection [[3]] true true) [[0%nat; 0%nat]]).
  - reflexivity.
  - simpl. lra.
  - reflexivity.
  - simpl. split; [discriminate|]. repeat constructor.
  - left. simpl. lia.
  - unfold weight_above_floor. simpl. unfold groups_of. simpl.
    repeat first [apply Forall_nil | apply Forall_cons].
    unfold above_floor, normalize_eps. rewrite vnorm_singleton, Rabs_pos_eq by lra.
    repeat split; intros; lra.
  - reflexivity.
Defined.

(** ** [NormLinear.__init__] *)

(** X26: construction, with [groups] not zero and an initial weight
    whose norms along the normalised axis are above the floor, returns
    a projection that carries the multiplier [groups ** -1] and a
    stored weight on the sphere, under either policy: along the input
    axis for any group count that is 1 or cuts it evenly, along the
    output axis with one group. *)
Theorem NormLinear_init_on_sphere (d d_out : nat) (norm_dim_in parametrize : bool)
  (ne : R) (g : nat) (dt : dtype) (W : tensor R 2) :
  0 <= ne ->
  g <> 0%nat ->
  last_len d 1 W ->
  (norm_dim_in = true /\ ((g <= 1)%nat \/ even_chunks g d)) \/
  (norm_dim_in = false /\ (g <= 1)%nat) ->
  weight_above_floor {| l2_dim := if norm_dim_in then (-1)%Z else 0%Z;
                        l2_norm_eps := ne; l2_groups := g |} dt W ->
  exists m,
    NormLinear_init d d_out norm_dim_in parametrize ne g dt W = Ok m /\
    nl_scale m = / INR g /\
    nl_parametrize m = parametrize /\
    unit_norm_invariant (nl_l2norm m) (nl_linear m).
Proof.
  intros Htol Hg HW Hcase Hfloor.
  set (l := {| l2_dim := if norm_dim_in then (-1)%Z else 0%Z;
               l2_norm_eps := ne; l2_groups := g |}) in *.
  assert (Hcase' : (l2_dim l = (-1)%Z /\
                    ((l2_groups l <= 1)%nat \/ even_chunks (l2_groups l) d)) \/
                   (l2_dim l = 0%Z /\ (l2_groups l <= 1)%nat)).
  { destruct Hcase as [[-> H]|[-> H]]; [left|right]; split; auto. }
  destruct (l2norm_weight_on_sphere l dt d W Htol HW Hcase' Hfloor)
    as (W' & E & _ & _ & Hinv).
  unfold NormLinear_init. destruct (Nat.eqb_spec g 0) as [|_]; [contradiction|].
  unfold NormLinear_norm_weights_, NormLinear_weight.
  cbn [nl_parametrize nl_l2norm nl_dtype nl_linear]. fold l.
  eexists. destruct parametrize; cbn [bind]; rewrite E; cbn [bind];
    (split; [reflexivity|]); cbn [set_linear nl_scale nl_parametrize nl_l2norm nl_linear];
    auto.
Qed.

Lemma NormLinear_init_on_sphere_witness :
  exists m,
    NormLinear_init 2 1 true false 0 2 float32 [[3; 4]] = Ok m /\
    nl_scale m = / INR 2 /\
    nl_parametrize m = false /\
    unit_norm_invariant (nl_l2norm m) (nl_linear m).
Proof.
  apply (NormLinear_init_on_sphere 2 1 true false 0 2 float32 [[3; 4]]).
  - lra.
  - discriminate.
  - simpl. split; [discriminate|]. repeat constructor.
  - left. split; [reflexivity|]. right. exists 2%nat. reflexivity.
  - unfold weight_above_floor. simpl. teval.
    repeat first [apply Forall_nil | apply Forall_cons];
      unfold above_floor, normalize_eps; rewrite vnorm_singleton, Rabs_pos_eq by lra;
      repeat split; intros; lra.
Defined.

(** ** [Residual.forward] with a closed gate *)

Lemma lerp_vec_zero (L : nat) (s e : list R) :
  length s = L -> length e = L -> lerp_vec (repeat 0 L) s e = s.
Proof.
  unfold lerp_vec. revert s e. induction L as [|L IH]; intros [|a s] [|b e] Hs He;
    try discriminate; try reflexivity.
  cbn [repeat combine map2 fst snd]. f_equal; [ring|].
  apply IH; simpl in *; lia.
Qed.

Lemma same_shape_cons {A B : Type} (n : nat) (a : tensor A n) (x : list (tensor A n))
  (b : tensor B n) (y : list (tensor B n)) :
  same_shape (S n) (a :: x) (b :: y) = true ->
  same_shape n a b = true /\ same_shape (S n) x y = true.
Proof.
  cbn [same_shape length map2 forallb]. intros H.
  apply andb_prop in H as [Hl H]. apply andb_prop in H as [Hab H].
  split; [exact Hab|]. apply andb_true_intro. split; [|exact H].
  apply Nat.eqb_eq in Hl. apply Nat.eqb_eq. lia.
Qed.

Lemma zip_last_left {A B : Type} (f : list A -> list B -> list A) (L n : nat)
  (x : tensor A (S n)) (y : tensor B (S n)) :
  (forall u v, length u = L -> length v = L -> f u v = u) ->
  same_shape (S n) x y = true ->
  last_len L n x -> last_len L n y ->
  zip_last f n x y = x.
Proof.
  intros Hf. revert x y. induction n as [|n IH]; intros x y Hs Hx Hy.
  - apply Hf; assumption.
  - destruct Hx as [_ Hx]. destruct Hy as [_ Hy]. cbn [zip_last].
    revert y Hs Hy. induction Hx as [|a x Ha Hx IHx]; intros [|b y] Hs Hy;
      try reflexivity; try discriminate.
    apply same_shape_cons in Hs as [Hab Hs]. inversion Hy; subst.
    cbn [map2]. f_equal; [apply IH; assumption|apply IHx; assumption].
Qed.

Lemma same_shape_on_last {A B : Type} (G : list B -> list B) (L n : nat)
  (x : tensor A (S n)) (o : tensor B (S n)) :
  (forall v, length v = L -> length (G v) = L) ->
  last_len L n o ->
  same_shape (S n) x o = true ->
  same_shape (S n) x (on_last G n o) = true.
Proof.
  intros HG. revert x o. induction n as [|n IH]; intros x o Ho Hs.
  - apply same_shape_vectors. cbn [last_len on_last] in *. rewrite HG by exact Ho.
    rewrite <- Ho. apply (same_shape_length 0 x o Hs).
  - cbn [on_last]. destruct Ho as [_ Ho].
    revert o Ho Hs. induction x as [|a x IHx]; intros [|b o] Ho Hs;
      try reflexivity; try discriminate.
    apply same_shape_cons in Hs as [Hab Hs]. inversion Ho; subst.
    specialize (IHx o ltac:(assumption) Hs). specialize (IH a b ltac:(assumption) Hab).
    cbn [map]. cbn [same_shape length map2 forallb] in *.
    apply andb_prop in IHx as [Hl Hr].
    rewrite length_map in *. apply Nat.eqb_eq in Hl.
    apply andb_true_intro. split; [apply Nat.eqb_eq; lia|].
    apply andb_true_intro. split; [exact IH|exact Hr].
Qed.

(** X27: with a tolerance in [[0, 1)] and a branch scale of zero,
    around a block whose output has the shape of its input, the wrapper
    hands back the normalised input: what the wrapped block computed
    does not show (but the block is still run, and its extra outputs
    are kept). *)
Theorem Residual_forward_zero_scale {M Rest : Type} (n : nat)
  (apply : M -> tensor R (S n) -> result (tensor R (S n) * option Rest))
  (r : Residual M) (dt : dtype) (x o : tensor R (S n)) (rest : option Rest) (L : nat) :
  l2_dim (res_l2norm r) = (-1)%Z ->
  0 <= l2_norm_eps (res_l2norm r) < 1 ->
  (l2_groups (res_l2norm r) <= 1)%nat \/ even_chunks (l2_groups (res_l2norm r)) L ->
  last_len L n x ->
  last_len L n o ->
  same_shape (S n) x o = true ->
  Scale_forward (res_branch_scale r) = repeat 0 L ->
  apply (res_fn r) x = Ok (o, rest) ->
  Residual_forward n apply r dt x
  = (out <- L2Norm_forward (res_l2norm r) dt n x ;; Ok (out, rest)).
Proof.
  intros Hdim _ Hg Hx Ho Hs Hw Happ.
  set (ne := l2_norm_eps (res_l2norm r)) in *.
  set (g := l2_groups (res_l2norm r)) in *.
  assert (Hlen : forall v : list R, length v = L -> length (grouped_vec ne None dt g v) = L).
  { intros v Hv. rewrite grouped_vec_length; [exact Hv|]. rewrite Hv. exact Hg. }
  set (o' := on_last (grouped_vec ne None dt g) n o).
  assert (Ho' : last_len L n o') by (apply (last_len_on_last _ L L); auto).
  assert (Hfused : lerp n x o' (repeat 0 L) = x).
  { unfold lerp. apply (zip_last_left _ L); auto.
    - intros u v Hu Hv. apply lerp_vec_zero; assumption.
    - unfold o'. apply (same_shape_on_last _ L); assumption. }
  unfold Residual_forward, Residual_fused. rewrite Happ. cbn [bind fst snd].
  unfold L2Norm_forward. rewrite Hdim. fold ne g.
  rewrite (l2norm_last_axis n o ne None g dt L Ho Hg). cbn [bind]. fold o'.
  rewrite Hw, Hfused. 
  rewrite (l2norm_last_axis n x ne None g dt L Hx Hg). reflexivity.
Qed.

Lemma Residual_forward_zero_scale_witness :
  Residual_forward 2 negate
    {| res_fn := tt;
       res_branch_scale := {| sc_dim := 1; sc_scale := [0]; sc_forward_scale := 1 |};
       res_l2norm := residual_l2norm |} float32 [[[1]]]
  = (out <- L2Norm_forward residual_l2norm float32 2 [[[1]]] ;; Ok (out, None)).
Proof.
  apply (Residual_forward_zero_scale 2 negate
           {| res_fn := tt;
              res_branch_scale := {| sc_dim := 1; sc_scale := [0]; sc_forward_scale := 1 |};
              res_l2norm := residual_l2norm |} float32 [[[1]]] (tmap Ropp 3 [[[1]]])
           None 1).
  - reflexivity.
  - simpl. lra.
  - left. simpl. lia.
  - cbn [last_len].
    repeat first [split | discriminate | apply Forall_cons | apply Forall_nil | reflexivity].
  - cbn [last_len tmap map].
    repeat first [split | discriminate | apply Forall_cons | apply Forall_nil | reflexivity].
  - reflexivity.
  - unfold Scale_forward. simpl. f_equal. lra.
  - reflexivity.
Defined.

(** ** [l2norm] along axis 0 *)

Lemma grouped_vec_single (ne : R) (eps : option R) (dt : dtype) (g : nat) (v : list R) :
  (g <= 1)%nat -> grouped_vec ne eps dt g v = l2norm_vec ne eps dt v.
Proof.
  intros Hg. unfold grouped_vec, groups_of.
  destruct (Nat.ltb_spec 1 g) as [?|_]; [lia|]. simpl. apply app_nil_r.
Qed.

(** X28: with one group, normalising a non-empty matrix along axis 0
    returns and is normalising each of its columns as a vector. *)
Theorem l2norm_axis0_columns (W : tensor R 2) (norm_eps : R) (eps : option R)
  (groups : nat) (dt : dtype) (L : nat) :
  (groups <= 1)%nat ->
  last_len L 1 W ->
  exists W' f,
    l2norm 1 W 0 norm_eps eps groups dt = Ok W' /\
    (forall col, l2norm 0 col (-1) norm_eps eps groups dt = Ok (f col)) /\
    transpose W' = map f (transpose W).
Proof.
  intros Hg HW. pose proof HW as [Hne Hrows].
  exists (rescale0 (divisor_of norm_eps eps dt) 1 W), (l2norm_vec norm_eps eps dt).
  split; [|split].
  - rewrite (l2norm_first_axis 1 W norm_eps eps groups dt
               (last_len_one_shape L W HW) (or_introl Hg)).
    destruct (Nat.ltb_spec 1 groups) as [?|_]; [lia|]. reflexivity.
  - intros col.
    rewrite (l2norm_last_axis 0 col norm_eps eps groups dt (length col) eq_refl
               (or_introl Hg)).
    cbn [on_last]. rewrite grouped_vec_single by exact Hg. reflexivity.
  - destruct (rescale0_rows (divisor_of norm_eps eps dt) L W Hne Hrows) as [Hne' Hrows'].
    rewrite (transpose_unfold L _ Hne' Hrows'), (transpose_unfold L W Hne Hrows).
    apply rescale0_columns; assumption.
Qed.

Lemma l2norm_axis0_columns_witness :
  exists W' f,
    l2norm 1 [[3; 1]; [4; 0]] 0 0 None 1 float32 = Ok W' /\
    (forall col, l2norm 0 col (-1) 0 None 1 float32 = Ok (f col)) /\
    transpose W' = map f (transpose [[3; 1]; [4; 0]]).
Proof.
  apply (l2norm_axis0_columns [[3; 1]; [4; 0]] 0 None 1 float32 2).
  - lia.
  - simpl. split; [discriminate|]. repeat constructor.
Defined.

(** ** [Attention.forward]: the rows the mask lets through *)



(** ** [FeedForward.__init__] *)

Lemma NormLinear_init_fields (d d_out : nat) (norm_dim_in parametrize : bool)
  (ne : R) (g : nat) (dt : dtype) (W : tensor R 2) (m : NormLinear) :
  NormLinear_init d d_out norm_dim_in parametrize ne g dt W = Ok m ->
  nl_dim m = d /\ nl_dim_out m = d_out /\ nl_parametrize m = parametrize /\
  nl_scale m = / INR g /\
  nl_l2norm m = {| l2_dim := if norm_dim_in then (-1)%Z else 0%Z;
                   l2_norm_eps := ne; l2_groups := g |}.
Proof.
  unfold NormLinear_init. destruct (g =? 0)%nat; [discriminate|].
  unfold NormLinear_norm_weights_. cbn [nl_parametrize].
  destruct parametrize; intros E.
  - apply bind_Ok in E as (w & _ & E). injection E as <-. repeat split.
  - apply bind_Ok in E as (w & _ & E). apply bind_Ok in E as (w' & _ & E).
    injection E as <-. repeat split.
Qed.

Lemma Scale_init_length (d : nat) (init scale : R) (s : Scale) :
  Scale_init d init scale = Ok s -> length (Scale_forward s) = d.
Proof.
  intros E. rewrite (Scale_init_forward _ _ _ _ E). apply repeat_length.
Qed.

(** X30: for [expand_factor >= 0] the hidden width of a constructed
    feed-forward block is [dim * expand_factor * 2 / 3] rounded down;
    the two inner
    projections are normalised along their input axis, the output
    projection along axis 0, and the two learned scales have one entry
    per hidden channel. *)
Theorem FeedForward_init_structure (d : nat) (expand_factor : R)
  (manual : bool) (s_hidden_init s_hidden_scale s_gate_init s_gate_scale : option R)
  (ne : R) (g : nat) (dt : dtype) (draw : nat -> tensor R 2) (f : FeedForward) :
  0 <= expand_factor ->
  FeedForward_init d expand_factor manual s_hidden_init s_hidden_scale
    s_gate_init s_gate_scale ne g dt draw = Ok f ->
  INR (fw_dim_inner f) <= INR d * expand_factor * 2 / 3 < INR (fw_dim_inner f) + 1 /\
  (nl_dim (fw_to_hidden f) = d /\ nl_dim_out (fw_to_hidden f) = fw_dim_inner f /\
   l2_dim (nl_l2norm (fw_to_hidden f)) = (-1)%Z) /\
  (nl_dim (fw_to_gate f) = d /\ nl_dim_out (fw_to_gate f) = fw_dim_inner f /\
   l2_dim (nl_l2norm (fw_to_gate f)) = (-1)%Z) /\
  (nl_dim (fw_to_out f) = fw_dim_inner f /\ nl_dim_out (fw_to_out f) = d /\
   l2_dim (nl_l2norm (fw_to_out f)) = 0%Z) /\
  length (Scale_forward (fw_hidden_scale f)) = fw_dim_inner f /\
  length (Scale_forward (fw_gate_scale f)) = fw_dim_inner f.
Proof.
  intros Hef E. unfold FeedForward_init in E.
  apply bind_Ok in E as (th & Hth & E). apply bind_Ok in E as (tg & Htg & E).
  apply bind_Ok in E as (hs & _ & E). apply bind_Ok in E as (hi & _ & E).
  apply bind_Ok in E as (sh & Hsh & E).
  apply bind_Ok in E as (gs & _ & E). apply bind_Ok in E as (gi & _ & E).
  apply bind_Ok in E as (sg & Hsg & E).
  apply bind_Ok in E as (to & Hto & E).
  injection E as <-.
  cbn [fw_dim_inner fw_to_hidden fw_to_gate fw_to_out fw_hidden_scale fw_gate_scale].
  apply NormLinear_init_fields in Hth as (H1 & H2 & _ & _ & H3).
  apply NormLinear_init_fields in Htg as (H4 & H5 & _ & _ & H6).
  apply NormLinear_init_fields in Hto as (H7 & H8 & _ & _ & H9).
  rewrite H3, H6, H9. cbn [l2_dim].
  split.
  - set (r := INR d * expand_factor * 2 / 3).
    assert (Hr : 0 <= r).
    { unfold r. pose proof (pos_INR d). nra. }
    destruct (base_Int_part r) as [Hlo Hhi].
    assert (Hz : (0 <= Int_part r)%Z).
    { apply le_IZR. apply Rnot_lt_le. intros Hneg.
      assert (IZR (Int_part r) <= -1).
      { apply IZR_le. apply lt_IZR in Hneg. lia. }
      lra. }
    rewrite INR_IZR_INZ, Z2Nat.id by exact Hz. lra.
  - repeat split; auto; eapply Scale_init_length; eassumption.
Qed.

Lemma FeedForward_init_total (d : nat) (expand_factor : R) (manual : bool)
  (hi hs gi gs ne : R) (dt : dtype) (draw : nat -> tensor R 2) :
  hs <> 0 -> gs <> 0 ->
  exists f, FeedForward_init d expand_factor manual (Some hi) (Some hs) (Some gi) (Some gs)
              ne 1 dt draw = Ok f.
Proof.
  intros Hhs Hgs. unfold FeedForward_init. cbn [require].
  repeat match goal with
         | |- context [NormLinear_init ?a ?b ?n ?p ?e 1 ?t ?w] =>
             let m := fresh "m" in let E := fresh "E" in
             destruct (NormLinear_init_total a b n p e t w) as (m & E);
             rewrite E; clear E; cbn [bind]
         | |- context [Scale_init ?a ?i ?s] =>
             let sc := fresh "sc" in let E := fresh "E" in
             destruct (Scale_init_total a i s ltac:(assumption)) as (sc & E);
             rewrite E; clear E; cbn [bind]
         end.
  eauto.
Qed.

Lemma FeedForward_init_structure_witness :
  exists f,
    FeedForward_init 3 4 false (Some 1) (Some 1) (Some 1) (Some 1) 0 1 float32
      (fun _ => [[1]]) = Ok f /\
    INR (fw_dim_inner f) <= INR 3 * 4 * 2 / 3 < INR (fw_dim_inner f) + 1 /\
    (nl_dim (fw_to_hidden f) = 3%nat /\ nl_dim_out (fw_to_hidden f) = fw_dim_inner f /\
     l2_dim (nl_l2norm (fw_to_hidden f)) = (-1)%Z) /\
    (nl_dim (fw_to_gate f) = 3%nat /\ nl_dim_out (fw_to_gate f) = fw_dim_inner f /\
     l2_dim (nl_l2norm (fw_to_gate f)) = (-1)%Z) /\
    (nl_dim (fw_to_out f) = fw_dim_inner f /\ nl_dim_out (fw_to_out f) = 3%nat /\
     l2_dim (nl_l2norm (fw_to_out f)) = 0%Z) /\
    length (Scale_forward (fw_hidden_scale f)) = fw_dim_inner f /\
    length (Scale_forward (fw_gate_scale f)) = fw_dim_inner f.
Proof.
  destruct (FeedForward_init_total 3 4 false 1 1 1 1 0 float32 (fun _ => [[1]]))
    as (f & E); [lra|lra|].
  exists f. split; [exact E|].
  apply (FeedForward_init_structure 3 4 false (Some 1) (Some 1) (Some 1) (Some 1) 0 1
           float32 (fun _ => [[1]]) f); [lra|exact E].
Defined.
